(** * The FAQ module of curio-code-library: state and search engine

    A shallow embedding of [src/faq/index.ts], [src/faq/config.ts] and
    [src/utils/helpers.ts].  The document is a tree of element handles and
    text nodes; the attributes, class lists and inline styles of the
    elements live in a store keyed by handle, so that two item records that
    point at the same element alias each other exactly as in the browser.
    Everything the code reads from the layout engine, the clock or the random
    number generator is taken from an explicit environment record. *)

From Stdlib Require Import ZArith Ascii String List Lia Bool.
From stdpp Require Import base option list gmap sets strings pretty.

Local Open Scope Z_scope.
#[local] Set Warnings "-clear-no-such-hyp".

(* ===================================================================== *)
(** ** JavaScript strings

    Strings are sequences of code units, here the characters of [string].
    Case folding and trimming are the ASCII ones. *)
(* ===================================================================== *)

Module Js.

Definition isUpper (c : ascii) : bool :=
  let n := nat_of_ascii c in (Nat.leb 65 n && Nat.leb n 90)%bool.

Definition lowerChar (c : ascii) : ascii :=
  if isUpper c then ascii_of_nat (nat_of_ascii c + 32) else c.

Fixpoint toLowerCase (s : string) : string :=
  match s with
  | EmptyString => EmptyString
  | String c r => String (lowerChar c) (toLowerCase r)
  end.

(** White space as [String.prototype.trim] sees it in ASCII: TAB, LF, VT,
    FF, CR and SPACE. *)
Definition isSpace (c : ascii) : bool :=
  let n := nat_of_ascii c in
  (Nat.eqb n 32 || (Nat.leb 9 n && Nat.leb n 13))%bool.

Fixpoint trimStart (s : string) : string :=
  match s with
  | EmptyString => EmptyString
  | String c r => if isSpace c then trimStart r else s
  end.

Fixpoint trimEnd (s : string) : string :=
  match s with
  | EmptyString => EmptyString
  | String c r =>
      match trimEnd r with
      | EmptyString => if isSpace c then EmptyString else String c EmptyString
      | r' => String c r'
      end
  end.

Definition trim (s : string) : string := trimEnd (trimStart s).

Definition len (s : string) : Z := Z.of_nat (String.length s).

Fixpoint startsWith (needle hay : string) : bool :=
  match needle, hay with
  | EmptyString, _ => true
  | String a n', String b h' => (Ascii.eqb a b && startsWith n' h')%bool
  | String _ _, EmptyString => false
  end.

(** [findFrom needle hay skip i]: [hay] is the suffix of the searched string
    that starts at index [i]; the first [skip] positions are not candidates. *)
Fixpoint findFrom (needle hay : string) (skip : nat) (i : Z) : Z :=
  if (Nat.eqb skip 0 && startsWith needle hay)%bool then i
  else match hay with
       | EmptyString => -1
       | String _ rest => findFrom needle rest (Nat.pred skip) (i + 1)
       end.

(** [hay.indexOf(needle, from)]: the start position is clamped into
    [0 .. hay.length]; the result is [-1] when there is no occurrence. *)
Definition indexOf (hay needle : string) (from : Z) : Z :=
  findFrom needle hay (Nat.min (Z.to_nat from) (String.length hay)) 0.

Definition includes (hay needle : string) : bool :=
  negb (indexOf hay needle 0 =? -1).

(** Relative indices of [slice]: negative ones count from the end, and
    everything is clamped into [0 .. length]. *)
Definition clampIndex (s : string) (i : Z) : nat :=
  if i <? 0 then Z.to_nat (Z.max (len s + i) 0)
  else Nat.min (Z.to_nat i) (String.length s).

(** [s.slice(a, b)] *)
Definition slice (s : string) (a b : Z) : string :=
  let a' := clampIndex s a in
  let b' := clampIndex s b in
  String.substring a' (b' - a') s.

(** [s.slice(a)] *)
Definition sliceFrom (s : string) (a : Z) : string :=
  let a' := clampIndex s a in
  String.substring a' (String.length s - a') s.

End Js.

(* ===================================================================== *)
(** ** [src/utils/helpers.ts] *)
(* ===================================================================== *)

(** [normalizeText]: lowercase and trim. *)
Definition normalizeText (text : string) : string :=
  Js.trim (Js.toLowerCase text).

(* ===================================================================== *)
(** ** The document

    An element is a handle; a document is a forest of nodes in document
    order.  What the code reads and writes on an element (tag name,
    attributes, class list, inline style) is kept in a store under the
    element's handle. *)
(* ===================================================================== *)

Definition elem := nat.
Bind Scope nat_scope with elem.

#[local] Unset Elimination Schemes.
Inductive node : Type :=
| Text (s : string)
| Elem (e : elem) (kids : list node).
#[local] Set Elimination Schemes.

Record ElemData := mkElemData {
  tagName : string;
  attrs : gmap string string;
  classList : gset string;
  style : gmap string string
}.

Definition emptyElem : ElemData := mkElemData "" ∅ ∅ ∅.

Record Dom := mkDom {
  tree : list node;
  store : gmap elem ElemData;
  docHead : elem;
  docBody : elem
}.

Definition getEl (d : Dom) (e : elem) : ElemData :=
  default emptyElem (store d !! e).

Definition withStore (d : Dom) (s : gmap elem ElemData) : Dom :=
  mkDom (tree d) s (docHead d) (docBody d).

Definition withTree (d : Dom) (t : list node) : Dom :=
  mkDom t (store d) (docHead d) (docBody d).

Definition updEl (f : ElemData -> ElemData) (e : elem) (d : Dom) : Dom :=
  withStore d (<[e := f (getEl d e)]> (store d)).

(** *** Attribute, class and style primitives *)

Definition getAttribute (d : Dom) (e : elem) (name : string) : option string :=
  attrs (getEl d e) !! name.

Definition hasAttribute (d : Dom) (e : elem) (name : string) : bool :=
  bool_decide (is_Some (getAttribute d e name)).

Definition setAttribute (e : elem) (name value : string) : Dom -> Dom :=
  updEl (fun x => mkElemData (tagName x) (<[name := value]> (attrs x))
                             (classList x) (style x)) e.

Definition removeAttribute (e : elem) (name : string) : Dom -> Dom :=
  updEl (fun x => mkElemData (tagName x) (delete name (attrs x))
                             (classList x) (style x)) e.

Definition classContains (d : Dom) (e : elem) (c : string) : bool :=
  bool_decide (c ∈ classList (getEl d e)).

Definition classAdd (e : elem) (c : string) : Dom -> Dom :=
  updEl (fun x => mkElemData (tagName x) (attrs x)
                             ({[c]} ∪ classList x) (style x)) e.

Definition classRemove (e : elem) (c : string) : Dom -> Dom :=
  updEl (fun x => mkElemData (tagName x) (attrs x)
                             (classList x ∖ {[c]}) (style x)) e.

(** [el.classList.toggle(c, force)] *)
Definition classToggle (e : elem) (c : string) (force : bool) : Dom -> Dom :=
  if force then classAdd e c else classRemove e c.

(** [el.style.prop = value]; the empty string removes the declaration. *)
Definition setStyle (e : elem) (prop value : string) : Dom -> Dom :=
  updEl (fun x => mkElemData (tagName x) (attrs x) (classList x)
                   (if decide (value = "") then delete prop (style x)
                    else <[prop := value]> (style x))) e.

Definition getStyle (d : Dom) (e : elem) (prop : string) : string :=
  default "" (style (getEl d e) !! prop).

(** *** The tree *)

Fixpoint nodeElems (n : node) : list elem :=
  match n with
  | Text _ => []
  | Elem e ks => e :: flat_map nodeElems ks
  end.

(** The elements of a forest in document order. *)
Definition treeElems (ns : list node) : list elem := flat_map nodeElems ns.

(** The descendants of every node whose handle is [r], in document order. *)
Fixpoint descNode (r : elem) (n : node) : list elem :=
  match n with
  | Text _ => []
  | Elem e ks =>
      if decide (e = r) then flat_map nodeElems ks
      else flat_map (descNode r) ks
  end.

Definition descendants (r : elem) (ns : list node) : list elem :=
  flat_map (descNode r) ns.

Fixpoint nodeText (n : node) : string :=
  match n with
  | Text s => s
  | Elem _ ks => String.concat "" (map nodeText ks)
  end.

Definition nodesText (ns : list node) : string :=
  String.concat "" (map nodeText ns).

(** The children of the node with handle [r]. *)
Fixpoint kidsNode (r : elem) (n : node) : list node :=
  match n with
  | Text _ => []
  | Elem e ks => if decide (e = r) then ks else flat_map (kidsNode r) ks
  end.

Definition childNodes (r : elem) (ns : list node) : list node :=
  flat_map (kidsNode r) ns.

(** [el.textContent] *)
Definition textContent (d : Dom) (e : elem) : string :=
  nodesText (childNodes e (tree d)).

(** Rewrite the child list of the node with handle [r]. *)
Fixpoint mapAt (r : elem) (f : list node -> list node) (n : node) : node :=
  match n with
  | Text s => Text s
  | Elem e ks =>
      if decide (e = r) then Elem e (f ks) else Elem e (map (mapAt r f) ks)
  end.

Definition appendChild (parent : elem) (child : node) (d : Dom) : Dom :=
  withTree d (map (mapAt parent (fun ks => ks ++ [child])) (tree d)).

(** [el.textContent = s]: all children go, one text node comes unless [s]
    is empty. *)
Definition setTextContent (e : elem) (s : string) (d : Dom) : Dom :=
  withTree d (map (mapAt e (fun _ => if decide (s = "") then [] else [Text s]))
                  (tree d)).

Definition isElem (e : elem) (n : node) : bool :=
  match n with
  | Elem e' _ => bool_decide (e' = e)
  | Text _ => false
  end.

(** [el.remove()] *)
Fixpoint removeNode (e : elem) (n : node) : list node :=
  match n with
  | Text s => [Text s]
  | Elem e' ks =>
      if decide (e' = e) then [] else [Elem e' (flat_map (removeNode e) ks)]
  end.

Definition removeElem (e : elem) (d : Dom) : Dom :=
  withTree d (flat_map (removeNode e) (tree d)).

(** [node.normalize()]: below the node no text node is empty and no two
    text nodes are adjacent. *)
Fixpoint mergeText (ns : list node) : list node :=
  match ns with
  | [] => []
  | Text s :: rest =>
      if decide (s = "") then mergeText rest
      else match mergeText rest with
           | Text s' :: rest' => Text (s +:+ s') :: rest'
           | rest' => Text s :: rest'
           end
  | n :: rest => n :: mergeText rest
  end.

Fixpoint normalizeNode (n : node) : node :=
  match n with
  | Text s => Text s
  | Elem e ks => Elem e (mergeText (map normalizeNode ks))
  end.

Definition normalizeKids (ks : list node) : list node :=
  mergeText (map normalizeNode ks).

(** A handle that no element of the document uses: what
    [document.createElement] hands out. *)
Definition freshElem (d : Dom) : elem :=
  S (foldr Nat.max 0%nat (map fst (map_to_list (store d)) ++ treeElems (tree d))).

(** [document.createElement(tag)] (tag names are kept in upper case, as
    [el.tagName] reports them). *)
Definition createElement (tag : string) (d : Dom) : elem * Dom :=
  let e := freshElem d in
  (e, withStore d (<[e := mkElemData tag ∅ ∅ ∅]> (store d))).

(** *** Selectors *)

Inductive selector : Type :=
| SelAttr (name value : string)              (* [name="value"] *)
| SelClass (c : string)                        (* .c *)
| SelTagClass (tag c : string)                 (* tag.c *)
| SelTagAttr (tag name value : string)         (* tag[name="value"] *)
| SelOr (a b : selector).                      (* a, b *)

Fixpoint selMatches (d : Dom) (sel : selector) (e : elem) : bool :=
  match sel with
  | SelAttr n v => bool_decide (getAttribute d e n = Some v)
  | SelClass c => classContains d e c
  | SelTagClass t c => bool_decide (tagName (getEl d e) = t) && classContains d e c
  | SelTagAttr t n v =>
      bool_decide (tagName (getEl d e) = t) && bool_decide (getAttribute d e n = Some v)
  | SelOr a b => selMatches d a e || selMatches d b e
  end.

(** [document.querySelectorAll(sel)] *)
Definition querySelectorAll (d : Dom) (sel : selector) : list elem :=
  filter (fun e => selMatches d sel e = true) (treeElems (tree d)).

(** [root.querySelectorAll(sel)] *)
Definition querySelectorAllIn (d : Dom) (root : elem) (sel : selector) : list elem :=
  filter (fun e => selMatches d sel e = true) (descendants root (tree d)).

Definition querySelector (d : Dom) (sel : selector) : option elem :=
  head (querySelectorAll d sel).

Definition querySelectorIn (d : Dom) (root : elem) (sel : selector) : option elem :=
  head (querySelectorAllIn d root sel).

(** [document.getElementById(id)] *)
Definition getElementById (d : Dom) (id : string) : option elem :=
  head (filter (fun e => getAttribute d e "id" = Some id) (treeElems (tree d))).

(* ===================================================================== *)
(** ** [src/faq/types.ts] *)
(* ===================================================================== *)

(** [FaqItemElements].  The records are compared by reference in the code
    ([sibling !== item], [items.includes(item)]); [oid] is that identity:
    the serial number of the [parseItem] call that built the record. *)
Record FaqItemElements := mkItem {
  oid : nat;
  item : elem;
  trigger : option elem;
  title : option elem;
  content : option elem;
  iconOpen : option elem;
  iconClose : option elem
}.

Record FaqGroupConfig := mkGroupConfig {
  accordion : bool;
  defaultOpen : option Z;
  groupCollapseDuration : Z
}.

Record FaqGroup := mkGroup {
  groupEl : elem;
  items : list FaqItemElements;
  config : FaqGroupConfig
}.

Record FaqClasses := mkClasses {
  activeClass : string;
  highlightClass : string;
  currentHighlightClass : string
}.

Record FaqTiming := mkTiming {
  collapseDuration : Z;
  iconTransitionDuration : Z;
  searchDebounce : Z
}.

Record FaqColors := mkColors {
  highlightBackground : string;
  currentHighlightBackground : string
}.

Record FaqConfig := mkConfig {
  classes : FaqClasses;
  timing : FaqTiming;
  colors : FaqColors;
  floatingSearch : bool
}.

Record SearchState := mkSearchState {
  marks : list elem;
  currentIndex : Z;
  searchOpenedItems : gset elem
}.

(** The [source] argument of [setItemState]: ['user' | 'search']. *)
Inductive source : Type := User | Search.

#[global] Instance source_eq_dec : EqDecision source.
Proof. solve_decision. Defined.
#[global] Instance item_eq_dec : EqDecision FaqItemElements.
Proof. solve_decision. Defined.
#[global] Instance group_config_eq_dec : EqDecision FaqGroupConfig.
Proof. solve_decision. Defined.
#[global] Instance group_eq_dec : EqDecision FaqGroup.
Proof. solve_decision. Defined.

(* ===================================================================== *)
(** ** [src/faq/config.ts] *)
(* ===================================================================== *)

Module ATTR.
Definition element : string := "cur-faq-element".
Definition activeClass : string := "cur-faq-activeclass".
Definition highlightClass : string := "cur-faq-highlightclass".
Definition currentHighlightClass : string := "cur-faq-currenthighlightclass".
Definition floatingSearch : string := "cur-faq-floatingsearch".
Definition collapseDuration : string := "cur-faq-collapse-duration".
Definition searchDebounce : string := "cur-faq-search-debounce".
Definition accordion : string := "cur-faq-accordion".
Definition defaultOpen : string := "cur-faq-default-open".
Definition dataOpen : string := "data-faq-open".
Definition dataOpenedBySearch : string := "data-opened-by-search".
End ATTR.

Module ROLES.
Definition group : string := "group".
Definition item : string := "item".
Definition trigger : string := "trigger".
Definition title : string := "title".
Definition content : string := "content".
Definition iconOpen : string := "icon-open".
Definition iconClose : string := "icon-close".
Definition search : string := "search".
Definition emptyState : string := "empty-state".
End ROLES.

Module CSS_VARS.
Definition highlightBg : string := "--cur-faq-highlight-bg".
Definition currentHighlightBg : string := "--cur-faq-current-highlight-bg".
Definition collapseDuration : string := "--cur-faq-collapse-duration".
Definition iconDuration : string := "--cur-faq-icon-duration".
End CSS_VARS.

Definition DEFAULTS : FaqConfig :=
  mkConfig (mkClasses "is-active" "faq-search-highlight" "faq-search-current")
           (mkTiming 250 150 300)
           (mkColors "#eef" "#5c6ac4")
           false.

Definition GROUP_DEFAULTS : FaqGroupConfig :=
  mkGroupConfig false None (collapseDuration (timing DEFAULTS)).

(** [[cur-faq-element="role"]] *)
Definition roleSel (role : string) : selector := SelAttr ATTR.element role.

(** [readAttr]: [null] for a missing element, a missing attribute or a
    value that is empty once trimmed; the trimmed value otherwise. *)
Definition readAttr (d : Dom) (el : option elem) (attr : string) : option string :=
  match el with
  | None => None
  | Some e =>
      match getAttribute d e attr with
      | Some val =>
          if decide (val = "") then None
          else if decide (Js.trim val = "") then None
          else Some (Js.trim val)
      | None => None
      end
  end.

Definition digitVal (c : ascii) : option Z :=
  let n := nat_of_ascii c in
  if (Nat.leb 48 n && Nat.leb n 57)%bool then Some (Z.of_nat n - 48) else None.

Fixpoint parseDigits (s : string) (acc : option Z) : option Z :=
  match s with
  | EmptyString => acc
  | String c r =>
      match digitVal c with
      | Some v => parseDigits r (Some (10 * default 0 acc + v))
      | None => acc
      end
  end.

(** [parseInt(s, 10)]: leading white space, an optional sign, then the
    longest run of decimal digits; [None] is [NaN]. *)
Definition parseInt10 (s : string) : option Z :=
  match Js.trimStart s with
  | String "-"%char r => Z.opp <$> parseDigits r None
  | String "+"%char r => parseDigits r None
  | s' => parseDigits s' None
  end.

Definition readIntAttr (d : Dom) (el : option elem) (attr : string) : option Z :=
  match readAttr d el attr with
  | None => None
  | Some val => parseInt10 val
  end.

Definition readBoolAttr (d : Dom) (el : option elem) (attr : string) : option bool :=
  match readAttr d el attr with
  | None => None
  | Some val => Some (bool_decide (val = "true"))
  end.

Definition resolveConfig (d : Dom) : FaqConfig :=
  let searchEl := querySelector d (roleSel ROLES.search) in
  mkConfig
    (mkClasses
       (default (activeClass (classes DEFAULTS)) (readAttr d searchEl ATTR.activeClass))
       (default (highlightClass (classes DEFAULTS)) (readAttr d searchEl ATTR.highlightClass))
       (default (currentHighlightClass (classes DEFAULTS))
                (readAttr d searchEl ATTR.currentHighlightClass)))
    (mkTiming
       (collapseDuration (timing DEFAULTS))
       (iconTransitionDuration (timing DEFAULTS))
       (default (searchDebounce (timing DEFAULTS)) (readIntAttr d searchEl ATTR.searchDebounce)))
    (mkColors
       (highlightBackground (colors DEFAULTS))
       (currentHighlightBackground (colors DEFAULTS)))
    (default (floatingSearch DEFAULTS) (readBoolAttr d searchEl ATTR.floatingSearch)).

Definition resolveGroupConfig (d : Dom) (groupEl : option elem) : FaqGroupConfig :=
  mkGroupConfig
    (default (accordion GROUP_DEFAULTS) (readBoolAttr d groupEl ATTR.accordion))
    (match readIntAttr d groupEl ATTR.defaultOpen with
     | Some n => Some n
     | None => defaultOpen GROUP_DEFAULTS
     end)
    (default (groupCollapseDuration GROUP_DEFAULTS)
             (readIntAttr d groupEl ATTR.collapseDuration)).

(* ===================================================================== *)
(** ** The page: document, window globals and the module's own state *)
(* ===================================================================== *)

(** [detail] of the custom events. *)
Inductive detail : Type :=
| DetailItem (it : elem)
| DetailSearch (query : string) (matchCount : Z).

Record event := mkEvent {
  evTarget : elem;
  evName : string;
  evDetail : detail;
  evBubbles : bool
}.

(** The closures the module registers as event listeners. *)
Inductive handler : Type :=
| HandleToggle (it : FaqItemElements) (g : FaqGroup)
| HandleKeydown (it : FaqItemElements) (g : FaqGroup)
| SearchKeydown (input : elem)
| DebouncedSearch (input : elem) (isMainInput : bool)
| HandlePrev
| HandleNext
| ExpandEnd (el : elem) (stamp : Z)
| CollapseEnd (el : elem) (stamp : Z).

Record listener := mkListener {
  lsTarget : elem;
  lsType : string;
  lsHandler : handler
}.

#[global] Instance handler_eq_dec : EqDecision handler.
Proof. solve_decision. Defined.
#[global] Instance listener_eq_dec : EqDecision listener.
Proof. solve_decision. Defined.

(** What the closure of [initFaq] captures and [window.__curFaq] exposes. *)
Record FaqInstance := mkInstance {
  instItems : list FaqItemElements;
  instConfig : FaqConfig;
  instGroups : list FaqGroup;
  styleEl : elem;
  counterEl : option elem;
  accordionListeners : list listener;
  searchCleanups : list listener;
  floatingListeners : list listener;
  floatingPanel : option elem
}.

Record World := mkWorld {
  dom : Dom;
  winInitialized : bool;                 (* window.__curFaqInitialized *)
  winCurFaq : option FaqInstance;        (* window.__curFaq *)
  searchState : SearchState;
  animationTimestamps : gmap elem Z;
  listeners : list listener;
  dispatched : list event;               (* oldest first *)
  scrolledTo : list elem;                (* smoothScrollTo calls *)
  now : Z;                               (* Date.now() *)
  draws : nat                            (* Math.random() calls so far *)
}.

Definition onDom (f : Dom -> Dom) (w : World) : World :=
  mkWorld (f (dom w)) (winInitialized w) (winCurFaq w) (searchState w)
          (animationTimestamps w) (listeners w) (dispatched w) (scrolledTo w)
          (now w) (draws w).

Definition setWindow (flag : bool) (inst : option FaqInstance) (w : World) : World :=
  mkWorld (dom w) flag inst (searchState w)
          (animationTimestamps w) (listeners w) (dispatched w) (scrolledTo w)
          (now w) (draws w).

Definition setSearchState (ss : SearchState) (w : World) : World :=
  mkWorld (dom w) (winInitialized w) (winCurFaq w) ss
          (animationTimestamps w) (listeners w) (dispatched w) (scrolledTo w)
          (now w) (draws w).

Definition stampAnimation (el : elem) (stamp : Z) (w : World) : World :=
  mkWorld (dom w) (winInitialized w) (winCurFaq w) (searchState w)
          (<[el := stamp]> (animationTimestamps w)) (listeners w) (dispatched w)
          (scrolledTo w) (now w) (draws w).

Definition setListeners (ls : list listener) (w : World) : World :=
  mkWorld (dom w) (winInitialized w) (winCurFaq w) (searchState w)
          (animationTimestamps w) ls (dispatched w) (scrolledTo w)
          (now w) (draws w).

Definition addEventListener (l : listener) (w : World) : World :=
  setListeners (listeners w ++ [l]) w.

Fixpoint removeFirst (l : listener) (ls : list listener) : list listener :=
  match ls with
  | [] => []
  | x :: r => if decide (x = l) then r else x :: removeFirst l r
  end.

Definition removeEventListener (l : listener) (w : World) : World :=
  setListeners (removeFirst l (listeners w)) w.

Definition dispatchEvent (ev : event) (w : World) : World :=
  mkWorld (dom w) (winInitialized w) (winCurFaq w) (searchState w)
          (animationTimestamps w) (listeners w) (dispatched w ++ [ev])
          (scrolledTo w) (now w) (draws w).

Definition smoothScrollTo (el : elem) (w : World) : World :=
  mkWorld (dom w) (winInitialized w) (winCurFaq w) (searchState w)
          (animationTimestamps w) (listeners w) (dispatched w)
          (scrolledTo w ++ [el]) (now w) (draws w).

Definition drawRandom (w : World) : World :=
  mkWorld (dom w) (winInitialized w) (winCurFaq w) (searchState w)
          (animationTimestamps w) (listeners w) (dispatched w)
          (scrolledTo w) (now w) (S (draws w)).

(** What the code asks of the browser: computed style and geometry of an
    element in the current document, and the random part of a generated
    id.  The numbers are CSS pixels; only their sign is ever tested. *)
Record Env := mkEnv {
  computedDisplay : Dom -> elem -> string;
  computedVisibility : Dom -> elem -> string;
  rectWidth : Dom -> elem -> Z;
  rectHeight : Dom -> elem -> Z;
  scrollHeight : Dom -> elem -> Z;
  randomTail : nat -> string   (* Math.random().toString(36).slice(2, 10) *)
}.

(* ===================================================================== *)
(** ** [src/faq/index.ts] *)
(* ===================================================================== *)

Section Faq.

Variable env : Env.

(** [ensureId] of [helpers.ts]. *)
Definition ensureId (el : elem) (prefix : string) (w : World) : string * World :=
  match getAttribute (dom w) el "id" with
  | Some i =>
      if decide (i = "") then
        let id := prefix +:+ "-" +:+ randomTail env (draws w) in
        (id, onDom (setAttribute el "id" id) (drawRandom w))
      else (i, w)
  | None =>
      let id := prefix +:+ "-" +:+ randomTail env (draws w) in
      (id, onDom (setAttribute el "id" id) (drawRandom w))
  end.

(** *** DOM parsing *)

Definition parseItem (d : Dom) (o : nat) (it : elem) : FaqItemElements :=
  mkItem o it
    (querySelectorIn d it (roleSel ROLES.trigger))
    (querySelectorIn d it (roleSel ROLES.title))
    (querySelectorIn d it (roleSel ROLES.content))
    (querySelectorIn d it (roleSel ROLES.iconOpen))
    (querySelectorIn d it (roleSel ROLES.iconClose)).

(** [els.map(parseItem)], the records numbered from [o] on. *)
Fixpoint parseItems (d : Dom) (o : nat) (els : list elem) : list FaqItemElements :=
  match els with
  | [] => []
  | e :: r => parseItem d o e :: parseItems d (S o) r
  end.

Fixpoint parseGroupEls (d : Dom) (o : nat) (groupEls : list elem) : list FaqGroup :=
  match groupEls with
  | [] => []
  | g :: r =>
      let els := querySelectorAllIn d g (roleSel ROLES.item) in
      mkGroup g (parseItems d o els) (resolveGroupConfig d (Some g))
        :: parseGroupEls d (o + length els)%nat r
  end.

Definition allItemsOf (groups : list FaqGroup) : list FaqItemElements :=
  flat_map items groups.

Definition parseFaqGroups (d : Dom) : list FaqGroup :=
  let groupEls := querySelectorAll d (roleSel ROLES.group) in
  let groups := parseGroupEls d 0 groupEls in
  let groupedItems := map item (allItemsOf groups) in
  let orphans :=
    parseItems d (length groupedItems)
      (filter (fun el => el ∉ groupedItems) (querySelectorAll d (roleSel ROLES.item))) in
  match orphans with
  | [] => groups
  | _ => groups ++ [mkGroup (docBody d) orphans (resolveGroupConfig d None)]
  end.

(** *** Search helpers *)

Definition elementContainsText (d : Dom) (el : option elem) (query : string) : bool :=
  match el with
  | Some e => Js.includes (normalizeText (textContent d e)) query
  | None => false
  end.

Definition itemMatchesQuery (d : Dom) (it : FaqItemElements) (query : string) : bool :=
  elementContainsText d (title it) query || elementContainsText d (content it) query.

(** *** Visibility helpers *)

Definition isElementVisible (d : Dom) (el : elem) : bool :=
  if bool_decide (computedDisplay env d el = "none")
     || bool_decide (computedVisibility env d el = "hidden")
  then false
  else (0 <? rectWidth env d el) && (0 <? rectHeight env d el).

Definition isItemOpen (d : Dom) (it : FaqItemElements) : bool :=
  if bool_decide (getAttribute d (item it) ATTR.dataOpen = Some "true")
     || bool_decide (trigger it ≫= (fun t => getAttribute d t "aria-expanded") = Some "true")
  then true
  else match content it with
       | Some c => isElementVisible d c && negb (hasAttribute d c "hidden")
       | None => false
       end.

(** *** Accessibility *)

Definition setupAria (it : FaqItemElements) (w : World) : World :=
  match trigger it, content it with
  | Some t, Some c =>
      let '(contentId, w) := ensureId c "cur-faq" w in
      let w := onDom (setAttribute t "aria-controls" contentId) w in
      if bool_decide (tagName (getEl (dom w) t) = "BUTTON") then w
      else
        let w := onDom (setAttribute t "role" "button") w in
        if hasAttribute (dom w) t "tabindex" then w
        else onDom (setAttribute t "tabindex" "0") w
  | _, _ => w
  end.

(** *** Icon visibility *)

Definition setIconVisibility (icon : option elem) (visible : bool) (d : Dom) : Dom :=
  match icon with
  | None => d
  | Some i =>
      classToggle i "cur-faq-icon-hidden" (negb visible)
        (classToggle i "cur-faq-icon-visible" visible d)
  end.

(** *** Collapse / expand animation *)

Definition px (n : Z) : string := pretty n +:+ "px".
Arguments px : simpl never.

Definition expandElement (el : elem) (w : World) : World :=
  let stamp := now w in
  let w := stampAnimation el stamp w in
  let w := onDom (removeAttribute el "hidden") w in
  let w := onDom (setStyle el "height" "0px") w in
  let target := scrollHeight env (dom w) el in
  let w := onDom (setStyle el "height" (px target)) w in
  addEventListener (mkListener el "transitionend" (ExpandEnd el stamp)) w.

Definition collapseElement (el : elem) (w : World) : World :=
  let stamp := now w in
  let w := stampAnimation el stamp w in
  if hasAttribute (dom w) el "hidden" then onDom (setStyle el "height" "") w
  else
    let current := scrollHeight env (dom w) el in
    let w := onDom (setStyle el "height" (px current)) w in
    let w := onDom (setStyle el "height" "0px") w in
    addEventListener (mkListener el "transitionend" (CollapseEnd el stamp)) w.

(** The [onEnd] closures, run when a [transitionend] event of the given
    property reaches the element. *)
Definition onTransitionEnd (h : handler) (propertyName : string) (w : World) : World :=
  match h with
  | ExpandEnd el stamp =>
      if bool_decide (propertyName = "height")
         && bool_decide (animationTimestamps w !! el = Some stamp)
      then onDom (setStyle el "height" "auto")
             (removeEventListener (mkListener el "transitionend" h) w)
      else w
  | CollapseEnd el stamp =>
      if bool_decide (propertyName = "height")
         && bool_decide (animationTimestamps w !! el = Some stamp)
      then onDom (setStyle el "height" "")
             (onDom (setAttribute el "hidden" "")
                (removeEventListener (mkListener el "transitionend" h) w))
      else w
  | _ => w
  end.

(** *** Core toggle *)

Definition boolString (b : bool) : string := if b then "true" else "false".

Definition searchOpenedAdd (e : elem) (w : World) : World :=
  let ss := searchState w in
  setSearchState (mkSearchState (marks ss) (currentIndex ss)
                                ({[e]} ∪ searchOpenedItems ss)) w.

Definition searchOpenedDelete (e : elem) (w : World) : World :=
  let ss := searchState w in
  setSearchState (mkSearchState (marks ss) (currentIndex ss)
                                (searchOpenedItems ss ∖ {[e]})) w.

(** What [setItemState] does to the item itself once the siblings are
    dealt with: ARIA, marker, active class, icons, animation, provenance and
    the custom event. *)
Definition applyItemState (it : FaqItemElements) (c t : elem) (open : bool)
    (src : source) (cfg : FaqConfig) (w : World) : World :=
  let w := onDom (setAttribute t "aria-expanded" (boolString open)) w in
  let w := onDom (setAttribute (item it) ATTR.dataOpen (boolString open)) w in
  let w := onDom (classToggle (item it) (activeClass (classes cfg)) open) w in
  let w := onDom (setIconVisibility (iconOpen it) open) w in
  let w := onDom (setIconVisibility (iconClose it) (negb open)) w in
  let w :=
    if open then
      let w := expandElement c w in
      match src with
      | Search =>
          searchOpenedAdd (item it)
            (onDom (setAttribute (item it) ATTR.dataOpenedBySearch "true") w)
      | User =>
          searchOpenedDelete (item it)
            (onDom (removeAttribute (item it) ATTR.dataOpenedBySearch) w)
      end
    else
      let w := collapseElement c w in
      match src with
      | Search =>
          searchOpenedDelete (item it)
            (onDom (removeAttribute (item it) ATTR.dataOpenedBySearch) w)
      | User => w
      end in
  (* Dispatch custom event *)
  let eventName := if open then "cur-faq:open" else "cur-faq:close" in
  dispatchEvent (mkEvent (item it) eventName (DetailItem (item it)) true) w.

(** "Accordion mode: close siblings before opening": the [forEach] over the
    items of the group. *)
Definition closeSiblings
    (recur : FaqItemElements -> bool -> source -> FaqConfig -> World -> World)
    (it : FaqItemElements) (src : source) (cfg : FaqConfig) (w : World)
    (sibling : FaqItemElements) : World :=
  if negb (bool_decide (oid sibling = oid it)) && isItemOpen (dom w) sibling
  then recur sibling false src cfg w
  else w.

(** The body of [setItemState]; [recur] stands for the function itself at
    the recursive call, which passes no group. *)
Definition setItemStateWith
    (recur : FaqItemElements -> bool -> source -> FaqConfig -> World -> World)
    (it : FaqItemElements) (open : bool) (src : source) (cfg : FaqConfig)
    (group : option FaqGroup) (w : World) : World :=
  match content it, trigger it with
  | Some c, Some t =>
      let w :=
        match group with
        | Some g =>
            if open && accordion (config g)
            then foldl (closeSiblings recur it src cfg) w (items g)
            else w
        | None => w
        end in
      applyItemState it c t open src cfg w
  | _, _ => w
  end.

(** A call without group never reaches the recursive call. *)
Definition setItemStateNoGroup
    (it : FaqItemElements) (open : bool) (src : source) (cfg : FaqConfig)
    (w : World) : World :=
  setItemStateWith (fun _ _ _ _ w => w) it open src cfg None w.

Definition setItemState
    (it : FaqItemElements) (open : bool) (src : source) (cfg : FaqConfig)
    (group : option FaqGroup) (w : World) : World :=
  setItemStateWith setItemStateNoGroup it open src cfg group w.

(** [findGroup] of [initFaq]: the first group whose item array holds this
    very record. *)
Definition findGroup (groups : list FaqGroup) (it : FaqItemElements) : option FaqGroup :=
  find (fun g => existsb (fun i => bool_decide (oid i = oid it)) (items g)) groups.

(** *** Accordion: event binding *)

Definition toggleListeners (it : FaqItemElements) (g : FaqGroup) (t : elem) : list listener :=
  [mkListener t "click" (HandleToggle it g); mkListener t "keydown" (HandleKeydown it g)].

(** The body of the inner [forEach] of [bindAccordionListeners]; the
    accumulator holds the listeners that the cleanup function removes. *)
Definition bindItem (g : FaqGroup) (acc : list listener * World)
    (faqItem : FaqItemElements) : list listener * World :=
  match trigger faqItem with
  | None => acc
  | Some t =>
      let w := setupAria faqItem acc.2 in
      let ls := toggleListeners faqItem g t in
      (acc.1 ++ ls, foldl (fun w l => addEventListener l w) w ls)
  end.

Definition bindAccordionListeners (groups : list FaqGroup) (w : World)
  : list listener * World :=
  foldl (fun acc g => foldl (bindItem g) acc (items g)) ([], w) groups.

(** [handleToggle] *)
Definition handleToggle (it : FaqItemElements) (g : FaqGroup) (cfg : FaqConfig)
    (w : World) : World :=
  let shouldOpen := negb (isItemOpen (dom w) it) in
  setItemState it shouldOpen User cfg (Some g) w.

(** *** Style injection *)

Definition STYLE_ID : string := "cur-faq-styles".

Definition nl : string := String (ascii_of_nat 10) EmptyString.
Definition dq : string := String (ascii_of_nat 34) EmptyString.

Definition ms (n : Z) : string := pretty n +:+ "ms".
Arguments ms : simpl never.

Definition styleRules (cfg : FaqConfig) : list string :=
  [ String.concat nl
      [ ":root {";
        "  " +:+ CSS_VARS.highlightBg +:+ ": " +:+ highlightBackground (colors cfg) +:+ ";";
        "  " +:+ CSS_VARS.currentHighlightBg +:+ ": "
             +:+ currentHighlightBackground (colors cfg) +:+ ";";
        "  " +:+ CSS_VARS.collapseDuration +:+ ": " +:+ ms (collapseDuration (timing cfg)) +:+ ";";
        "  " +:+ CSS_VARS.iconDuration +:+ ": " +:+ ms (iconTransitionDuration (timing cfg)) +:+ ";";
        "}" ];
    String.concat nl
      [ "[" +:+ ATTR.element +:+ "=" +:+ dq +:+ ROLES.content +:+ dq +:+ "] {";
        "  overflow: hidden;";
        "  transition: height var(" +:+ CSS_VARS.collapseDuration +:+ ") ease;";
        "  will-change: height;";
        "}" ];
    String.concat nl
      [ ".cur-faq-icon-visible {";
        "  opacity: 1;";
        "  transition: opacity var(" +:+ CSS_VARS.iconDuration +:+ ") ease;";
        "}" ];
    String.concat nl
      [ ".cur-faq-icon-hidden {";
        "  opacity: 0;";
        "  transition: opacity var(" +:+ CSS_VARS.iconDuration +:+ ") ease;";
        "  pointer-events: none;";
        "}" ];
    String.concat nl
      [ "." +:+ highlightClass (classes cfg) +:+ " {";
        "  background: var(" +:+ CSS_VARS.highlightBg +:+ ");";
        "}" ];
    String.concat nl
      [ "." +:+ currentHighlightClass (classes cfg) +:+ " {";
        "  background: var(" +:+ CSS_VARS.currentHighlightBg +:+ ");";
        "}" ] ]
  ++
  (if floatingSearch cfg then
     [ String.concat nl
         [ "#cur-faq-floating-search {"; "  position: fixed;"; "  right: 16px;";
           "  bottom: 16px;"; "  z-index: 2147483647;"; "  display: flex;";
           "  align-items: center;"; "  gap: 6px;"; "  background: #461276;";
           "  color: white;"; "  border: 1px solid rgba(0,0,0,.1);";
           "  box-shadow: 0 4px 12px rgba(0,0,0,.12);"; "  border-radius: 8px;";
           "  padding: 6px 8px;"; "  font-family: inherit;"; "}" ];
       String.concat nl
         [ "#cur-faq-floating-search button {"; "  border: 0;";
           "  background: transparent;"; "  cursor: pointer;"; "  padding: 4px 6px;";
           "  border-radius: 6px;"; "}" ];
       String.concat nl
         [ "#cur-faq-floating-search button:hover {";
           "  background: rgba(0,0,0,.06);"; "}" ];
       String.concat nl
         [ "#cur-faq-floating-search input {"; "  width: 180px;"; "  padding: 4px 6px;";
           "  border: 1px solid rgba(0,0,0,.15);"; "  border-radius: 6px;";
           "  color: black;"; "}" ];
       String.concat nl
         [ "#cur-faq-floating-search .counter {"; "  min-width: 56px;";
           "  text-align: right;"; "  font-variant-numeric: tabular-nums;"; "}" ] ]
   else []).

Definition injectStyles (cfg : FaqConfig) (d : Dom) : elem * Dom :=
  let d :=
    match getElementById d STYLE_ID with
    | Some existing => removeElem existing d
    | None => d
    end in
  let '(style, d) := createElement "STYLE" d in
  let d := setAttribute style "id" STYLE_ID d in
  (style, appendChild (docHead d) (Elem style [Text (String.concat nl (styleRules cfg))]) d).

(** *** Search: counter *)

Definition updateMatchCounter (counterEl : option elem) (ss : SearchState) (d : Dom) : Dom :=
  match counterEl with
  | None => d
  | Some c =>
      let total := Z.of_nat (length (marks ss)) in
      let current :=
        if (total =? 0) || (currentIndex ss =? -1) then 0 else currentIndex ss + 1 in
      setTextContent c (pretty current +:+ "/" +:+ pretty total) d
  end.

(** *** Search: navigation *)

Definition setCurrentIndex (i : Z) (w : World) : World :=
  let ss := searchState w in
  setSearchState (mkSearchState (marks ss) i (searchOpenedItems ss)) w.

Definition setMarks (ms : list elem) (w : World) : World :=
  let ss := searchState w in
  setSearchState (mkSearchState ms (currentIndex ss) (searchOpenedItems ss)) w.

(** [document.querySelectorAll(`.${cls}`).forEach(el => el.classList.remove(cls))] *)
Definition removeClassEverywhere (cls : string) (d : Dom) : Dom :=
  foldl (fun d el => classRemove el cls d) d (querySelectorAll d (SelClass cls)).

Definition navigateToMatch (index : Z) (cfg : FaqConfig) (counterEl : option elem)
    (w : World) : World :=
  match marks (searchState w) with
  | [] =>
      let w := setCurrentIndex (-1) w in
      onDom (updateMatchCounter counterEl (searchState w)) w
  | _ =>
      let len := Z.of_nat (length (marks (searchState w))) in
      let w := setCurrentIndex (Z.rem (Z.rem index len + len) len) w in
      let cur := currentHighlightClass (classes cfg) in
      let w := onDom (removeClassEverywhere cur) w in
      match marks (searchState w) !! Z.to_nat (currentIndex (searchState w)) with
      | Some target =>
          let w := onDom (classAdd target cur) w in
          let w := smoothScrollTo target w in
          onDom (updateMatchCounter counterEl (searchState w)) w
      | None => w   (* the index is within the array: not reached *)
      end
  end.

Definition advanceMatch (delta : Z) (cfg : FaqConfig) (counterEl : option elem)
    (w : World) : World :=
  match marks (searchState w) with
  | [] => w
  | _ =>
      let base :=
        if currentIndex (searchState w) =? -1 then 0 else currentIndex (searchState w) in
      navigateToMatch (base + delta) cfg counterEl w
  end.

(** *** Search: empty state *)

Definition updateEmptyState (hasMatches : bool) (d : Dom) : Dom :=
  match querySelector d (roleSel ROLES.emptyState) with
  | None => d
  | Some emptyStateEl =>
      setStyle emptyStateEl "display" (if hasMatches then "none" else "") d
  end.

(** *** Highlighting *)

(** [parent.replaceChild(createTextNode(mark.textContent), mark);
    parent.normalize()] for the mark with handle [m], wherever it hangs. *)
Fixpoint clearMarkNode (m : elem) (n : node) : node :=
  match n with
  | Text s => Text s
  | Elem e ks =>
      let ks' := map (fun k => if isElem m k then Text (nodeText k)
                               else clearMarkNode m k) ks in
      Elem e (if existsb (isElem m) ks then normalizeKids ks' else ks')
  end.

Definition clearMark (m : elem) (ks : list node) : list node :=
  let ks' := map (fun k => if isElem m k then Text (nodeText k)
                           else clearMarkNode m k) ks in
  if existsb (isElem m) ks then normalizeKids ks' else ks'.

Definition markSel (highlightClass : string) : selector :=
  SelTagClass "MARK" highlightClass.

Definition clearHighlights (root : elem) (highlightClass : string) (d : Dom) : Dom :=
  foldl (fun d mark => withTree d (clearMark mark (tree d))) d
        (querySelectorAllIn d root (markSel highlightClass)).

(** One piece of a split text node. *)
Inductive run : Type :=
| Plain (s : string)
| Marked (s : string).

(** The [for (;;)] loop of [highlightText]; [None] when the fuel runs out
    before the loop breaks. *)
Fixpoint splitLoop (fuel : nat) (original lower normalised : string) (pos : Z)
  : option (list run) :=
  match fuel with
  | O => None
  | S fuel' =>
      let idx := Js.indexOf lower normalised pos in
      if idx =? -1 then Some [Plain (Js.sliceFrom original pos)]
      else
        let pre := if pos <? idx then [Plain (Js.slice original pos idx)] else [] in
        let mark := Marked (Js.slice original idx (idx + Js.len normalised)) in
        rest ← splitLoop fuel' original lower normalised (idx + Js.len normalised);
        Some (pre ++ mark :: rest)
  end.

(** The runs of one accepted text node.  The loop runs at most once per
    character of the normalised text and once more, unless it never ends. *)
Definition splitText (original normalised : string) : option (list run) :=
  let lower := normalizeText original in
  splitLoop (S (String.length lower)) original lower normalised 0.

(** The fragment built from the runs; the marks take the handles from
    [next] on. *)
Fixpoint fragmentOf (rs : list run) (next : elem) : list node * elem :=
  match rs with
  | [] => ([], next)
  | Plain s :: r =>
      let '(ns, nx) := fragmentOf r next in (Text s :: ns, nx)
  | Marked s :: r =>
      let '(ns, nx) := fragmentOf r (S next) in
      (Elem next (if decide (s = "") then [] else [Text s]) :: ns, nx)
  end.

(** Walk a list of nodes from left to right, handing the next free handle
    on. *)
Definition walkNodes (f : node -> elem -> option (list node * elem))
  : list node -> elem -> option (list node * elem) :=
  fix go (l : list node) (nx : elem) : option (list node * elem) :=
    match l with
    | [] => Some ([], nx)
    | k :: l' =>
        a ← f k nx;
        b ← go l' a.2;
        Some (a.1 ++ b.1, b.2)
    end.

Definition walkForest (f : node -> elem -> option (node * elem))
  : list node -> elem -> option (list node * elem) :=
  fix go (l : list node) (nx : elem) : option (list node * elem) :=
    match l with
    | [] => Some ([], nx)
    | k :: l' =>
        a ← f k nx;
        b ← go l' a.2;
        Some (a.1 :: b.1, b.2)
    end.

(** The tree walk: every text node under the root that the filter accepts
    is replaced by its fragment. *)
Fixpoint hlNode (normalised : string) (n : node) (next : elem)
  : option (list node * elem) :=
  match n with
  | Text s =>
      if Js.includes (normalizeText s) normalised then
        rs ← splitText s normalised; Some (fragmentOf rs next)
      else Some ([Text s], next)
  | Elem e ks =>
      r ← walkNodes (hlNode normalised) ks next;
      Some ([Elem e r.1], r.2)
  end.

Definition hlNodes (normalised : string) : list node -> elem -> option (list node * elem) :=
  walkNodes (hlNode normalised).

(** Apply the walk below the node with handle [root]. *)
Fixpoint hlAt (root : elem) (normalised : string) (n : node) (next : elem)
  : option (node * elem) :=
  match n with
  | Text s => Some (Text s, next)
  | Elem e ks =>
      if decide (e = root) then
        r ← hlNodes normalised ks next; Some (Elem e r.1, r.2)
      else
        r ← walkForest (hlAt root normalised) ks next;
        Some (Elem e r.1, r.2)
  end.

Definition hlForest (root : elem) (normalised : string)
  : list node -> elem -> option (list node * elem) :=
  walkForest (hlAt root normalised).

(** The [mark] elements created with handles [from], ..., [from + n - 1]:
    tag [mark], class [highlightClass]. *)
Fixpoint registerMarks (highlightClass : string) (from : elem) (n : nat)
    (st : gmap elem ElemData) : gmap elem ElemData :=
  match n with
  | O => st
  | S n' =>
      registerMarks highlightClass (S from) n'
        (<[from := mkElemData "MARK" ∅ {[highlightClass]} ∅]> st)
  end.

(** [highlightText]; [None] when the call does not return. *)
Definition highlightText (root : elem) (query highlightClass : string) (d : Dom)
  : option Dom :=
  if decide (query = "") then Some d
  else
    let normalised := normalizeText query in
    let first := freshElem d in
    r ← hlForest root normalised (tree d) first;
    Some (mkDom r.1 (registerMarks highlightClass first (r.2 - first) (store d))
                (docHead d) (docBody d)).

(** *** Search: core *)

Definition clearAllHighlights (allItems : list FaqItemElements) (cfg : FaqConfig)
    (w : World) : World :=
  let w :=
    onDom (fun d => foldl (fun d it => clearHighlights (item it) (highlightClass (classes cfg)) d)
                          d allItems) w in
  let w := onDom (removeClassEverywhere (currentHighlightClass (classes cfg))) w in
  let w := setMarks [] w in
  setCurrentIndex (-1) w.

(** The first loop of [performSearch]: items opened by search that no
    longer match. *)
Definition closeStale (normalised : string) (cfg : FaqConfig) (w : World)
    (faqItem : FaqItemElements) : World :=
  if bool_decide (item faqItem ∈ searchOpenedItems (searchState w))
     && negb (itemMatchesQuery (dom w) faqItem normalised)
     && isItemOpen (dom w) faqItem
  then setItemState faqItem false Search cfg None w
  else w.

(** The second loop: highlight and open the matching items. *)
Definition openMatching (normalised : string) (cfg : FaqConfig) (ow : option World)
    (faqItem : FaqItemElements) : option World :=
  w ← ow;
  let titleMatch := elementContainsText (dom w) (title faqItem) normalised in
  let contentMatch := elementContainsText (dom w) (content faqItem) normalised in
  if titleMatch || contentMatch then
    d1 ← match title faqItem with
         | Some t => highlightText t normalised (highlightClass (classes cfg)) (dom w)
         | None => Some (dom w)
         end;
    d2 ← match content faqItem with
         | Some c => highlightText c normalised (highlightClass (classes cfg)) d1
         | None => Some d1
         end;
    Some (setItemState faqItem true Search cfg None (onDom (fun _ => d2) w))
  else Some w.

(** [performSearch]; [None] when the call does not return. *)
Definition performSearch (query : string) (allItems : list FaqItemElements)
    (cfg : FaqConfig) (counterEl : option elem) (w : World) : option World :=
  let normalised := normalizeText query in
  let w := clearAllHighlights allItems cfg w in
  if decide (normalised = "") then Some (onDom (updateEmptyState true) w)
  else
    let w := foldl (closeStale normalised cfg) w allItems in
    w ← foldl (openMatching normalised cfg) (Some w) allItems;
    let w := setMarks (querySelectorAll (dom w) (markSel (highlightClass (classes cfg)))) w in
    let hasMatches := bool_decide (marks (searchState w) ≠ []) in
    let w := onDom (updateEmptyState hasMatches) w in
    let w :=
      if hasMatches then navigateToMatch 0 cfg counterEl (setCurrentIndex 0 w) else w in
    (* Dispatch search event *)
    Some match querySelector (dom w) (roleSel ROLES.group) with
         | Some g =>
             dispatchEvent
               (mkEvent g "cur-faq:search"
                  (DetailSearch query (Z.of_nat (length (marks (searchState w))))) true) w
         | None => w
         end.

(** *** Search: input binding *)

Definition searchInputListeners (input : elem) (isMainInput : bool) : list listener :=
  [mkListener input "keydown" (SearchKeydown input);
   mkListener input "input" (DebouncedSearch input isMainInput)].

(** Returns the listeners that the cleanup function removes. *)
Definition bindSearchInput (input : elem) (isMainInput : bool) (w : World)
  : list listener * World :=
  let ls := searchInputListeners input isMainInput in
  (ls, foldl (fun w l => addEventListener l w) w ls).

(** *** Search: floating panel *)

Record FloatingPanel := mkFloating {
  fpPanel : elem;
  fpCounter : elem;
  fpInput : elem;
  fpCleanup : list listener
}.

Definition createFloatingPanel (w : World) : FloatingPanel * World :=
  let d := dom w in
  let '(panel, d) := createElement "DIV" d in
  let d := setAttribute panel "id" "cur-faq-floating-search" d in
  let d := setStyle panel "display" "none" d in
  let '(prevBtn, d) := createElement "BUTTON" d in
  let d := setAttribute prevBtn "type" "button" d in
  let d := setAttribute prevBtn "aria-label" "Previous match" d in
  let '(nextBtn, d) := createElement "BUTTON" d in
  let d := setAttribute nextBtn "type" "button" d in
  let d := setAttribute nextBtn "aria-label" "Next match" d in
  let '(input, d) := createElement "INPUT" d in
  let d := setAttribute input "type" "search" d in
  let d := setAttribute input "placeholder" "Search FAQ…" d in
  let d := setAttribute input "aria-label" "Search FAQ" d in
  let '(counter, d) := createElement "SPAN" d in
  let d := classAdd counter "counter" d in
  let d :=
    appendChild (docBody d)
      (Elem panel [Elem prevBtn [Text "↑"]; Elem nextBtn [Text "↓"];
                   Elem input []; Elem counter [Text "0/0"]]) d in
  let w := onDom (fun _ => d) w in
  let buttons := [mkListener prevBtn "click" HandlePrev;
                  mkListener nextBtn "click" HandleNext] in
  let w := foldl (fun w l => addEventListener l w) w buttons in
  let '(inputCleanup, w) := bindSearchInput input false w in
  let w := onDom (updateMatchCounter (Some counter) (searchState w)) w in
  (mkFloating panel counter input (buttons ++ inputCleanup), w).

(** *** Initialization *)

(** "Set initial state: all items closed" *)
Definition closeInitially (cfg : FaqConfig) (d : Dom) (faqItem : FaqItemElements) : Dom :=
  match content faqItem with
  | None => d
  | Some c =>
      let d := setAttribute c "hidden" "" d in
      let d := setAttribute (item faqItem) ATTR.dataOpen "false" d in
      let d := match trigger faqItem with
               | Some t => setAttribute t "aria-expanded" "false" d
               | None => d
               end in
      let d := classRemove (item faqItem) (activeClass (classes cfg)) d in
      let d := setIconVisibility (iconOpen faqItem) false d in
      setIconVisibility (iconClose faqItem) true d
  end.

(** "Default open item(s) - per-group setting" *)
Definition openDefault (cfg : FaqConfig) (w : World) (g : FaqGroup) : World :=
  match defaultOpen (config g) with
  | None => w
  | Some n =>
      if n <? 0 then w
      else match items g !! Z.to_nat n with
           | Some target => setItemState target true User cfg (Some g) w
           | None => w
           end
  end.

(** "Apply per-group collapse duration overrides" *)
Definition overrideDuration (cfg : FaqConfig) (d : Dom) (g : FaqGroup) : Dom :=
  if negb (bool_decide (groupEl g = docBody d))
     && negb (groupCollapseDuration (config g) =? collapseDuration (timing cfg))
  then setStyle (groupEl g) CSS_VARS.collapseDuration (ms (groupCollapseDuration (config g))) d
  else d.

Definition inputSel : selector :=
  SelOr (SelTagAttr "INPUT" "type" "search") (SelTagAttr "INPUT" "type" "text").

(** "Search input binding": the floating panel, when it is asked for, and
    the listeners of the main input. *)
Definition bindSearch (cfg : FaqConfig) (w : World)
  : option FloatingPanel * list listener * World :=
  let mainInput :=
    match querySelector (dom w) (roleSel ROLES.search) with
    | Some searchEl =>
        if bool_decide (tagName (getEl (dom w) searchEl) = "INPUT") then Some searchEl
        else querySelectorIn (dom w) searchEl inputSel
    | None => None
    end in
  match mainInput with
  | Some input =>
      let '(floating, w) :=
        if floatingSearch cfg then
          let '(fp, w) := createFloatingPanel w in (Some fp, w)
        else (None, w) in
      let '(mainCleanup, w) := bindSearchInput input true w in
      (floating, mainCleanup, w)
  | None => (None, [], w)
  end.

Definition initFaq (w : World) : option FaqInstance * World :=
  if winInitialized w then (winCurFaq w, w)
  else
    let w := setWindow true (winCurFaq w) w in
    let cfg := resolveConfig (dom w) in
    let groups := parseFaqGroups (dom w) in
    let allItems := allItemsOf groups in
    let w := setSearchState (mkSearchState [] (-1) ∅) w in
    (* Inject styles *)
    let '(style, d) := injectStyles cfg (dom w) in
    let w := onDom (fun _ => d) w in
    let w := onDom (fun d => foldl (overrideDuration cfg) d groups) w in
    let w := onDom (fun d => foldl (closeInitially cfg) d allItems) w in
    let w := foldl (openDefault cfg) w groups in
    (* Bind accordion listeners *)
    let '(accordionLs, w) := bindAccordionListeners groups w in
    (* Hide empty state initially *)
    let w := onDom (updateEmptyState true) w in
    (* Search input binding *)
    let '(floating, searchLs, w) := bindSearch cfg w in
    let instance :=
      mkInstance allItems cfg groups style (fpCounter <$> floating) accordionLs searchLs
                 (default [] (fpCleanup <$> floating)) (fpPanel <$> floating) in
    (Some instance, setWindow true (Some instance) w).

(** *** The public API of an instance *)

Definition api_open (inst : FaqInstance) (it : FaqItemElements) (w : World) : World :=
  setItemState it true User (instConfig inst) (findGroup (instGroups inst) it) w.

Definition api_close (inst : FaqInstance) (it : FaqItemElements) (w : World) : World :=
  setItemState it false User (instConfig inst) (findGroup (instGroups inst) it) w.

Definition toggle (inst : FaqInstance) (it : FaqItemElements) (w : World) : World :=
  let shouldOpen := negb (isItemOpen (dom w) it) in
  setItemState it shouldOpen User (instConfig inst) (findGroup (instGroups inst) it) w.

Definition search (inst : FaqInstance) (query : string) (w : World) : option World :=
  performSearch query (instItems inst) (instConfig inst) (counterEl inst) w.

(** Close what search had opened: the loop of [clearSearch]. *)
Definition closeSearchOpened (cfg : FaqConfig) (w : World) (faqItem : FaqItemElements)
  : World :=
  if bool_decide (item faqItem ∈ searchOpenedItems (searchState w))
     && isItemOpen (dom w) faqItem
  then setItemState faqItem false Search cfg None w
  else w.

Definition clearSearch (inst : FaqInstance) (w : World) : World :=
  let w := clearAllHighlights (instItems inst) (instConfig inst) w in
  let w := foldl (closeSearchOpened (instConfig inst)) w (instItems inst) in
  let w := onDom (updateMatchCounter (counterEl inst) (searchState w)) w in
  onDom (updateEmptyState true) w.

Definition nextMatch (inst : FaqInstance) (w : World) : World :=
  advanceMatch 1 (instConfig inst) (counterEl inst) w.

Definition prevMatch (inst : FaqInstance) (w : World) : World :=
  advanceMatch (-1) (instConfig inst) (counterEl inst) w.

(** "Reset state" for one item. *)
Definition resetItem (cfg : FaqConfig) (d : Dom) (faqItem : FaqItemElements) : Dom :=
  let d := removeAttribute (item faqItem) ATTR.dataOpen d in
  let d := removeAttribute (item faqItem) ATTR.dataOpenedBySearch d in
  let d := classRemove (item faqItem) (activeClass (classes cfg)) d in
  let d := match trigger faqItem with
           | Some t => removeAttribute t "aria-controls" (removeAttribute t "aria-expanded" d)
           | None => d
           end in
  match content faqItem with
  | Some c => setStyle c "height" "" (removeAttribute c "hidden" d)
  | None => d
  end.

Definition destroy (inst : FaqInstance) (w : World) : World :=
  let w := foldl (fun w l => removeEventListener l w) w (accordionListeners inst) in
  let w := foldl (fun w l => removeEventListener l w) w (searchCleanups inst) in
  let w := foldl (fun w l => removeEventListener l w) w (floatingListeners inst) in
  let w := match floatingPanel inst with
           | Some panel => onDom (removeElem panel) w
           | None => w
           end in
  let w := onDom (removeElem (styleEl inst)) w in
  (* Remove per-group CSS var overrides *)
  let w :=
    onDom (fun d => foldl (fun d g =>
                             if bool_decide (groupEl g = docBody d) then d
                             else setStyle (groupEl g) CSS_VARS.collapseDuration "" d)
                          d (instGroups inst)) w in
  (* Reset state *)
  let w := clearAllHighlights (instItems inst) (instConfig inst) w in
  let w := onDom (fun d => foldl (resetItem (instConfig inst)) d (instItems inst)) w in
  setWindow false None w.

End Faq.

(* ===================================================================== *)
(** ** Observations on a page *)
(* ===================================================================== *)

(** An element is known to the store once something was recorded for it. *)
Definition known (d : Dom) (x : elem) : Prop := is_Some (store d !! x).

(** Present content and trigger: what [setItemState] requires to act. *)
Definition complete (it : FaqItemElements) : Prop :=
  is_Some (content it) /\ is_Some (trigger it).

(** The elements that [setItemState] writes to for an item. *)
Definition itemElems (it : FaqItemElements) : list elem :=
  item it :: omap id [trigger it; content it; iconOpen it; iconClose it].

(** What replaces a child when the mark [m] is cleared. *)
Definition clearChild (m : elem) (k : node) : node :=
  if isElem m k then Text (nodeText k) else clearMarkNode m k.

(** The [forEach] of [clearHighlights] over a list of marks. *)
Definition clearMarks (ms : list elem) (d : Dom) : Dom :=
  foldl (fun d mark => withTree d (clearMark mark (tree d))) d ms.

(** No highlight mark below the element [root]. *)
Definition noMarks (d : Dom) (root : elem) (cls : string) : Prop :=
  forall e, e ∈ descendants root (tree d) -> selMatches d (markSel cls) e = false.

(** A string with no white space in front: empty or headed by another
    character. *)
Definition noLeadingSpace (s : string) : Prop :=
  match s with
  | EmptyString => True
  | String c _ => Js.isSpace c = false
  end.

(** The events that [setItemState] dispatches. *)
Definition itemEvent (ev : event) : Prop :=
  evName ev = "cur-faq:open" \/ evName ev = "cur-faq:close".

(** [w'] has dispatched what [w] had, and item events after that. *)
Definition extends (w w' : World) : Prop :=
  exists evs, dispatched w' = dispatched w ++ evs /\ Forall itemEvent evs.

(** The text of a list of runs, in order. *)
Fixpoint runsText (rs : list run) : string :=
  match rs with
  | [] => EmptyString
  | Plain s :: r => s +:+ runsText r
  | Marked s :: r => s +:+ runsText r
  end.

(** The open marker of an item. *)
Definition marker (d : Dom) (it : FaqItemElements) : option string :=
  getAttribute d (item it) ATTR.dataOpen.

(** The marker states that the widget itself produces: "false", or "true"
    on an item that has its content and its trigger. *)
Definition markerOk (d : Dom) (it : FaqItemElements) : Prop :=
  marker d it = Some "false" \/ (complete it /\ marker d it = Some "true").

(** Records made from the same item element have the same parts. *)
Definition coherent (all : list FaqItemElements) : Prop :=
  forall a b, a ∈ all -> b ∈ all -> item a = item b ->
              trigger a = trigger b /\ content a = content b.

(** The item that the default-open setting of a group designates. *)
Definition defaultTarget (g : FaqGroup) : option FaqItemElements :=
  match defaultOpen (config g) with
  | None => None
  | Some n => if n <? 0 then None else items g !! Z.to_nat n
  end.

Definition defaultTargets (groups : list FaqGroup) : list FaqItemElements :=
  omap defaultTarget groups.

(** What can be seen of a closed item: marker "false", no active class,
    hidden content, ARIA-expanded "false", the icon-open hidden and the
    icon-close visible. *)
Definition closedObs (cfg : FaqConfig) (d : Dom) (i : FaqItemElements) : Prop :=
  marker d i = Some "false"
  /\ classContains d (item i) (activeClass (classes cfg)) = false
  /\ (forall c, content i = Some c -> getAttribute d c "hidden" = Some "")
  /\ (forall t, trigger i = Some t -> getAttribute d t "aria-expanded" = Some "false")
  /\ (forall o, iconOpen i = Some o ->
        classContains d o "cur-faq-icon-hidden" = true
        /\ classContains d o "cur-faq-icon-visible" = false)
  /\ (forall k, iconClose i = Some k ->
        classContains d k "cur-faq-icon-visible" = true
        /\ classContains d k "cur-faq-icon-hidden" = false).

(** [d] still knows the elements of [d0], with the data they had there. *)
Definition above (d0 d : Dom) : Prop :=
  forall x, known d0 x -> known d x /\ getEl d x = getEl d0 x.

(** A step from [d] to [d'] that keeps every element known to [d], with its
    classes and with the attributes that tell open from closed. *)
Definition quiet (d d' : Dom) : Prop :=
  forall x, known d x ->
    known d' x
    /\ classList (getEl d' x) = classList (getEl d x)
    /\ getAttribute d' x ATTR.dataOpen = getAttribute d x ATTR.dataOpen
    /\ getAttribute d' x "hidden" = getAttribute d x "hidden"
    /\ getAttribute d' x "aria-expanded" = getAttribute d x "aria-expanded".

(* ===================================================================== *)
(** ** A page to run the module on

    One group holding one item with a title, two icons and a content panel:
    the page of the integration tests, with the answer text set off by a
    blank as it is after an inline element. *)
(* ===================================================================== *)

Module Page.

Definition role (tag r : string) : ElemData :=
  mkElemData tag {[ ATTR.element := r ]} ∅ ∅.

Definition plain (tag : string) : ElemData := mkElemData tag ∅ ∅ ∅.

Definition elements : list (elem * ElemData) :=
  [ (1, plain "HEAD"); (2, plain "BODY");
    (10, role "DIV" "group"); (11, role "DIV" "item");
    (12, role "DIV" "trigger"); (13, role "SPAN" "title");
    (14, role "SPAN" "icon-open"); (15, role "SPAN" "icon-close");
    (16, role "DIV" "content"); (17, plain "P"); (18, plain "STRONG") ]%nat.

Definition document : Dom :=
  mkDom
    [ Elem 1 [];
      Elem 2
        [ Elem 10
            [ Elem 11
                [ Elem 12 [ Elem 13 [Text "Password reset"];
                            Elem 14 [Text "+"]; Elem 15 [Text "-"] ];
                  Elem 16 [ Elem 17 [ Text "Open ";
                                      Elem 18 [Text "Settings"];
                                      Text " and reset your password" ] ] ] ] ] ]
    (list_to_map elements) 1 2.

Definition fresh : World :=
  mkWorld document false None (mkSearchState [] (-1) ∅) ∅ [] [] [] 0 0.

(** The test environment: no layout, every box is empty. *)
Definition noLayout : Env :=
  mkEnv (fun _ _ => "block") (fun _ _ => "visible")
        (fun _ _ => 0) (fun _ _ => 0) (fun _ _ => 0)
        (fun n => pretty n).

(** A browser: an element has a box unless it carries [hidden].  This is
    also what is reported for a panel whose collapse transition has only
    just been started. *)
Definition browser : Env :=
  mkEnv (fun d e => if hasAttribute d e "hidden" then "none" else "block")
        (fun _ _ => "visible")
        (fun d e => if hasAttribute d e "hidden" then 0 else 320)
        (fun d e => if hasAttribute d e "hidden" then 0 else 48)
        (fun _ _ => 48)
        (fun n => pretty n).

(** The item record that [parseFaqGroups] builds on this page. *)
Definition faqItem : FaqItemElements :=
  mkItem 0 11 (Some 12%nat) (Some 13%nat) (Some 16%nat) (Some 14%nat) (Some 15%nat).

Definition faqGroup : FaqGroup :=
  mkGroup 10 [faqItem] (mkGroupConfig false None 250).

(** A second page: an accordion group of two items, the first one open by
    default, and a plain group of one item. *)
Definition accordionElements : list (elem * ElemData) :=
  [ (1, plain "HEAD"); (2, plain "BODY");
    (20, mkElemData "DIV" {[ ATTR.element := "group"; ATTR.accordion := "true";
                             ATTR.defaultOpen := "0" ]} ∅ ∅);
    (21, role "DIV" "item"); (22, role "BUTTON" "trigger"); (23, role "DIV" "content");
    (31, role "DIV" "item"); (32, role "BUTTON" "trigger"); (33, role "DIV" "content");
    (40, role "DIV" "group");
    (41, role "DIV" "item"); (42, role "BUTTON" "trigger"); (43, role "DIV" "content") ]%nat.

Definition accordionDocument : Dom :=
  mkDom
    [ Elem 1 [];
      Elem 2
        [ Elem 20
            [ Elem 21 [ Elem 22 [Text "Shipping"]; Elem 23 [Text "Two days."] ];
              Elem 31 [ Elem 32 [Text "Returns"]; Elem 33 [Text "Thirty days."] ] ];
          Elem 40
            [ Elem 41 [ Elem 42 [Text "Contact"]; Elem 43 [Text "By mail."] ] ] ] ]
    (list_to_map accordionElements) 1 2.

Definition itemA : FaqItemElements := mkItem 0 21 (Some 22%nat) None (Some 23%nat) None None.
Definition itemB : FaqItemElements := mkItem 1 31 (Some 32%nat) None (Some 33%nat) None None.
Definition itemC : FaqItemElements := mkItem 2 41 (Some 42%nat) None (Some 43%nat) None None.

Definition accordionGroup : FaqGroup :=
  mkGroup 20 [itemA; itemB] (mkGroupConfig true (Some 0) 250).

Definition plainGroup : FaqGroup :=
  mkGroup 40 [itemC] (mkGroupConfig false None 250).

Definition accordionFresh : World :=
  mkWorld accordionDocument false None (mkSearchState [] (-1) ∅) ∅ [] [] [] 0 0.

Definition noInstance : FaqInstance :=
  mkInstance [] DEFAULTS [] 0 None [] [] [] None.

(** The accordion page after [initFaq], and the instance returned. *)
Definition accordionReady (env : Env) : World := (initFaq env accordionFresh).2.

Definition accordionInst (env : Env) : FaqInstance :=
  default noInstance (initFaq env accordionFresh).1.

(** The instance that [initFaq] returns on the fresh page, and the page it
    leaves. *)
Definition inst (env : Env) : FaqInstance :=
  default noInstance (initFaq env fresh).1.

Definition ready (env : Env) : World := (initFaq env fresh).2.

(** ... after a search for "password", which opens the item with
    provenance "search". *)
Definition searched (env : Env) : option World :=
  search env (inst env) "password" (ready env).

Definition searchedPage (env : Env) : World := default fresh (searched env).

(** ... with the item opened through the API. *)
Definition opened (env : Env) : World :=
  api_open env (inst env) faqItem (ready env).

(** A third page: two items outside any group. *)
Definition orphanDocument : Dom :=
  mkDom
    [ Elem 1 [];
      Elem 2
        [ Elem 51 [ Elem 52 [Elem 54 [Text "Password"]]; Elem 53 [Text "Reset it."] ];
          Elem 61 [ Elem 62 [Elem 64 [Text "Billing"]]; Elem 63 [Text "Monthly."] ] ] ]
    (list_to_map
       [ (1, plain "HEAD"); (2, plain "BODY");
         (51, role "DIV" "item"); (52, role "BUTTON" "trigger"); (53, role "DIV" "content");
         (54, role "SPAN" "title");
         (61, role "DIV" "item"); (62, role "BUTTON" "trigger"); (63, role "DIV" "content");
         (64, role "SPAN" "title")
       ]%nat) 1 2.

Definition orphanFresh : World :=
  mkWorld orphanDocument false None (mkSearchState [] (-1) ∅) ∅ [] [] [] 0 0.

Definition orphanInst (env : Env) : FaqInstance :=
  default noInstance (initFaq env orphanFresh).1.

Definition orphanReady (env : Env) : World := (initFaq env orphanFresh).2.

End Page.

(* ===================================================================== *)
(** ** Parts of the code under their own names *)
(* ===================================================================== *)

Section Parts.

Variable env : Env.

(** The [if (open) ... else ...] block of [setItemState]: the animation
    and the provenance record. *)
Definition animateItem (it : FaqItemElements) (c : elem) (open : bool) (src : source)
    (w : World) : World :=
  if open then
    let w := expandElement env c w in
    match src with
    | Search =>
        searchOpenedAdd (item it)
          (onDom (setAttribute (item it) ATTR.dataOpenedBySearch "true") w)
    | User =>
        searchOpenedDelete (item it)
          (onDom (removeAttribute (item it) ATTR.dataOpenedBySearch) w)
    end
  else
    let w := collapseElement env c w in
    match src with
    | Search =>
        searchOpenedDelete (item it)
          (onDom (removeAttribute (item it) ATTR.dataOpenedBySearch) w)
    | User => w
    end.

(** The five writes of [setItemState] that come before it: ARIA, marker,
    active class and the two icons. *)
Definition markItem (it : FaqItemElements) (t : elem) (open : bool) (cfg : FaqConfig)
    (d : Dom) : Dom :=
  setIconVisibility (iconClose it) (negb open)
    (setIconVisibility (iconOpen it) open
       (classToggle (item it) (activeClass (classes cfg)) open
          (setAttribute (item it) ATTR.dataOpen (boolString open)
             (setAttribute t "aria-expanded" (boolString open) d)))).

End Parts.

(** The listeners that [bindAccordionListeners] puts on the trigger of an
    item, and on those of all the groups, in the order of registration. *)
Definition itemListeners (g : FaqGroup) (it : FaqItemElements) : list listener :=
  match trigger it with
  | Some t => toggleListeners it g t
  | None => []
  end.

Definition groupListeners (groups : list FaqGroup) : list listener :=
  flat_map (fun g => flat_map (itemListeners g) (items g)) groups.

(** The listeners of a running animation. *)
Definition isTransitionEnd (l : listener) : Prop := lsType l = "transitionend".

(* ===================================================================== *)
(** ** Observations on a search *)
(* ===================================================================== *)

(** An element of the page: in the document tree, or with data of its
    own. *)
Definition present (d : Dom) (e : elem) : Prop :=
  e ∈ treeElems (tree d) \/ known d e.

(** [e] is no highlight mark and lies inside none. *)
Definition outsideMarks (cls : string) (d : Dom) (e : elem) : Prop :=
  forall m, selMatches d (markSel cls) m = true ->
            e <> m /\ e ∉ descendants m (tree d).

(** The elements whose text [itemMatchesQuery] reads. *)
Definition textParts (it : FaqItemElements) : list elem :=
  omap id [title it; content it].

(** What tells on an item element whether the item is open and whether
    search opened it: the open marker, the opened-by-search marker and the
    membership in the set of search-opened items. *)
Definition searchObs (w : World) (x : elem) : option string * option string * bool :=
  (getAttribute (dom w) x ATTR.dataOpen,
   getAttribute (dom w) x ATTR.dataOpenedBySearch,
   bool_decide (x ∈ searchOpenedItems (searchState w))).

(** The end of [performSearch], after its two loops: the marks are
    collected, the empty state and the first match are shown and the search
    event is dispatched. *)
Definition finishSearch (query : string) (cfg : FaqConfig) (counterEl : option elem)
    (w : World) : World :=
  let w := setMarks (querySelectorAll (dom w) (markSel (highlightClass (classes cfg)))) w in
  let hasMatches := bool_decide (marks (searchState w) ≠ []) in
  let w := onDom (updateEmptyState hasMatches) w in
  let w :=
    if hasMatches then navigateToMatch 0 cfg counterEl (setCurrentIndex 0 w) else w in
  match querySelector (dom w) (roleSel ROLES.group) with
  | Some g =>
      dispatchEvent
        (mkEvent g "cur-faq:search"
           (DetailSearch query (Z.of_nat (length (marks (searchState w))))) true) w
  | None => w
  end.

(** The body of the loops of [performSearch] and [clearSearch] that close
    items: [setItemState(item, false, 'search')] under a condition. *)
Definition closeIf (env : Env) (cond : World -> FaqItemElements -> bool) (cfg : FaqConfig)
    (w : World) (faqItem : FaqItemElements) : World :=
  if cond w faqItem then setItemState env faqItem false Search cfg None w else w.

(** The set of search-opened items and the opened-by-search marker agree:
    what is in the set carries the marker. *)
Definition provenanceOk (w : World) : Prop :=
  forall x, x ∈ searchOpenedItems (searchState w) ->
            getAttribute (dom w) x ATTR.dataOpenedBySearch = Some "true".

(* ===================================================================== *)
(** ** Timers and [debounce]

    [window.setTimeout] and [window.clearTimeout] over the queue of pending
    timers.  A callback is known by what it does when it runs; for the
    closure [() => fn(...args)] of [debounce] that is the argument list
    [args], and running it records one call of [fn]. *)
(* ===================================================================== *)

Module Timers.

Section Timers.

Variable A : Type.

Record timer := mkTimer {
  tmId : Z;
  tmDue : Z;
  tmArgs : A
}.

Record state := mkState {
  clock : Z;                 (* the time, in ms *)
  nextId : Z;                (* the id of the next timer *)
  pending : list timer;      (* by due time, then by registration *)
  calls : list A             (* the calls of [fn] so far, oldest first *)
}.

Fixpoint enqueue (tm : timer) (q : list timer) : list timer :=
  match q with
  | [] => [tm]
  | x :: r => if decide (tmDue x <= tmDue tm) then x :: enqueue tm r else tm :: q
  end.

(** [window.setTimeout(callback, delay)]; a negative delay counts as 0. *)
Definition setTimeout (args : A) (delay : Z) (s : state) : Z * state :=
  (nextId s,
   mkState (clock s) (nextId s + 1)
           (enqueue (mkTimer (nextId s) (clock s + Z.max 0 delay) args) (pending s))
           (calls s)).

(** [window.clearTimeout(id)] *)
Definition clearTimeout (id : Z) (s : state) : state :=
  mkState (clock s) (nextId s) (filter (fun tm => tmId tm <> id) (pending s)) (calls s).

(** The event loop up to the time [t]: the timers that are due by then run,
    in the order of the queue. *)
Definition advance (t : Z) (s : state) : state :=
  mkState (Z.max (clock s) t) (nextId s)
          (filter (fun tm => ~ tmDue tm <= t) (pending s))
          (calls s ++ map tmArgs (filter (fun tm => tmDue tm <= t) (pending s))).

(** The function that [debounce(fn, delay)] returns, called with [args];
    the first component of the state is the variable [timer] of the
    closure. *)
Definition debounce (delay : Z) (args : A) (st : option Z * state) : option Z * state :=
  let s := match st.1 with
           | Some id => clearTimeout id st.2
           | None => st.2
           end in
  let '(id, s) := setTimeout args delay s in
  (Some id, s).

(** A call of the debounced function at the time [c.1] with the arguments
    [c.2], once the event loop has come to that time. *)
Definition callAt (delay : Z) (st : option Z * state) (c : Z * A) : option Z * state :=
  debounce delay c.2 (st.1, advance c.1 st.2).

(** A freshly debounced function, called at the given times; then the event
    loop runs up to the time [T]. *)
Definition runCalls (delay : Z) (cs : list (Z * A)) (T : Z) (s : state) : state :=
  advance T (foldl (callAt delay) (None, s) cs).2.

(** Times that do not go back. *)
Fixpoint ascending (t0 : Z) (ts : list Z) : Prop :=
  match ts with
  | [] => True
  | t :: r => t0 <= t /\ ascending t r
  end.

(** The calls that are followed by a pause of at least [D]: by the next
    call, or by the end [T] for the last one. *)
Fixpoint trailing (D : Z) (cs : list (Z * A)) (T : Z) : list A :=
  match cs with
  | [] => []
  | c :: rest =>
      let next := match rest with [] => T | c' :: _ => c'.1 end in
      (if decide (c.1 + D <= next) then [c.2] else []) ++ trailing D rest T
  end.

End Timers.

Arguments mkTimer {A}.
Arguments tmId {A}.
Arguments tmDue {A}.
Arguments tmArgs {A}.
Arguments mkState {A}.
Arguments clock {A}.
Arguments nextId {A}.
Arguments pending {A}.
Arguments calls {A}.
Arguments enqueue {A}.
Arguments setTimeout {A}.
Arguments clearTimeout {A}.
Arguments advance {A}.
Arguments debounce {A}.
Arguments callAt {A}.
Arguments runCalls {A}.
Arguments trailing {A}.

End Timers.
(* ===================================================================== *)
(** ** Facts about the document primitives *)
(* ===================================================================== *)

Ltac str_ne := compute; discriminate.

Lemma getEl_updEl f e d x :
  getEl (updEl f e d) x = if decide (e = x) then f (getEl d x) else getEl d x.
Proof.
  unfold getEl, updEl; simpl. rewrite lookup_insert.
  case_decide; subst; reflexivity.
Qed.

Lemma tree_updEl f e d : tree (updEl f e d) = tree d.
Proof. reflexivity. Qed.

Lemma known_updEl f e d x : known d x -> known (updEl f e d) x.
Proof.
  unfold known, updEl; simpl. rewrite lookup_insert.
  case_decide; eauto.
Qed.

Lemma known_updEl_same f e d : known (updEl f e d) e.
Proof. unfold known, updEl; simpl. rewrite lookup_insert_eq. eauto. Qed.

Lemma attr_set_same (d : Dom) (e : elem) (k v : string) : getAttribute (setAttribute e k v d) e k = Some v.
Proof.
  unfold getAttribute, setAttribute. rewrite getEl_updEl.
  rewrite decide_True by done. simpl. apply lookup_insert_eq.
Qed.

Lemma attr_set_other (d : Dom) (e x : elem) (k k' v : string) :
  e <> x \/ k <> k' ->
  getAttribute (setAttribute e k v d) x k' = getAttribute d x k'.
Proof.
  intros H. unfold getAttribute, setAttribute. rewrite getEl_updEl.
  case_decide; [subst; simpl | done].
  destruct H as [H | H]; [done |]. by rewrite lookup_insert_ne.
Qed.

Lemma attr_remove_same (d : Dom) (e : elem) (k : string) : getAttribute (removeAttribute e k d) e k = None.
Proof.
  unfold getAttribute, removeAttribute. rewrite getEl_updEl.
  rewrite decide_True by done. simpl. apply lookup_delete_eq.
Qed.

Lemma attr_remove_other (d : Dom) (e x : elem) (k k' : string) :
  e <> x \/ k <> k' ->
  getAttribute (removeAttribute e k d) x k' = getAttribute d x k'.
Proof.
  intros H. unfold getAttribute, removeAttribute. rewrite getEl_updEl.
  case_decide; [subst; simpl | done].
  destruct H as [H | H]; [done |]. by rewrite lookup_delete_ne.
Qed.

(** Removing an attribute never makes one appear. *)
Lemma attr_remove_none (d : Dom) (e x : elem) (k k' : string) :
  getAttribute d x k' = None ->
  getAttribute (removeAttribute e k d) x k' = None.
Proof.
  intros H. unfold getAttribute, removeAttribute in *. rewrite getEl_updEl.
  case_decide; [subst; simpl | done].
  rewrite lookup_delete. case_decide; done.
Qed.

Lemma attr_classAdd (d : Dom) (e x : elem) (k c : string) : getAttribute (classAdd e c d) x k = getAttribute d x k.
Proof.
  unfold getAttribute, classAdd. rewrite getEl_updEl. by case_decide; subst.
Qed.

Lemma attr_classRemove (d : Dom) (e x : elem) (k c : string) : getAttribute (classRemove e c d) x k = getAttribute d x k.
Proof.
  unfold getAttribute, classRemove. rewrite getEl_updEl. by case_decide; subst.
Qed.

Lemma attr_classToggle (d : Dom) (e x : elem) (k c : string) b :
  getAttribute (classToggle e c b d) x k = getAttribute d x k.
Proof. destruct b; [apply attr_classAdd | apply attr_classRemove]. Qed.

Lemma attr_setStyle (d : Dom) (e x : elem) (k k' v : string) : getAttribute (setStyle e k' v d) x k = getAttribute d x k.
Proof.
  unfold getAttribute, setStyle. rewrite getEl_updEl. by case_decide; subst.
Qed.

Lemma class_setAttribute (d : Dom) (e x : elem) (k v c : string) :
  classContains (setAttribute e k v d) x c = classContains d x c.
Proof.
  unfold classContains, setAttribute. rewrite getEl_updEl. by case_decide; subst.
Qed.

Lemma class_removeAttribute (d : Dom) (e x : elem) (k c : string) :
  classContains (removeAttribute e k d) x c = classContains d x c.
Proof.
  unfold classContains, removeAttribute. rewrite getEl_updEl. by case_decide; subst.
Qed.

Lemma class_setStyle (d : Dom) (e x : elem) (k v c : string) :
  classContains (setStyle e k v d) x c = classContains d x c.
Proof.
  unfold classContains, setStyle. rewrite getEl_updEl. by case_decide; subst.
Qed.

Lemma class_add_same (d : Dom) (e : elem) (c : string) : classContains (classAdd e c d) e c = true.
Proof.
  unfold classContains, classAdd. rewrite getEl_updEl, decide_True by done.
  simpl. apply bool_decide_eq_true. set_solver.
Qed.

Lemma class_remove_same (d : Dom) (e : elem) (c : string) : classContains (classRemove e c d) e c = false.
Proof.
  unfold classContains, classRemove. rewrite getEl_updEl, decide_True by done.
  simpl. apply bool_decide_eq_false. set_solver.
Qed.

Lemma class_toggle_same (d : Dom) (e : elem) (c : string) b : classContains (classToggle e c b d) e c = b.
Proof. destruct b; [apply class_add_same | apply class_remove_same]. Qed.

Lemma class_add_other (d : Dom) (e x : elem) (c : string) c' :
  e <> x \/ c <> c' ->
  classContains (classAdd e c d) x c' = classContains d x c'.
Proof.
  intros H. unfold classContains, classAdd. rewrite getEl_updEl.
  case_decide; [subst; simpl | done].
  destruct H as [H | H]; [done |]. apply bool_decide_ext. set_solver.
Qed.

Lemma class_remove_other (d : Dom) (e x : elem) (c : string) c' :
  e <> x \/ c <> c' ->
  classContains (classRemove e c d) x c' = classContains d x c'.
Proof.
  intros H. unfold classContains, classRemove. rewrite getEl_updEl.
  case_decide; [subst; simpl | done].
  destruct H as [H | H]; [done |]. apply bool_decide_ext. set_solver.
Qed.

Lemma class_toggle_other (d : Dom) (e x : elem) (c : string) c' b :
  e <> x \/ c <> c' ->
  classContains (classToggle e c b d) x c' = classContains d x c'.
Proof. destruct b; [apply class_add_other | apply class_remove_other]. Qed.

(** Removing a class never makes one appear. *)
Lemma class_remove_false (d : Dom) (e x : elem) (c : string) c' :
  classContains d x c' = false ->
  classContains (classRemove e c d) x c' = false.
Proof.
  unfold classContains, classRemove. rewrite getEl_updEl.
  rewrite !bool_decide_eq_false. case_decide; [subst; simpl | done]. set_solver.
Qed.


Lemma attr_setIconVisibility icon b d x k :
  getAttribute (setIconVisibility icon b d) x k = getAttribute d x k.
Proof.
  destruct icon; simpl; [| done]. by rewrite !attr_classToggle.
Qed.

Lemma class_setIconVisibility_other icon b d x c :
  icon <> Some x \/ (c <> "cur-faq-icon-visible" /\ c <> "cur-faq-icon-hidden") ->
  classContains (setIconVisibility icon b d) x c = classContains d x c.
Proof.
  intros H. destruct icon as [i |]; simpl; [| done].
  rewrite !class_toggle_other; [done | |];
    (destruct H as [H | [H1 H2]]; [left; congruence | right; congruence]).
Qed.

Lemma class_setIconVisibility_visible i b d :
  classContains (setIconVisibility (Some i) b d) i "cur-faq-icon-visible" = b.
Proof.
  simpl. rewrite class_toggle_other by (right; str_ne). apply class_toggle_same.
Qed.

Lemma class_setIconVisibility_hidden i b d :
  classContains (setIconVisibility (Some i) b d) i "cur-faq-icon-hidden" = negb b.
Proof. simpl. apply class_toggle_same. Qed.

(* ===================================================================== *)
(** ** The item state machine *)
(* ===================================================================== *)

Section ItemState.

Variable env : Env.

(** *** Expand and collapse *)

Lemma attr_expand el w x k :
  el <> x \/ k <> "hidden" ->
  getAttribute (dom (expandElement env el w)) x k = getAttribute (dom w) x k.
Proof.
  intros H. unfold expandElement; simpl.
  rewrite !attr_setStyle. apply attr_remove_other. intuition congruence.
Qed.

Lemma attr_expand_hidden el w :
  getAttribute (dom (expandElement env el w)) el "hidden" = None.
Proof.
  unfold expandElement; simpl. rewrite !attr_setStyle. apply attr_remove_same.
Qed.

Lemma attr_collapse el w x k :
  getAttribute (dom (collapseElement env el w)) x k = getAttribute (dom w) x k.
Proof.
  unfold collapseElement; simpl.
  destruct (hasAttribute _ _ _); simpl; by rewrite ?attr_setStyle.
Qed.

Lemma class_expand el w x c :
  classContains (dom (expandElement env el w)) x c = classContains (dom w) x c.
Proof.
  unfold expandElement; simpl.
  by rewrite !class_setStyle, class_removeAttribute.
Qed.

Lemma class_collapse el w x c :
  classContains (dom (collapseElement env el w)) x c = classContains (dom w) x c.
Proof.
  unfold collapseElement; simpl.
  destruct (hasAttribute _ _ _); simpl; by rewrite ?class_setStyle.
Qed.

Lemma searchState_expand el w :
  searchState (expandElement env el w) = searchState w.
Proof. reflexivity. Qed.

Lemma searchState_collapse el w :
  searchState (collapseElement env el w) = searchState w.
Proof. unfold collapseElement; simpl. by destruct (hasAttribute _ _ _). Qed.

Lemma dispatched_expand el w :
  dispatched (expandElement env el w) = dispatched w.
Proof. reflexivity. Qed.

Lemma dispatched_collapse el w :
  dispatched (collapseElement env el w) = dispatched w.
Proof. unfold collapseElement; simpl. by destruct (hasAttribute _ _ _). Qed.

(** *** The effects on the item itself *)

Lemma dataOpen_ne_bySearch : ATTR.dataOpen <> ATTR.dataOpenedBySearch.
Proof. str_ne. Qed.

Lemma dataOpen_ne_hidden : ATTR.dataOpen <> "hidden".
Proof. str_ne. Qed.

Lemma dataOpen_ne_aria : "aria-expanded" <> ATTR.dataOpen.
Proof. str_ne. Qed.

(** The marker of every item after [applyItemState]: the requested state on
    the item, unchanged elsewhere. *)
Lemma marker_apply it c t open src cfg w x :
  getAttribute (dom (applyItemState env it c t open src cfg w)) x ATTR.dataOpen =
  if decide (x = item it) then Some (boolString open)
  else getAttribute (dom w) x ATTR.dataOpen.
Proof.
  unfold applyItemState.
  assert (Hprov : forall w0 : World,
            getAttribute
              (dom (if open
                    then match src with
                         | Search =>
                             searchOpenedAdd (item it)
                               (onDom (setAttribute (item it) ATTR.dataOpenedBySearch "true")
                                      (expandElement env c w0))
                         | User =>
                             searchOpenedDelete (item it)
                               (onDom (removeAttribute (item it) ATTR.dataOpenedBySearch)
                                      (expandElement env c w0))
                         end
                    else match src with
                         | Search =>
                             searchOpenedDelete (item it)
                               (onDom (removeAttribute (item it) ATTR.dataOpenedBySearch)
                                      (collapseElement env c w0))
                         | User => collapseElement env c w0
                         end)) x ATTR.dataOpen
            = getAttribute (dom w0) x ATTR.dataOpen).
  { intros w0. destruct open, src; simpl;
      rewrite ?attr_set_other, ?attr_remove_other
        by (right; intros E; symmetry in E; revert E; apply dataOpen_ne_bySearch);
      rewrite ?attr_collapse; try reflexivity;
      apply attr_expand; right; apply dataOpen_ne_hidden. }
  cbn [dispatchEvent dom]. rewrite Hprov. simpl.
  rewrite !attr_setIconVisibility, attr_classToggle.
  case_decide as Hx.
  - subst x. apply attr_set_same.
  - rewrite attr_set_other by (left; congruence).
    apply attr_set_other. right. apply dataOpen_ne_aria.
Qed.

Lemma bySearch_ne_hidden : ATTR.dataOpenedBySearch <> "hidden".
Proof. str_ne. Qed.

Lemma aria_ne_bySearch : "aria-expanded" <> ATTR.dataOpenedBySearch.
Proof. str_ne. Qed.

(** The part of [applyItemState] before the animation leaves the
    opened-by-search marker alone. *)
Lemma bySearch_prefix it t open cfg d x :
  getAttribute
    (setIconVisibility (iconClose it) (negb open)
       (setIconVisibility (iconOpen it) open
          (classToggle (item it) (activeClass (classes cfg)) open
             (setAttribute (item it) ATTR.dataOpen (boolString open)
                (setAttribute t "aria-expanded" (boolString open) d)))))
    x ATTR.dataOpenedBySearch
  = getAttribute d x ATTR.dataOpenedBySearch.
Proof.
  rewrite !attr_setIconVisibility, attr_classToggle.
  rewrite attr_set_other by (right; apply dataOpen_ne_bySearch).
  apply attr_set_other. right. apply aria_ne_bySearch.
Qed.

(** The opened-by-search marker of the item after [applyItemState]. *)
Lemma bySearch_apply it c t open src cfg w :
  getAttribute (dom (applyItemState env it c t open src cfg w)) (item it)
               ATTR.dataOpenedBySearch =
  match open, src with
  | true, Search => Some "true"
  | true, User => None
  | false, Search => None
  | false, User => getAttribute (dom w) (item it) ATTR.dataOpenedBySearch
  end.
Proof.
  unfold applyItemState. destruct open, src; cbn [dispatchEvent dom negb].
  - apply attr_remove_same.
  - apply attr_set_same.
  - rewrite attr_collapse. cbn [onDom dom]. apply (bySearch_prefix it t false).
  - apply attr_remove_same.
Qed.

(** The search-opened set after [applyItemState]. *)
Lemma searchOpened_apply it c t open src cfg w :
  searchOpenedItems (searchState (applyItemState env it c t open src cfg w)) =
  match open, src with
  | true, Search => {[item it]} ∪ searchOpenedItems (searchState w)
  | false, User => searchOpenedItems (searchState w)
  | _, _ => searchOpenedItems (searchState w) ∖ {[item it]}
  end.
Proof.
  unfold applyItemState. destruct open, src; cbn; try reflexivity.
  all: rewrite searchState_collapse; reflexivity.
Qed.

(** [setItemState] on an item that has its content and its trigger. *)
Lemma setItemState_complete it c t open src cfg group w :
  content it = Some c -> trigger it = Some t ->
  exists w1,
    setItemState env it open src cfg group w = applyItemState env it c t open src cfg w1
    /\ (open = false -> w1 = w)
    /\ (group = None -> w1 = w).
Proof.
  intros Hc Ht. unfold setItemState, setItemStateWith. rewrite Hc, Ht.
  destruct group as [g |].
  - destruct open; simpl.
    + destruct (accordion (config g)); eexists; (split; [reflexivity |]);
        split; intros; discriminate.
    + eexists; split; [reflexivity |]. split; intros; [reflexivity | discriminate].
  - eexists; split; [reflexivity |]. split; reflexivity.
Qed.


(** *** Missing parts *)

Lemma setItemState_incomplete it open src cfg group w :
  content it = None \/ trigger it = None ->
  setItemState env it open src cfg group w = w.
Proof.
  intros H. unfold setItemState, setItemStateWith.
  destruct (content it), (trigger it); destruct H; congruence.
Qed.

(** *** Active class *)

Lemma class_apply it c t open src cfg w :
  iconOpen it <> Some (item it) -> iconClose it <> Some (item it) ->
  classContains (dom (applyItemState env it c t open src cfg w)) (item it)
                (activeClass (classes cfg)) = open.
Proof.
  intros Ho Hc. unfold applyItemState.
  assert (Htail : forall w0 : World,
            classContains
              (dom (if open
                    then match src with
                         | Search =>
                             searchOpenedAdd (item it)
                               (onDom (setAttribute (item it) ATTR.dataOpenedBySearch "true")
                                      (expandElement env c w0))
                         | User =>
                             searchOpenedDelete (item it)
                               (onDom (removeAttribute (item it) ATTR.dataOpenedBySearch)
                                      (expandElement env c w0))
                         end
                    else match src with
                         | Search =>
                             searchOpenedDelete (item it)
                               (onDom (removeAttribute (item it) ATTR.dataOpenedBySearch)
                                      (collapseElement env c w0))
                         | User => collapseElement env c w0
                         end)) (item it) (activeClass (classes cfg))
            = classContains (dom w0) (item it) (activeClass (classes cfg))).
  { intros w0.
    destruct open, src;
      unfold searchOpenedAdd, searchOpenedDelete, setSearchState, onDom; cbn [dom];
      rewrite ?class_setAttribute, ?class_removeAttribute, ?class_expand, ?class_collapse;
      reflexivity. }
  cbn [dispatchEvent dom]. rewrite Htail. cbn [onDom dom].
  rewrite !class_setIconVisibility_other by (left; assumption).
  apply class_toggle_same.
Qed.

(** *** Events *)

Lemma dispatched_apply it c t open src cfg w :
  dispatched (applyItemState env it c t open src cfg w) =
  dispatched w ++
    [mkEvent (item it) (if open then "cur-faq:open" else "cur-faq:close")
             (DetailItem (item it)) true].
Proof.
  unfold applyItemState. cbn [dispatchEvent dispatched]. f_equal.
  destruct open, src; cbn; rewrite ?dispatched_collapse; reflexivity.
Qed.

End ItemState.

(* ===================================================================== *)
(** ** Provenance, missing parts and [toggle] *)
(* ===================================================================== *)

Lemma parse_document : parseFaqGroups Page.document = [Page.faqGroup].
Proof. vm_compute. reflexivity. Qed.

Lemma toggle_incomplete env inst it w :
  content it = None \/ trigger it = None -> toggle env inst it w = w.
Proof. intros H. unfold toggle. by apply setItemState_incomplete. Qed.

(** C5.  An item whose content element or trigger element is missing is
    left alone by [setItemState]: whatever the requested state, the
    provenance and the group, the call returns the page it was given, with
    the same attributes, classes, icons, animations, provenance records and
    dispatched events; and [toggle] on such an item returns the page
    unchanged as well. *)
Theorem C5_missing_parts_noop env inst it open src cfg group w :
  content it = None \/ trigger it = None ->
  setItemState env it open src cfg group w = w
  /\ toggle env inst it w = w.
Proof.
  intros H. split.
  - by apply setItemState_incomplete.
  - by apply toggle_incomplete.
Qed.

Lemma C5_missing_parts_noop_witness :
  let it := mkItem 0 11 (Some 12%nat) (Some 13%nat) None None None in
  let inst := mkInstance [it] DEFAULTS [Page.faqGroup] 0 None [] [] [] None in
  setItemState Page.browser it true Search DEFAULTS (Some Page.faqGroup) Page.fresh
    = Page.fresh
  /\ toggle Page.browser inst it Page.fresh = Page.fresh.
Proof.
  intros it inst.
  apply (C5_missing_parts_noop Page.browser inst it true Search DEFAULTS
           (Some Page.faqGroup) Page.fresh).
  left. reflexivity.
Defined.

(** C1 (amended).  On an item whose content and trigger are present:
    opening with provenance "search" sets the opened-by-search marker and
    puts the item into the search-opened set; opening with "user" removes
    the marker and takes the item out of the set; closing with "search"
    removes the marker and takes the item out of the set; closing with
    "user" leaves the marker and the membership as they were. *)
Theorem C1_provenance_bookkeeping env it c t cfg group w :
  content it = Some c -> trigger it = Some t ->
  let bySearch w' := getAttribute (dom w') (item it) ATTR.dataOpenedBySearch in
  let opened w' := searchOpenedItems (searchState w') in
  (bySearch (setItemState env it true Search cfg group w) = Some "true"
   /\ item it ∈ opened (setItemState env it true Search cfg group w))
  /\ (bySearch (setItemState env it true User cfg group w) = None
      /\ item it ∉ opened (setItemState env it true User cfg group w))
  /\ (bySearch (setItemState env it false Search cfg group w) = None
      /\ item it ∉ opened (setItemState env it false Search cfg group w))
  /\ (bySearch (setItemState env it false User cfg group w) = bySearch w
      /\ opened (setItemState env it false User cfg group w) = opened w).
Proof.
  intros Hc Ht bySearch opened. unfold bySearch, opened.
  repeat split.
  - destruct (setItemState_complete env it c t true Search cfg group w Hc Ht)
      as (w1 & -> & _). apply bySearch_apply.
  - destruct (setItemState_complete env it c t true Search cfg group w Hc Ht)
      as (w1 & -> & _). rewrite searchOpened_apply. set_solver.
  - destruct (setItemState_complete env it c t true User cfg group w Hc Ht)
      as (w1 & -> & _). apply bySearch_apply.
  - destruct (setItemState_complete env it c t true User cfg group w Hc Ht)
      as (w1 & -> & _). rewrite searchOpened_apply. set_solver.
  - destruct (setItemState_complete env it c t false Search cfg group w Hc Ht)
      as (w1 & -> & _). apply bySearch_apply.
  - destruct (setItemState_complete env it c t false Search cfg group w Hc Ht)
      as (w1 & -> & _). rewrite searchOpened_apply. set_solver.
  - destruct (setItemState_complete env it c t false User cfg group w Hc Ht)
      as (w1 & -> & Hw & _). rewrite (Hw eq_refl). apply bySearch_apply.
  - destruct (setItemState_complete env it c t false User cfg group w Hc Ht)
      as (w1 & -> & Hw & _). rewrite (Hw eq_refl). apply searchOpened_apply.
Qed.

Lemma C1_provenance_bookkeeping_witness :
  getAttribute
    (dom (setItemState Page.browser Page.faqItem true Search DEFAULTS
            (Some Page.faqGroup) Page.fresh))
    11 ATTR.dataOpenedBySearch = Some "true".
Proof.
  exact (proj1 (proj1
    (C1_provenance_bookkeeping Page.browser Page.faqItem 16 12 DEFAULTS
       (Some Page.faqGroup) Page.fresh eq_refl eq_refl))).
Defined.

(** C1, as stated, fails: the item of the page is opened by a search and
    then closed through the API, that is with provenance "user"; the
    opened-by-search marker and the membership in the search-opened set are
    still there. *)
Lemma C1_close_by_user_keeps_provenance :
  match Page.searched Page.noLayout with
  | Some w =>
      let w' := api_close Page.noLayout (Page.inst Page.noLayout) Page.faqItem w in
      marker (dom w') Page.faqItem = Some "false"
      /\ getAttribute (dom w') 11 ATTR.dataOpenedBySearch = Some "true"
      /\ bool_decide (11%nat ∈ searchOpenedItems (searchState w')) = true
  | None => False
  end.
Proof. vm_compute. repeat split. Qed.

(** The marker and the active class after [toggle], when the reading of
    [isItemOpen] is known. *)
Lemma toggle_complete env inst it c t w :
  content it = Some c -> trigger it = Some t ->
  iconOpen it <> Some (item it) -> iconClose it <> Some (item it) ->
  let b := negb (isItemOpen env (dom w) it) in
  marker (dom (toggle env inst it w)) it = Some (boolString b)
  /\ classContains (dom (toggle env inst it w)) (item it)
                   (activeClass (classes (instConfig inst))) = b.
Proof.
  intros Hc Ht Hio Hic b. unfold toggle. fold b.
  destruct (setItemState_complete env it c t b User (instConfig inst)
              (findGroup (instGroups inst) it) w Hc Ht) as (w1 & -> & _).
  split.
  - unfold marker. rewrite marker_apply. by rewrite decide_True.
  - by apply class_apply.
Qed.




(* ===================================================================== *)
(** ** Accordion *)
(* ===================================================================== *)

Section Accordion.

Variable env : Env.

Lemma setItemStateNoGroup_complete it c t open src cfg w :
  content it = Some c -> trigger it = Some t ->
  setItemStateNoGroup env it open src cfg w = applyItemState env it c t open src cfg w.
Proof.
  intros Hc Ht. unfold setItemStateNoGroup, setItemStateWith. by rewrite Hc, Ht.
Qed.

Lemma setItemStateNoGroup_incomplete it open src cfg w :
  content it = None \/ trigger it = None ->
  setItemStateNoGroup env it open src cfg w = w.
Proof.
  intros H. unfold setItemStateNoGroup, setItemStateWith.
  destruct (content it), (trigger it); destruct H; congruence.
Qed.

(** The recursive call of [setItemState] is [setItemState] without group:
    the definition satisfies the equation of the source. *)
Lemma setItemState_equation it open src cfg group w :
  setItemState env it open src cfg group w =
  setItemStateWith env (fun s o sr cf w0 => setItemState env s o sr cf None w0)
                   it open src cfg group w.
Proof. reflexivity. Qed.

(** Without group the recursive call is not reached, whatever it is. *)
Lemma setItemStateWith_no_group recur it open src cfg w :
  setItemStateWith env recur it open src cfg None w =
  setItemStateNoGroup env it open src cfg w.
Proof. reflexivity. Qed.

(** Closing never reaches it either. *)
Lemma setItemStateWith_closing recur it src cfg group w :
  setItemStateWith env recur it false src cfg group w =
  setItemStateNoGroup env it false src cfg w.
Proof.
  unfold setItemStateNoGroup, setItemStateWith.
  destruct (content it), (trigger it), group; reflexivity.
Qed.

Lemma getEl_setAttribute_ne e k v d x :
  e <> x -> getEl (setAttribute e k v d) x = getEl d x.
Proof. intros H. unfold setAttribute. by rewrite getEl_updEl, decide_False. Qed.

Lemma getEl_removeAttribute_ne e k d x :
  e <> x -> getEl (removeAttribute e k d) x = getEl d x.
Proof. intros H. unfold removeAttribute. by rewrite getEl_updEl, decide_False. Qed.

Lemma getEl_classToggle_ne e c b d x :
  e <> x -> getEl (classToggle e c b d) x = getEl d x.
Proof.
  intros H. destruct b; unfold classToggle, classAdd, classRemove;
    by rewrite getEl_updEl, decide_False.
Qed.

Lemma getEl_setStyle_ne e k v d x :
  e <> x -> getEl (setStyle e k v d) x = getEl d x.
Proof. intros H. unfold setStyle. by rewrite getEl_updEl, decide_False. Qed.

Lemma getEl_setIconVisibility_ne icon b d x :
  icon <> Some x -> getEl (setIconVisibility icon b d) x = getEl d x.
Proof.
  intros H. destruct icon as [i |]; [| done]. unfold setIconVisibility.
  rewrite !getEl_classToggle_ne; [done | congruence | congruence].
Qed.

Lemma getEl_expand el w x :
  el <> x -> getEl (dom (expandElement env el w)) x = getEl (dom w) x.
Proof.
  intros H. unfold expandElement. cbn [dom addEventListener setListeners onDom].
  rewrite !getEl_setStyle_ne by done. cbn [dom stampAnimation].
  by apply getEl_removeAttribute_ne.
Qed.

Lemma getEl_collapse el w x :
  el <> x -> getEl (dom (collapseElement env el w)) x = getEl (dom w) x.
Proof.
  intros H. unfold collapseElement.
  destruct (hasAttribute _ _ _);
    cbn [dom addEventListener setListeners onDom stampAnimation];
    by rewrite !getEl_setStyle_ne.
Qed.

(** [applyItemState] writes to the elements of its item only. *)
Lemma getEl_apply it c t open src cfg w x :
  content it = Some c -> trigger it = Some t ->
  x ∉ itemElems it ->
  getEl (dom (applyItemState env it c t open src cfg w)) x = getEl (dom w) x.
Proof.
  intros Hc Ht Hx. unfold itemElems in Hx. rewrite Hc, Ht in Hx.
  assert (Hi : item it <> x) by (intros E; apply Hx; rewrite <- E; set_solver).
  assert (Hxt : t <> x) by (intros ->; apply Hx; set_solver).
  assert (Hxc : c <> x) by (intros ->; apply Hx; set_solver).
  assert (Hio : iconOpen it <> Some x).
  { intros E. apply Hx. rewrite E. set_solver. }
  assert (Hic : iconClose it <> Some x).
  { intros E. apply Hx. rewrite E. destruct (iconOpen it); set_solver. }
  assert (Hpre : forall d,
    getEl (setIconVisibility (iconClose it) (negb open)
             (setIconVisibility (iconOpen it) open
                (classToggle (item it) (activeClass (classes cfg)) open
                   (setAttribute (item it) ATTR.dataOpen (boolString open)
                      (setAttribute t "aria-expanded" (boolString open) d))))) x
    = getEl d x).
  { intros d. rewrite !getEl_setIconVisibility_ne by done.
    rewrite getEl_classToggle_ne by done. by rewrite !getEl_setAttribute_ne. }
  unfold applyItemState.
  destruct open, src;
    cbn [dom dispatchEvent searchOpenedAdd searchOpenedDelete setSearchState onDom];
    rewrite ?getEl_setAttribute_ne, ?getEl_removeAttribute_ne by done;
    rewrite ?getEl_expand, ?getEl_collapse by done;
    cbn [dom onDom]; apply Hpre.
Qed.

Lemma getEl_closeNoGroup s src cfg w x :
  x ∉ itemElems s ->
  getEl (dom (setItemStateNoGroup env s false src cfg w)) x = getEl (dom w) x.
Proof.
  intros Hx.
  destruct (content s) as [c |] eqn:Hc; [destruct (trigger s) as [t |] eqn:Ht |].
  - rewrite (setItemStateNoGroup_complete s c t) by assumption. by apply getEl_apply.
  - rewrite setItemStateNoGroup_incomplete; [done | by right].
  - rewrite setItemStateNoGroup_incomplete; [done | by left].
Qed.

(** A forced closure writes "false" to the marker of the closed item and to
    no other marker. *)
Lemma marker_closeNoGroup s src cfg w x :
  getAttribute (dom (setItemStateNoGroup env s false src cfg w)) x ATTR.dataOpen
    = getAttribute (dom w) x ATTR.dataOpen
  \/ getAttribute (dom (setItemStateNoGroup env s false src cfg w)) x ATTR.dataOpen
    = Some "false".
Proof.
  destruct (content s) as [c |] eqn:Hc; [destruct (trigger s) as [t |] eqn:Ht |].
  - rewrite (setItemStateNoGroup_complete s c t) by assumption.
    rewrite marker_apply. case_decide; [by right | by left].
  - left. rewrite setItemStateNoGroup_incomplete; [done | by right].
  - left. rewrite setItemStateNoGroup_incomplete; [done | by left].
Qed.

Lemma marker_closeSiblings_step X src cfg w s x :
  getAttribute (dom (closeSiblings env (setItemStateNoGroup env) X src cfg w s)) x
               ATTR.dataOpen = getAttribute (dom w) x ATTR.dataOpen
  \/ getAttribute (dom (closeSiblings env (setItemStateNoGroup env) X src cfg w s)) x
               ATTR.dataOpen = Some "false".
Proof.
  unfold closeSiblings. destruct (_ && _); [apply marker_closeNoGroup | by left].
Qed.

(** Through the whole [forEach], a marker that reads "false" keeps reading
    "false". *)
Lemma marker_closeSiblings_false X src cfg l w x :
  getAttribute (dom w) x ATTR.dataOpen = Some "false" ->
  getAttribute (dom (foldl (closeSiblings env (setItemStateNoGroup env) X src cfg) w l))
               x ATTR.dataOpen = Some "false".
Proof.
  revert w. induction l as [| s l IH]; intros w H; [done |].
  simpl. apply IH.
  destruct (marker_closeSiblings_step X src cfg w s x) as [-> | ->]; done.
Qed.

(** The step of the [forEach] at a sibling that has its parts and a marker:
    the marker reads "false" afterwards. *)
Lemma marker_closeSiblings_at X src cfg w s :
  oid s <> oid X -> complete s ->
  marker (dom w) s = Some "true" \/ marker (dom w) s = Some "false" ->
  marker (dom (closeSiblings env (setItemStateNoGroup env) X src cfg w s)) s
    = Some "false".
Proof.
  intros Ho [[c Hc] [t Ht]] Hm. unfold closeSiblings.
  rewrite bool_decide_eq_false_2 by assumption. simpl.
  destruct Hm as [Hm | Hm].
  - assert (Hopen : isItemOpen env (dom w) s = true).
    { unfold isItemOpen. unfold marker in Hm. rewrite Hm.
      by rewrite bool_decide_eq_true_2. }
    rewrite Hopen. rewrite (setItemStateNoGroup_complete s c t) by assumption.
    unfold marker. rewrite marker_apply. by rewrite decide_True.
  - destruct (isItemOpen env (dom w) s); [| done].
    rewrite (setItemStateNoGroup_complete s c t) by assumption.
    unfold marker. rewrite marker_apply. by rewrite decide_True.
Qed.

Lemma marker_closeSiblings X src cfg l w s :
  s ∈ l -> oid s <> oid X -> complete s ->
  marker (dom w) s = Some "true" \/ marker (dom w) s = Some "false" ->
  marker (dom (foldl (closeSiblings env (setItemStateNoGroup env) X src cfg) w l)) s
    = Some "false".
Proof.
  intros Hin Ho Hs. revert w.
  induction l as [| s' l IH]; intros w Hm; [by apply elem_of_nil in Hin |].
  simpl. apply elem_of_cons in Hin as [<- | Hin].
  - apply marker_closeSiblings_false.
    by apply marker_closeSiblings_at.
  - apply (IH Hin).
    unfold marker in *.
    destruct (marker_closeSiblings_step X src cfg w s' (item s)) as [-> | ->];
      [done | by right].
Qed.

Lemma getEl_closeSiblings X src cfg l w x :
  x ∉ flat_map itemElems l ->
  getEl (dom (foldl (closeSiblings env (setItemStateNoGroup env) X src cfg) w l)) x
    = getEl (dom w) x.
Proof.
  revert w. induction l as [| s l IH]; intros w Hx; [done |].
  simpl in *. rewrite IH by set_solver.
  unfold closeSiblings. destruct (_ && _); [| done].
  apply getEl_closeNoGroup. set_solver.
Qed.

End Accordion.


Lemma parse_accordionDocument :
  parseFaqGroups Page.accordionDocument = [Page.accordionGroup; Page.plainGroup].
Proof. vm_compute. reflexivity. Qed.


(* ===================================================================== *)
(** ** Match navigation *)
(* ===================================================================== *)

Lemma node_ind_forall (P : node -> Prop) :
  (forall s, P (Text s)) ->
  (forall e ks, Forall P ks -> P (Elem e ks)) ->
  forall n, P n.
Proof.
  intros HT HE. fix IH 1. intros [s | e ks]; [apply HT | apply HE].
  induction ks as [| k ks IHks]; constructor; [apply IH | exact IHks].
Qed.

(** The ring of match indices: JavaScript's [%] is the truncating remainder,
    so [((i % n) + n) % n] is the mathematical residue. *)
Lemma ring_index i n :
  0 < n -> Z.rem (Z.rem i n + n) n = i mod n.
Proof.
  intros Hn.
  assert (Hr : Z.abs (Z.rem i n) < Z.abs n) by (apply Z.rem_bound_abs; lia).
  assert (Hq : i = n * Z.quot i n + Z.rem i n) by (apply Z.quot_rem'; lia).
  rewrite Z.rem_mod_nonneg by lia.
  apply (Z.mod_unique_pos i n (Z.quot i n + (Z.rem i n + n) / n - 1)).
  - apply Z.mod_pos_bound. lia.
  - pose proof (Z.div_mod (Z.rem i n + n) n ltac:(lia)) as Hd. lia.
Qed.

Lemma class_removeAll_false cls l d x :
  classContains d x cls = false \/ x ∈ l ->
  classContains (foldl (fun d el => classRemove el cls d) d l) x cls = false.
Proof.
  revert d. induction l as [| e l IH]; intros d H; simpl.
  - destruct H as [H | H]; [done | by apply elem_of_nil in H].
  - apply IH. destruct H as [H | H].
    + left. by apply class_remove_false.
    + apply elem_of_cons in H as [-> | H]; [left; apply class_remove_same | by right].
Qed.

Lemma tree_removeAll cls l d :
  tree (foldl (fun d el => classRemove el cls d) d l) = tree d.
Proof. revert d. induction l as [| e l IH]; intros d; simpl; [done | by rewrite IH]. Qed.

Lemma attr_removeAll cls l d x k :
  getAttribute (foldl (fun d el => classRemove el cls d) d l) x k = getAttribute d x k.
Proof.
  revert d. induction l as [| e l IH]; intros d; simpl; [done |].
  by rewrite IH, attr_classRemove.
Qed.

(** After [removeClassEverywhere] no element of the document carries the
    class. *)
Lemma removeClassEverywhere_clean cls d x :
  x ∈ treeElems (tree d) ->
  classContains (removeClassEverywhere cls d) x cls = false.
Proof.
  intros Hx. unfold removeClassEverywhere. apply class_removeAll_false.
  destruct (classContains d x cls) eqn:E; [right | by left].
  unfold querySelectorAll. apply list_elem_of_filter. split; [exact E | exact Hx].
Qed.

Lemma tree_removeClassEverywhere cls d : tree (removeClassEverywhere cls d) = tree d.
Proof. unfold removeClassEverywhere. apply tree_removeAll. Qed.

Lemma attr_removeClassEverywhere cls d x k :
  getAttribute (removeClassEverywhere cls d) x k = getAttribute d x k.
Proof. unfold removeClassEverywhere. apply attr_removeAll. Qed.

(** Rewriting the children of an element into text nodes brings no element
    into the document. *)
Lemma nodeElems_mapAt_sub r f n :
  (forall ks, treeElems (f ks) ⊆ treeElems ks) ->
  nodeElems (mapAt r f n) ⊆ nodeElems n.
Proof.
  intros Hf. induction n as [s | e ks IH] using node_ind_forall; [done |].
  simpl. case_decide; simpl.
  - specialize (Hf ks). unfold treeElems in Hf. set_solver.
  - apply list_subseteq_skip. clear H.
    induction IH as [| k ks Hk _ IHks]; simpl; [done |]. set_solver.
Qed.

Lemma treeElems_mapAt_sub r f t :
  (forall ks, treeElems (f ks) ⊆ treeElems ks) ->
  treeElems (map (mapAt r f) t) ⊆ treeElems t.
Proof.
  intros Hf. unfold treeElems. induction t as [| n t IH]; simpl; [done |].
  pose proof (nodeElems_mapAt_sub r f n Hf). set_solver.
Qed.

Lemma treeElems_setTextContent c s d :
  treeElems (tree (setTextContent c s d)) ⊆ treeElems (tree d).
Proof.
  unfold setTextContent; simpl. apply treeElems_mapAt_sub.
  intros ks. case_decide; set_solver.
Qed.

Lemma counter_text_nonempty (a b : string) : a +:+ "/" +:+ b <> "".
Proof. destruct a; discriminate. Qed.

Lemma updateMatchCounter_store counterEl ss d :
  store (updateMatchCounter counterEl ss d) = store d.
Proof. by destruct counterEl. Qed.

Lemma class_updateMatchCounter counterEl ss d x c :
  classContains (updateMatchCounter counterEl ss d) x c = classContains d x c.
Proof. by destruct counterEl. Qed.

Lemma treeElems_updateMatchCounter counterEl ss d :
  treeElems (tree (updateMatchCounter counterEl ss d)) ⊆ treeElems (tree d).
Proof.
  destruct counterEl; simpl; [| done]. apply treeElems_setTextContent.
Qed.


(* ===================================================================== *)
(** ** Clearing highlights *)
(* ===================================================================== *)

Lemma elem_of_flat_map {A B} (f : A -> list B) (l : list A) (x : B) :
  x ∈ flat_map f l <-> exists k, k ∈ l /\ x ∈ f k.
Proof.
  rewrite list_elem_of_In, in_flat_map. split; intros (k & Hk & Hx); exists k.
  - by rewrite !list_elem_of_In.
  - by rewrite <- !list_elem_of_In.
Qed.

Lemma flat_map_subseteq {A B} (f g : A -> list B) (l : list A) :
  Forall (fun k => f k ⊆ g k) l -> flat_map f l ⊆ flat_map g l.
Proof.
  intros H x. rewrite !elem_of_flat_map. intros (k & Hk & Hx).
  exists k. split; [done |]. rewrite Forall_forall in H. by apply (H k).
Qed.

(** Merging text nodes leaves the elements where they are. *)
Lemma flat_map_mergeText {B} (g : node -> list B) (ns : list node) :
  (forall s, g (Text s) = []) ->
  flat_map g (mergeText ns) = flat_map g ns.
Proof.
  intros Hg. induction ns as [| [s | e ks] rest IH]; simpl; [done | |].
  - rewrite Hg. simpl. case_decide; [done |].
    destruct (mergeText rest) as [| [s' | e' ks'] rest'] eqn:E; simpl in *;
      rewrite ?Hg in *; simpl in *; by rewrite ?Hg.
  - by rewrite IH.
Qed.

Lemma nodeElems_normalizeNode n : nodeElems (normalizeNode n) = nodeElems n.
Proof.
  induction n as [s | e ks IH] using node_ind_forall; [done |].
  simpl. f_equal. rewrite flat_map_mergeText by done.
  induction IH as [| k ks Hk _ IHks]; simpl; [done |]. by rewrite Hk, IHks.
Qed.

Lemma treeElems_normalizeKids ks : treeElems (normalizeKids ks) = treeElems ks.
Proof.
  unfold normalizeKids, treeElems. rewrite flat_map_mergeText by done.
  induction ks as [| k ks IH]; simpl; [done |].
  by rewrite nodeElems_normalizeNode, IH.
Qed.

Lemma descNode_normalizeNode r n : descNode r (normalizeNode n) = descNode r n.
Proof.
  induction n as [s | e ks IH] using node_ind_forall; [done |].
  simpl. case_decide.
  - apply treeElems_normalizeKids.
  - rewrite flat_map_mergeText by done.
    induction IH as [| k ks Hk _ IHks]; simpl; [done |]. by rewrite Hk, IHks.
Qed.

Lemma descendants_normalizeKids r ks :
  descendants r (normalizeKids ks) = descendants r ks.
Proof.
  unfold normalizeKids, descendants. rewrite flat_map_mergeText by done.
  induction ks as [| k ks IH]; simpl; [done |].
  by rewrite descNode_normalizeNode, IH.
Qed.

Lemma descNode_sub r n : descNode r n ⊆ nodeElems n.
Proof.
  induction n as [s | e ks IH] using node_ind_forall; [done |].
  simpl. case_decide.
  - set_solver.
  - apply list_subseteq_cons. by apply flat_map_subseteq.
Qed.

Lemma descendants_sub r t : descendants r t ⊆ treeElems t.
Proof.
  apply flat_map_subseteq, Forall_forall. intros k _. apply descNode_sub.
Qed.

Lemma clearMark_unfold m ks :
  clearMark m ks =
  if existsb (isElem m) ks then normalizeKids (map (clearChild m) ks)
  else map (clearChild m) ks.
Proof. reflexivity. Qed.

Lemma clearMarkNode_unfold m e ks :
  clearMarkNode m (Elem e ks) = Elem e (clearMark m ks).
Proof. reflexivity. Qed.

Lemma flat_map_clearMark {B} (g : node -> list B) m ks :
  (forall s, g (Text s) = []) ->
  (forall n, g (normalizeNode n) = g n) ->
  flat_map g (clearMark m ks) = flat_map g (map (clearChild m) ks).
Proof.
  intros Hg Hn. rewrite clearMark_unfold. destruct (existsb _ _); [| done].
  unfold normalizeKids. rewrite flat_map_mergeText by done.
  induction (map (clearChild m) ks) as [| k l IH]; simpl; [done |].
  by rewrite Hn, IH.
Qed.

(** Clearing a mark brings no element into the tree and takes the mark
    out. *)
Lemma nodeElems_clearChild m n :
  nodeElems (clearChild m n) ⊆ nodeElems n /\ m ∉ nodeElems (clearChild m n).
Proof.
  induction n as [s | e ks IH] using node_ind_forall.
  - unfold clearChild; simpl. split; [done | apply not_elem_of_nil].
  - unfold clearChild. simpl isElem. case_bool_decide as He.
    + simpl. split; [set_solver | apply not_elem_of_nil].
    + rewrite clearMarkNode_unfold. simpl.
      rewrite (flat_map_clearMark nodeElems) by (done || apply nodeElems_normalizeNode).
      rewrite flat_map_concat_map, map_map, <- flat_map_concat_map.
      split.
      * apply list_subseteq_skip. apply flat_map_subseteq.
        eapply Forall_impl; [exact IH |]. by intros k [Hk _].
      * rewrite not_elem_of_cons. split; [congruence |].
        rewrite elem_of_flat_map. intros (k & Hk & Hm).
        rewrite Forall_forall in IH. by destruct (IH k Hk) as [_ Hnot].
Qed.

Lemma treeElems_clearMark m t :
  treeElems (clearMark m t) ⊆ treeElems t /\ m ∉ treeElems (clearMark m t).
Proof.
  unfold treeElems.
  rewrite (flat_map_clearMark nodeElems) by (done || apply nodeElems_normalizeNode).
  rewrite flat_map_concat_map, map_map, <- flat_map_concat_map.
  split.
  - apply flat_map_subseteq, Forall_forall. intros k _. apply nodeElems_clearChild.
  - rewrite elem_of_flat_map. intros (k & _ & Hm).
    by destruct (nodeElems_clearChild m k) as [_ Hnot].
Qed.

Lemma descNode_clearChild r m n : descNode r (clearChild m n) ⊆ descNode r n.
Proof.
  induction n as [s | e ks IH] using node_ind_forall; [done |].
  unfold clearChild. simpl isElem. case_bool_decide as He.
  - simpl. apply list_subseteq_nil.
  - rewrite clearMarkNode_unfold. simpl. case_decide.
    + apply (proj1 (treeElems_clearMark m ks)).
    + rewrite (flat_map_clearMark (descNode r)) by (done || apply descNode_normalizeNode).
      rewrite flat_map_concat_map, map_map, <- flat_map_concat_map.
      by apply flat_map_subseteq.
Qed.

Lemma descendants_clearMark r m t :
  descendants r (clearMark m t) ⊆ descendants r t.
Proof.
  unfold descendants.
  rewrite (flat_map_clearMark (descNode r)) by (done || apply descNode_normalizeNode).
  rewrite flat_map_concat_map, map_map, <- flat_map_concat_map.
  apply flat_map_subseteq, Forall_forall. intros k _. apply descNode_clearChild.
Qed.

Lemma clearMarks_store ms d : store (clearMarks ms d) = store d.
Proof.
  unfold clearMarks. revert d. induction ms as [| m ms IH]; intros d; simpl; [done |].
  by rewrite IH.
Qed.

Lemma clearMarks_getEl ms d x : getEl (clearMarks ms d) x = getEl d x.
Proof. unfold getEl. by rewrite clearMarks_store. Qed.

Lemma clearMarks_tree ms d r :
  treeElems (tree (clearMarks ms d)) ⊆ treeElems (tree d)
  /\ descendants r (tree (clearMarks ms d)) ⊆ descendants r (tree d)
  /\ forall m, m ∈ ms -> m ∉ treeElems (tree (clearMarks ms d)).
Proof.
  unfold clearMarks. revert d. induction ms as [| m ms IH]; intros d; simpl.
  - repeat split; [done | done |]. intros m Hm. by apply elem_of_nil in Hm.
  - destruct (IH (withTree d (clearMark m (tree d)))) as (H1 & H2 & H3). simpl in *.
    destruct (treeElems_clearMark m (tree d)) as [Hsub Hnot].
    pose proof (descendants_clearMark r m (tree d)) as Hdesc.
    repeat split.
    + set_solver.
    + set_solver.
    + intros m' Hm'. apply elem_of_cons in Hm' as [-> | Hm']; [| by apply H3].
      intros Hin. apply Hnot. by apply H1.
Qed.

Lemma filter_nil_false {A} (P : A -> bool) (l : list A) :
  (forall x, x ∈ l -> P x = false) -> filter (fun x => P x = true) l = [].
Proof.
  induction l as [| a l IH]; intros H; [done |].
  rewrite filter_cons. destruct (decide (P a = true)) as [E | E].
  - rewrite (H a) in E by left. done.
  - apply IH. intros x Hx. apply H. by right.
Qed.

Lemma noMarks_query d root cls :
  noMarks d root cls -> querySelectorAllIn d root (markSel cls) = [].
Proof. intros H. unfold querySelectorAllIn. by apply filter_nil_false. Qed.

Lemma noMarks_mono d1 d2 r cls :
  descendants r (tree d2) ⊆ descendants r (tree d1) ->
  (forall e, selMatches d2 (markSel cls) e = true -> selMatches d1 (markSel cls) e = true) ->
  noMarks d1 r cls -> noMarks d2 r cls.
Proof.
  intros Hsub Hsel H e He.
  destruct (selMatches d2 (markSel cls) e) eqn:E; [| done].
  apply Hsel in E. rewrite (H e) in E; [done | by apply Hsub].
Qed.

Lemma selMatches_ext d1 d2 sel e :
  getEl d2 e = getEl d1 e -> selMatches d2 sel e = selMatches d1 sel e.
Proof.
  intros H. induction sel; simpl;
    unfold getAttribute, classContains; rewrite ?H; try done.
  by rewrite IHsel1, IHsel2.
Qed.

Lemma clearHighlights_clearMarks root cls d :
  clearHighlights root cls d = clearMarks (querySelectorAllIn d root (markSel cls)) d.
Proof. reflexivity. Qed.

Lemma clearHighlights_getEl root cls d x : getEl (clearHighlights root cls d) x = getEl d x.
Proof. rewrite clearHighlights_clearMarks. apply clearMarks_getEl. Qed.

Lemma clearHighlights_own root cls d : noMarks (clearHighlights root cls d) root cls.
Proof.
  intros e He. rewrite clearHighlights_clearMarks in *.
  destruct (clearMarks_tree (querySelectorAllIn d root (markSel cls)) d root)
    as (_ & Hdesc & Hgone).
  destruct (selMatches _ _ e) eqn:E; [| done]. exfalso.
  rewrite (selMatches_ext d) in E by apply clearMarks_getEl.
  apply (Hgone e).
  - unfold querySelectorAllIn. apply list_elem_of_filter. split; [done | by apply Hdesc].
  - by apply (descendants_sub root).
Qed.

Lemma clearHighlights_other root cls d r cls' :
  noMarks d r cls' -> noMarks (clearHighlights root cls d) r cls'.
Proof.
  apply noMarks_mono.
  - rewrite clearHighlights_clearMarks. apply clearMarks_tree.
  - intros e. by rewrite (selMatches_ext d) by apply clearHighlights_getEl.
Qed.

(** The first loop of [clearAllHighlights]. *)
Lemma clearItems_spec cls l d :
  let d' := foldl (fun d it => clearHighlights (item it) cls d) d l in
  (forall r, noMarks d r cls -> noMarks d' r cls)
  /\ (forall it, it ∈ l -> noMarks d' (item it) cls)
  /\ (forall x, getEl d' x = getEl d x).
Proof.
  revert d. induction l as [| a l IH]; intros d; simpl.
  - split; [done | split; [| done]]. intros it Hit. by apply elem_of_nil in Hit.
  - destruct (IH (clearHighlights (item a) cls d)) as (H1 & H2 & H3).
    split; [| split].
    + intros r Hr. by apply H1, clearHighlights_other.
    + intros it Hit. apply elem_of_cons in Hit as [-> | Hit]; [| by apply H2].
      apply H1, clearHighlights_own.
    + intros x. by rewrite H3, clearHighlights_getEl.
Qed.

Lemma class_removeAll_other cls l d x c :
  cls <> c ->
  classContains (foldl (fun d el => classRemove el cls d) d l) x c = classContains d x c.
Proof.
  intros Hne. revert d. induction l as [| e l IH]; intros d; simpl; [done |].
  rewrite IH. apply class_remove_other. by right.
Qed.

Lemma class_removeAll_mono cls l d x c :
  classContains (foldl (fun d el => classRemove el cls d) d l) x c = true ->
  classContains d x c = true.
Proof.
  revert d. induction l as [| e l IH]; intros d; simpl; [done |].
  intros H. apply IH in H.
  destruct (classContains d x c) eqn:E; [done |].
  by rewrite class_remove_false in H.
Qed.

Lemma tagName_removeAll cls l d x :
  tagName (getEl (foldl (fun d el => classRemove el cls d) d l) x) = tagName (getEl d x).
Proof.
  revert d. induction l as [| e l IH]; intros d; simpl; [done |].
  rewrite IH. unfold classRemove. rewrite getEl_updEl. by case_decide; subst.
Qed.

Lemma noMarks_removeClassEverywhere cur d r cls :
  noMarks d r cls -> noMarks (removeClassEverywhere cur d) r cls.
Proof.
  apply noMarks_mono.
  - by rewrite tree_removeClassEverywhere.
  - intros e. unfold removeClassEverywhere. simpl.
    rewrite tagName_removeAll. rewrite !andb_true_iff.
    intros [Ht Hc]. split; [done |]. by apply class_removeAll_mono in Hc.
Qed.

Lemma noMarks_setStyle e k v d r cls :
  noMarks d r cls -> noMarks (setStyle e k v d) r cls.
Proof.
  apply noMarks_mono; [done |].
  intros x. simpl. rewrite class_setStyle.
  unfold setStyle. rewrite getEl_updEl. by case_decide; subst.
Qed.

Lemma noMarks_updateEmptyState b d r cls :
  noMarks d r cls -> noMarks (updateEmptyState b d) r cls.
Proof.
  intros H. unfold updateEmptyState. destruct (querySelector _ _); [| done].
  by apply noMarks_setStyle.
Qed.

Lemma attr_updateEmptyState b d x k :
  getAttribute (updateEmptyState b d) x k = getAttribute d x k.
Proof.
  unfold updateEmptyState. destruct (querySelector _ _); [| done]. apply attr_setStyle.
Qed.

Lemma class_updateEmptyState b d x c :
  classContains (updateEmptyState b d) x c = classContains d x c.
Proof.
  unfold updateEmptyState. destruct (querySelector _ _); [| done]. apply class_setStyle.
Qed.

Lemma querySelectorAll_setStyle e k v d sel :
  querySelectorAll (setStyle e k v d) sel = querySelectorAll d sel.
Proof.
  unfold querySelectorAll. simpl. apply list_filter_iff. intros x.
  enough (selMatches (setStyle e k v d) sel x = selMatches d sel x) as -> by done.
  induction sel; simpl; rewrite ?attr_setStyle, ?class_setStyle; try done.
  - f_equal. unfold setStyle. rewrite getEl_updEl. by case_decide; subst.
  - f_equal. unfold setStyle. rewrite getEl_updEl. by case_decide; subst.
  - by rewrite IHsel1, IHsel2.
Qed.

Lemma getStyle_setStyle e k v d : v <> "" -> getStyle (setStyle e k v d) e k = v.
Proof.
  intros Hv. unfold getStyle, setStyle. rewrite getEl_updEl, decide_True by done.
  simpl. rewrite decide_False by done. by rewrite lookup_insert_eq.
Qed.

(** After [updateEmptyState(true)] the empty-state element, if the page has
    one, is not displayed. *)
Lemma updateEmptyState_hides d e :
  querySelector (updateEmptyState true d) (roleSel ROLES.emptyState) = Some e ->
  getStyle (updateEmptyState true d) e "display" = "none".
Proof.
  unfold updateEmptyState.
  destruct (querySelector d (roleSel ROLES.emptyState)) as [e0 |] eqn:E.
  - unfold querySelector in *. rewrite querySelectorAll_setStyle, E.
    intros [= <-]. by apply getStyle_setStyle.
  - by rewrite E.
Qed.

Section EmptyQuery.

Variable env : Env.

Lemma clearAllHighlights_spec allItems cfg w :
  let w' := clearAllHighlights allItems cfg w in
  (forall it, it ∈ allItems -> noMarks (dom w') (item it) (highlightClass (classes cfg)))
  /\ marks (searchState w') = [] /\ currentIndex (searchState w') = -1
  /\ (forall x k, getAttribute (dom w') x k = getAttribute (dom w) x k)
  /\ (forall x c, c <> currentHighlightClass (classes cfg) ->
                  classContains (dom w') x c = classContains (dom w) x c)
  /\ searchOpenedItems (searchState w') = searchOpenedItems (searchState w)
  /\ dispatched w' = dispatched w
  /\ animationTimestamps w' = animationTimestamps w
  /\ listeners w' = listeners w.
Proof.
  intros w'.
  destruct (clearItems_spec (highlightClass (classes cfg)) allItems (dom w))
    as (_ & Hown & Hel).
  unfold w', clearAllHighlights.
  cbn [setCurrentIndex setMarks setSearchState onDom dom searchState marks currentIndex
       searchOpenedItems dispatched animationTimestamps listeners].
  repeat split.
  - intros it Hit. by apply noMarks_removeClassEverywhere, Hown.
  - intros x k. rewrite attr_removeClassEverywhere. unfold getAttribute. by rewrite Hel.
  - intros x c Hc. unfold removeClassEverywhere.
    rewrite class_removeAll_other by congruence. unfold classContains. by rewrite Hel.
Qed.

End EmptyQuery.


(* ===================================================================== *)
(** ** Strings *)
(* ===================================================================== *)

Lemma lowerChar_idem c : Js.lowerChar (Js.lowerChar c) = Js.lowerChar c.
Proof. destruct c as [[] [] [] [] [] [] [] []]; reflexivity. Qed.

Lemma isSpace_lowerChar c : Js.isSpace (Js.lowerChar c) = Js.isSpace c.
Proof. destruct c as [[] [] [] [] [] [] [] []]; reflexivity. Qed.

Lemma toLowerCase_idem s : Js.toLowerCase (Js.toLowerCase s) = Js.toLowerCase s.
Proof. induction s as [| c s IH]; simpl; [done |]. by rewrite lowerChar_idem, IH. Qed.

Lemma toLowerCase_trimStart s :
  Js.toLowerCase (Js.trimStart s) = Js.trimStart (Js.toLowerCase s).
Proof.
  induction s as [| c s IH]; simpl; [done |].
  rewrite isSpace_lowerChar. by destruct (Js.isSpace c).
Qed.

Lemma toLowerCase_empty s : Js.toLowerCase s = "" <-> s = "".
Proof. by destruct s. Qed.

Lemma toLowerCase_trimEnd s :
  Js.toLowerCase (Js.trimEnd s) = Js.trimEnd (Js.toLowerCase s).
Proof.
  induction s as [| c s IH]; simpl; [done |].
  rewrite <- IH, isSpace_lowerChar.
  destruct (Js.trimEnd s) as [| c' s']; simpl; [by destruct (Js.isSpace c) | done].
Qed.

Lemma trimStart_noLeading s : noLeadingSpace (Js.trimStart s).
Proof.
  induction s as [| c s IH]; simpl; [done |].
  destruct (Js.isSpace c) eqn:E; [done | exact E].
Qed.

Lemma trimStart_id s : noLeadingSpace s -> Js.trimStart s = s.
Proof. destruct s as [| c s]; simpl; [done |]. by intros ->. Qed.

Lemma trimEnd_noLeading s : noLeadingSpace s -> noLeadingSpace (Js.trimEnd s).
Proof.
  destruct s as [| c s]; simpl; [done |]. intros H.
  destruct (Js.trimEnd s); simpl; [by rewrite H | done].
Qed.

Lemma trimEnd_cons c r :
  Js.trimEnd (String c r) =
  match Js.trimEnd r with
  | EmptyString => if Js.isSpace c then EmptyString else String c EmptyString
  | r' => String c r'
  end.
Proof. reflexivity. Qed.

Lemma trimEnd_idem s : Js.trimEnd (Js.trimEnd s) = Js.trimEnd s.
Proof.
  induction s as [| c s IH]; [done |].
  rewrite (trimEnd_cons c s).
  destruct (Js.trimEnd s) as [| c' s'] eqn:E.
  - destruct (Js.isSpace c) eqn:Ec; [done |]. rewrite trimEnd_cons. simpl. by rewrite Ec.
  - rewrite trimEnd_cons, IH. done.
Qed.

Lemma trim_idem s : Js.trim (Js.trim s) = Js.trim s.
Proof.
  unfold Js.trim.
  rewrite (trimStart_id (Js.trimEnd (Js.trimStart s)))
    by apply trimEnd_noLeading, trimStart_noLeading.
  apply trimEnd_idem.
Qed.

(** Normalising twice is normalising once: [highlightText] normalises a
    query that [performSearch] has normalised already. *)
Lemma normalizeText_idem s : normalizeText (normalizeText s) = normalizeText s.
Proof.
  unfold normalizeText, Js.trim.
  rewrite toLowerCase_trimEnd, toLowerCase_trimStart, toLowerCase_idem.
  apply (trim_idem (Js.toLowerCase s)).
Qed.

Lemma toLowerCase_length s : String.length (Js.toLowerCase s) = String.length s.
Proof. induction s as [| c s IH]; simpl; [done | by rewrite IH]. Qed.

Lemma trimStart_length s : (String.length (Js.trimStart s) <= String.length s)%nat.
Proof.
  induction s as [| c s IH]; simpl; [done |]. destruct (Js.isSpace c); simpl; lia.
Qed.

Lemma trimEnd_length s : (String.length (Js.trimEnd s) <= String.length s)%nat.
Proof.
  induction s as [| c s IH]; simpl; [done |].
  destruct (Js.trimEnd s); [destruct (Js.isSpace c) |]; simpl in *; lia.
Qed.

Lemma normalizeText_length s :
  (String.length (normalizeText s) <= String.length s)%nat.
Proof.
  unfold normalizeText, Js.trim.
  pose proof (trimEnd_length (Js.trimStart (Js.toLowerCase s))).
  pose proof (trimStart_length (Js.toLowerCase s)).
  rewrite toLowerCase_length in *. lia.
Qed.

Lemma startsWith_length needle hay :
  Js.startsWith needle hay = true -> (String.length needle <= String.length hay)%nat.
Proof.
  revert hay. induction needle as [| a n IH]; intros [| b h]; simpl; try done; try lia.
  rewrite andb_true_iff. intros [_ H]. apply IH in H. lia.
Qed.

(** An index found by [indexOf] lies at or after the start position, and
    the occurrence fits into the string. *)
Lemma findFrom_bounds needle hay skip i :
  Js.findFrom needle hay skip i <> -1 -> 0 <= i ->
  i + Z.of_nat skip <= Js.findFrom needle hay skip i
  /\ Js.findFrom needle hay skip i + Js.len needle <= i + Js.len hay.
Proof.
  revert skip i. induction hay as [| c hay IH]; intros skip i; simpl.
  - destruct (Nat.eqb skip 0 && Js.startsWith needle "") eqn:E; [| done].
    apply andb_true_iff in E as [Hs Hp]. apply Nat.eqb_eq in Hs.
    apply startsWith_length in Hp. unfold Js.len. simpl in *. lia.
  - destruct (Nat.eqb skip 0 && Js.startsWith needle (String c hay)) eqn:E.
    + apply andb_true_iff in E as [Hs Hp]. apply Nat.eqb_eq in Hs.
      apply startsWith_length in Hp. unfold Js.len. simpl in *. lia.
    + intros Hne Hi. destruct (IH (Nat.pred skip) (i + 1) Hne ltac:(lia)) as [H1 H2].
      unfold Js.len in *. simpl String.length. lia.
Qed.

Lemma indexOf_bounds hay needle from :
  Js.indexOf hay needle from <> -1 -> 0 <= from ->
  Z.min from (Js.len hay) <= Js.indexOf hay needle from
  /\ Js.indexOf hay needle from + Js.len needle <= Js.len hay.
Proof.
  intros Hne Hfrom. unfold Js.indexOf in *.
  destruct (findFrom_bounds needle hay _ 0 Hne ltac:(lia)) as [H1 H2].
  unfold Js.len in *. lia.
Qed.

(* ===================================================================== *)
(** ** [highlightText] returns *)
(* ===================================================================== *)

Lemma splitLoop_total original lower normalised fuel pos :
  normalised <> "" -> 0 <= pos ->
  (0 < fuel)%nat -> Js.len lower - pos < Z.of_nat fuel ->
  is_Some (splitLoop fuel original lower normalised pos).
Proof.
  intros Hn. revert pos. induction fuel as [| fuel IH]; intros pos Hpos Hf Hm; [lia |].
  simpl. destruct (Js.indexOf lower normalised pos =? -1) eqn:E; [eauto |].
  apply Z.eqb_neq in E.
  destruct (indexOf_bounds lower normalised pos E Hpos) as [H1 H2].
  assert (Hlen : 0 < Js.len normalised).
  { unfold Js.len. destruct normalised; [done | simpl; lia]. }
  destruct (IH (Js.indexOf lower normalised pos + Js.len normalised)) as [rest Hrest];
    [lia | lia | lia |].
  rewrite Hrest. simpl. eauto.
Qed.

Lemma splitText_total original normalised :
  normalised <> "" -> is_Some (splitText original normalised).
Proof.
  intros Hn. unfold splitText. apply splitLoop_total; [done | lia | lia |].
  unfold Js.len. lia.
Qed.

Lemma walkNodes_total f l next :
  Forall (fun k => forall nx, is_Some (f k nx)) l -> is_Some (walkNodes f l next).
Proof.
  intros H. revert next. induction H as [| k l Hk _ IH]; intros next; simpl; [eauto |].
  destruct (Hk next) as [a ->]. simpl. destruct (IH a.2) as [b ->]. simpl. eauto.
Qed.

Lemma walkForest_total f l next :
  Forall (fun k => forall nx, is_Some (f k nx)) l -> is_Some (walkForest f l next).
Proof.
  intros H. revert next. induction H as [| k l Hk _ IH]; intros next; simpl; [eauto |].
  destruct (Hk next) as [a ->]. simpl. destruct (IH a.2) as [b ->]. simpl. eauto.
Qed.

Lemma hlNode_total normalised n next :
  normalised <> "" -> is_Some (hlNode normalised n next).
Proof.
  intros Hn. revert next.
  induction n as [s | e ks IH] using node_ind_forall; intros next.
  - simpl. destruct (Js.includes _ _); [| eauto].
    destruct (splitText_total s normalised Hn) as [rs ->]. simpl. eauto.
  - simpl. destruct (walkNodes_total (hlNode normalised) ks next IH) as [r ->].
    simpl. eauto.
Qed.

Lemma hlNodes_total normalised l next :
  normalised <> "" -> is_Some (hlNodes normalised l next).
Proof.
  intros Hn. apply walkNodes_total, Forall_forall. intros k _ nx.
  by apply hlNode_total.
Qed.

Lemma hlAt_total root normalised n next :
  normalised <> "" -> is_Some (hlAt root normalised n next).
Proof.
  intros Hn. revert next.
  induction n as [s | e ks IH] using node_ind_forall; intros next; [simpl; eauto |].
  simpl. case_decide.
  - destruct (hlNodes_total normalised ks next Hn) as [r ->]. simpl. eauto.
  - destruct (walkForest_total (hlAt root normalised) ks next IH) as [r ->].
    simpl. eauto.
Qed.

Lemma hlForest_total root normalised l next :
  normalised <> "" -> is_Some (hlForest root normalised l next).
Proof.
  intros Hn. apply walkForest_total, Forall_forall. intros k _ nx.
  by apply hlAt_total.
Qed.

(** [highlightText] returns whenever the normalised query is not empty (and
    also for the empty query, which it leaves at once). *)
Lemma highlightText_total root query cls d :
  normalizeText query <> "" -> is_Some (highlightText root query cls d).
Proof.
  intros Hn. unfold highlightText. case_decide; [eauto |].
  destruct (hlForest_total root (normalizeText query) (tree d) (freshElem d) Hn)
    as [r ->]. simpl. eauto.
Qed.

(* ===================================================================== *)
(** ** The search event *)
(* ===================================================================== *)

Lemma extends_refl w : extends w w.
Proof. exists []. split; [by rewrite app_nil_r | constructor]. Qed.

Lemma extends_trans w1 w2 w3 : extends w1 w2 -> extends w2 w3 -> extends w1 w3.
Proof.
  intros (e1 & H1 & F1) (e2 & H2 & F2). exists (e1 ++ e2). split.
  - by rewrite H2, H1, app_assoc.
  - by apply Forall_app.
Qed.

Lemma extends_same w w' : dispatched w' = dispatched w -> extends w w'.
Proof. intros H. exists []. split; [by rewrite app_nil_r | constructor]. Qed.

Section SearchEvent.

Variable env : Env.

Lemma setItemState_extends it open src cfg w :
  extends w (setItemState env it open src cfg None w).
Proof.
  destruct (content it) as [c |] eqn:Hc; [destruct (trigger it) as [t |] eqn:Ht |].
  - destruct (setItemState_complete env it c t open src cfg None w Hc Ht)
      as (w1 & -> & _ & Hw). rewrite (Hw eq_refl).
    eexists. split; [apply dispatched_apply |].
    constructor; [| constructor]. unfold itemEvent. simpl. destruct open; auto.
  - rewrite setItemState_incomplete by (by right). apply extends_refl.
  - rewrite setItemState_incomplete by (by left). apply extends_refl.
Qed.

Lemma closeStale_extends normalised cfg l w :
  extends w (foldl (closeStale env normalised cfg) w l).
Proof.
  revert w. induction l as [| it l IH]; intros w; simpl; [apply extends_refl |].
  eapply extends_trans; [| apply IH].
  unfold closeStale. destruct (_ && _); [apply setItemState_extends | apply extends_refl].
Qed.

Lemma openMatching_step normalised cfg w it :
  normalised <> "" -> normalizeText normalised = normalised ->
  exists w', openMatching env normalised cfg (Some w) it = Some w' /\ extends w w'.
Proof.
  intros Hn Hidem. unfold openMatching. simpl.
  destruct (_ || _); [| exists w; split; [done | apply extends_refl]].
  assert (H1 : exists d1,
    match title it with
    | Some t => highlightText t normalised (highlightClass (classes cfg)) (dom w)
    | None => Some (dom w)
    end = Some d1).
  { destruct (title it) as [t |]; [| eauto].
    apply highlightText_total. by rewrite Hidem. }
  destruct H1 as [d1 ->]. simpl.
  assert (H2 : exists d2,
    match content it with
    | Some c => highlightText c normalised (highlightClass (classes cfg)) d1
    | None => Some d1
    end = Some d2).
  { destruct (content it) as [c |]; [| eauto].
    apply highlightText_total. by rewrite Hidem. }
  destruct H2 as [d2 ->]. simpl.
  eexists. split; [reflexivity |].
  eapply extends_trans; [| apply setItemState_extends].
  by apply extends_same.
Qed.

Lemma openMatching_extends normalised cfg l w :
  normalised <> "" -> normalizeText normalised = normalised ->
  exists w', foldl (openMatching env normalised cfg) (Some w) l = Some w' /\ extends w w'.
Proof.
  intros Hn Hidem. revert w. induction l as [| it l IH]; intros w; cbn [foldl].
  - exists w. split; [done | apply extends_refl].
  - destruct (openMatching_step normalised cfg w it Hn Hidem) as (w1 & E & Hext).
    rewrite E. destruct (IH w1) as (w' & E' & Hext').
    exists w'. split; [done | by eapply extends_trans].
Qed.

End SearchEvent.

Lemma navigateToMatch_dispatched index cfg counterEl w :
  dispatched (navigateToMatch index cfg counterEl w) = dispatched w.
Proof.
  unfold navigateToMatch. destruct (marks (searchState w)); [reflexivity |].
  match goal with |- context [?l !! ?i] => destruct (l !! i) end; reflexivity.
Qed.


(* ===================================================================== *)
(** ** The theorems at work on the pages *)
(* ===================================================================== *)



Lemma parse_orphanDocument :
  parseFaqGroups Page.orphanDocument =
  [mkGroup 2
     [mkItem 0 51 (Some 52%nat) (Some 54%nat) (Some 53%nat) None None;
      mkItem 1 61 (Some 62%nat) (Some 64%nat) (Some 63%nat) None None]
     GROUP_DEFAULTS].
Proof. vm_compute. reflexivity. Qed.


(** What the two pages dispatch on a search for "Password": the page with
    one group opens its item and signals two matches from the group element;
    the page without group opens the matching item and signals nothing. *)
Lemma search_events_on_the_pages :
  match performSearch Page.noLayout "Password" (instItems (Page.inst Page.noLayout))
                      DEFAULTS None (Page.ready Page.noLayout) with
  | Some w' =>
      dispatched w' = [mkEvent 11 "cur-faq:open" (DetailItem 11) true;
                       mkEvent 10 "cur-faq:search" (DetailSearch "Password" 2) true]
  | None => False
  end
  /\ match performSearch Page.noLayout "Password"
                         (instItems (Page.orphanInst Page.noLayout))
                         DEFAULTS None (Page.orphanReady Page.noLayout) with
     | Some w' =>
         dispatched w' = [mkEvent 51 "cur-faq:open" (DetailItem 51) true]
         /\ querySelector (dom w') (roleSel ROLES.group) = None
     | None => False
     end.
Proof. vm_compute. repeat split. Qed.

(* ===================================================================== *)
(** ** Splitting a text node *)
(* ===================================================================== *)

Lemma append_cons c a b : String c a +:+ b = String c (a +:+ b).
Proof. reflexivity. Qed.

Lemma substring_empty n m : String.substring n m "" = "".
Proof. by destruct n, m. Qed.

Lemma substring_split_0 s b c :
  (b <= c)%nat ->
  String.substring 0 b s +:+ String.substring b (c - b) s = String.substring 0 c s.
Proof.
  revert b c. induction s as [| ch s IH]; intros b c Hbc.
  - by rewrite !substring_empty.
  - destruct b as [| b].
    + simpl. by rewrite Nat.sub_0_r.
    + destruct c as [| c]; [lia |]. simpl. rewrite <- (IH b c) by lia. reflexivity.
Qed.

Lemma substring_split s a b c :
  (a <= b)%nat -> (b <= c)%nat ->
  String.substring a (b - a) s +:+ String.substring b (c - b) s
  = String.substring a (c - a) s.
Proof.
  revert a b c. induction s as [| ch s IH]; intros a b c Hab Hbc.
  - by rewrite !substring_empty.
  - destruct a as [| a].
    + rewrite !Nat.sub_0_r. by apply substring_split_0.
    + destruct b as [| b]; [lia |]. destruct c as [| c]; [lia |].
      simpl. apply IH; lia.
Qed.

Lemma clampIndex_nonneg s i :
  0 <= i -> i <= Js.len s -> Js.clampIndex s i = Z.to_nat i.
Proof.
  intros H0 H1. unfold Js.clampIndex, Js.len in *.
  destruct (i <? 0) eqn:E; [apply Z.ltb_lt in E; lia |]. lia.
Qed.

Lemma slice_sliceFrom s a b :
  0 <= a -> a <= b -> b <= Js.len s ->
  Js.slice s a b +:+ Js.sliceFrom s b = Js.sliceFrom s a.
Proof.
  intros Ha Hab Hb. unfold Js.slice, Js.sliceFrom.
  rewrite !clampIndex_nonneg by lia.
  apply substring_split; unfold Js.len in *; lia.
Qed.

Lemma append_empty_r s : s +:+ "" = s.
Proof. induction s as [| c s IH]; [done |]. by rewrite append_cons, IH. Qed.

(** The runs of the loop, started at [pos], spell out the original text from
    [pos] on. *)
Lemma splitLoop_concat original lower normalised fuel pos rs :
  normalised <> "" -> Js.len lower <= Js.len original -> 0 <= pos ->
  splitLoop fuel original lower normalised pos = Some rs ->
  runsText rs = Js.sliceFrom original pos.
Proof.
  intros Hn Hlen. revert pos rs.
  induction fuel as [| fuel IH]; intros pos rs Hpos; [done |].
  simpl. destruct (Js.indexOf lower normalised pos =? -1) eqn:E.
  - intros [= <-]. simpl. apply append_empty_r.
  - apply Z.eqb_neq in E.
    destruct (indexOf_bounds lower normalised pos E Hpos) as [H1 H2].
    assert (Hl : 0 < Js.len normalised).
    { unfold Js.len. destruct normalised; [done | simpl; lia]. }
    set (idx := Js.indexOf lower normalised pos) in *.
    destruct (splitLoop fuel original lower normalised (idx + Js.len normalised))
      as [rest |] eqn:Hrest; [| done].
    simpl. intros [= <-].
    apply IH in Hrest; [| lia].
    assert (Hpi : pos <= idx) by lia.
    assert (Htail : Js.slice original idx (idx + Js.len normalised) +:+ runsText rest
                    = Js.sliceFrom original idx).
    { rewrite Hrest. apply slice_sliceFrom; lia. }
    destruct (pos <? idx) eqn:Elt.
    + simpl. rewrite Htail. apply slice_sliceFrom; lia.
    + apply Z.ltb_ge in Elt. assert (Heq : pos = idx) by lia.
      rewrite Heq. simpl. exact Htail.
Qed.

Lemma len_normalizeText s : Js.len (normalizeText s) <= Js.len s.
Proof. unfold Js.len. pose proof (normalizeText_length s). lia. Qed.

Lemma sliceFrom_0 s : Js.sliceFrom s 0 = s.
Proof.
  unfold Js.sliceFrom, Js.clampIndex. simpl. rewrite Nat.sub_0_r.
  induction s as [| c s IH]; [done |]. simpl. by rewrite IH.
Qed.

(** Whatever is marked, the runs of a text node put together are the text
    of the node. *)
Lemma splitText_concat original normalised rs :
  normalised <> "" ->
  splitText original normalised = Some rs -> runsText rs = original.
Proof.
  intros Hn H. unfold splitText in H.
  apply splitLoop_concat in H; [| done | apply len_normalizeText | lia].
  by rewrite sliceFrom_0 in H.
Qed.

(** With an empty needle the loop does not end: no amount of fuel gives a
    result.  [highlightText] gets there for a query that is not empty but
    blank. *)
Lemma findFrom_empty_needle hay skip i :
  (skip <= String.length hay)%nat -> Js.findFrom "" hay skip i = i + Z.of_nat skip.
Proof.
  revert skip i. induction hay as [| c hay IH]; intros skip i Hs; simpl in *.
  - assert (skip = 0%nat) as -> by lia. simpl. lia.
  - destruct skip as [| skip]; simpl; [lia |]. rewrite IH by lia. lia.
Qed.

Lemma splitLoop_empty_needle original lower fuel pos :
  0 <= pos -> splitLoop fuel original lower "" pos = None.
Proof.
  revert pos. induction fuel as [| fuel IH]; intros pos Hpos; [done |].
  simpl. unfold Js.indexOf. rewrite findFrom_empty_needle by lia.
  destruct (_ =? -1) eqn:E; [apply Z.eqb_eq in E; lia |].
  rewrite IH; [done |]. unfold Js.len. simpl. lia.
Qed.

(** *** Where the marks are right

    When the text of the node has no white space in front, the index found
    in the normalised copy is an index of the original too, and every
    marked run is an occurrence of the query, letter case apart. *)

Lemma startsWith_substring needle hay :
  Js.startsWith needle hay = true ->
  String.substring 0 (String.length needle) hay = needle.
Proof.
  revert hay. induction needle as [| a n IH]; intros [| b h]; simpl; try done.
  rewrite andb_true_iff. intros [Hab H]. apply Ascii.eqb_eq in Hab as ->.
  by rewrite IH.
Qed.

Lemma findFrom_occurrence needle hay skip i :
  Js.findFrom needle hay skip i <> -1 -> 0 <= i ->
  exists n : nat,
    Js.findFrom needle hay skip i = i + Z.of_nat n
    /\ String.substring n (String.length needle) hay = needle
    /\ (n + String.length needle <= String.length hay)%nat.
Proof.
  revert skip i. induction hay as [| c hay IH]; intros skip i; cbn [Js.findFrom].
  - destruct (Nat.eqb skip 0 && Js.startsWith needle "") eqn:E; [| done].
    apply andb_true_iff in E as [_ Hp]. intros _ _. exists 0%nat.
    split; [lia |]. split; [by apply startsWith_substring |].
    apply startsWith_length in Hp. simpl in *. lia.
  - destruct (Nat.eqb skip 0 && Js.startsWith needle (String c hay)) eqn:E.
    + apply andb_true_iff in E as [_ Hp]. intros _ _. exists 0%nat.
      split; [lia |]. split; [by apply startsWith_substring |].
      apply startsWith_length in Hp. simpl in *. lia.
    + intros Hne Hi.
      destruct (IH (Nat.pred skip) (i + 1) Hne ltac:(lia)) as (n & E1 & E2 & E3).
      exists (S n). split; [lia |]. split; [exact E2 | simpl; lia].
Qed.

Lemma indexOf_occurrence hay needle from :
  Js.indexOf hay needle from <> -1 ->
  exists n : nat,
    Js.indexOf hay needle from = Z.of_nat n
    /\ String.substring n (String.length needle) hay = needle
    /\ (n + String.length needle <= String.length hay)%nat.
Proof.
  intros Hne. unfold Js.indexOf in *.
  destruct (findFrom_occurrence needle hay _ 0 Hne ltac:(lia)) as (n & E1 & E2 & E3).
  exists n. split; [lia | done].
Qed.

Lemma toLowerCase_substring n m s :
  Js.toLowerCase (String.substring n m s) = String.substring n m (Js.toLowerCase s).
Proof.
  revert n m. induction s as [| c s IH]; intros n m.
  - by rewrite !substring_empty.
  - destruct n as [| n]; simpl.
    + destruct m as [| m]; simpl; [done |]. by rewrite IH.
    + apply IH.
Qed.

Lemma substring_app_l n m a b :
  (n + m <= String.length a)%nat ->
  String.substring n m (a +:+ b) = String.substring n m a.
Proof.
  revert n m. induction a as [| c a IH]; intros n m H.
  - simpl in H. assert (n = 0%nat) as -> by lia. assert (m = 0%nat) as -> by lia.
    by destruct b.
  - rewrite append_cons. destruct n as [| n]; simpl.
    + destruct m as [| m]; simpl; [done |]. rewrite IH; [done | simpl in H; lia].
    + apply IH. simpl in H. lia.
Qed.

Lemma trimEnd_prefix s : exists t, s = Js.trimEnd s +:+ t.
Proof.
  induction s as [| c s [t IH]]; [by exists "" |].
  rewrite trimEnd_cons. destruct (Js.trimEnd s) as [| c' s'] eqn:E.
  - destruct (Js.isSpace c).
    + by exists (String c s).
    + exists t. rewrite append_cons. simpl in IH. by rewrite <- IH.
  - exists t. rewrite append_cons. by rewrite <- IH.
Qed.

Lemma toLowerCase_noLeading s : noLeadingSpace s -> noLeadingSpace (Js.toLowerCase s).
Proof. destruct s as [| c s]; simpl; [done |]. by rewrite isSpace_lowerChar. Qed.

(** Without white space in front, the normalised text is the lower-cased
    text with its trailing white space cut off. *)
Lemma normalizeText_prefix s :
  noLeadingSpace s -> exists t, Js.toLowerCase s = normalizeText s +:+ t.
Proof.
  intros H. unfold normalizeText, Js.trim.
  rewrite (trimStart_id (Js.toLowerCase s)) by by apply toLowerCase_noLeading.
  apply trimEnd_prefix.
Qed.

Lemma slice_substring s (n m : nat) :
  (n + m <= String.length s)%nat ->
  Js.slice s (Z.of_nat n) (Z.of_nat n + Z.of_nat m) = String.substring n m s.
Proof.
  intros H. unfold Js.slice.
  rewrite !clampIndex_nonneg by (unfold Js.len; lia).
  f_equal; lia.
Qed.

Lemma append_length a b : String.length (a +:+ b) = (String.length a + String.length b)%nat.
Proof. induction a as [| c a IH]; [done |]. rewrite append_cons. simpl. by rewrite IH. Qed.

Lemma splitLoop_marks original lower normalised t fuel pos rs m :
  Js.toLowerCase original = lower +:+ t ->
  splitLoop fuel original lower normalised pos = Some rs ->
  Marked m ∈ rs -> Js.toLowerCase m = normalised.
Proof.
  intros Hlow. revert pos rs.
  induction fuel as [| fuel IH]; intros pos rs H Hm; [done |].
  simpl in H.
  destruct (Js.indexOf lower normalised pos =? -1) eqn:E.
  - injection H as <-. apply list_elem_of_singleton in Hm. discriminate.
  - apply Z.eqb_neq in E.
    destruct (indexOf_occurrence lower normalised pos E) as (n & En & Esub & Elen).
    rewrite En in H.
    destruct (splitLoop fuel original lower normalised (Z.of_nat n + Js.len normalised))
      as [rest |] eqn:Er; [| done].
    simpl in H. injection H as <-.
    apply elem_of_app in Hm as [Hm | Hm].
    { destruct (pos <? Z.of_nat n); [| by apply elem_of_nil in Hm].
      apply list_elem_of_singleton in Hm. discriminate. }
    apply elem_of_cons in Hm as [Hm | Hm]; [| by apply (IH _ _ Er)].
    injection Hm as ->.
    assert (Hlen : (String.length lower <= String.length original)%nat).
    { rewrite <- (toLowerCase_length original), Hlow, append_length. lia. }
    unfold Js.len. rewrite slice_substring by lia.
    rewrite toLowerCase_substring, Hlow, substring_app_l by lia.
    exact Esub.
Qed.

(** The marked runs of a text without white space in front are occurrences
    of the query. *)
Lemma splitText_marks original normalised rs m :
  noLeadingSpace original ->
  splitText original normalised = Some rs ->
  Marked m ∈ rs -> Js.toLowerCase m = normalised.
Proof.
  intros Hns H Hm. destruct (normalizeText_prefix original Hns) as [t Ht].
  unfold splitText in H. by eapply splitLoop_marks.
Qed.

(** C4.  The marked runs are not always the occurrences of the query.  The
    runs do concatenate to the text of the node ([splitText_concat]), and
    the marked runs are occurrences when the text has no white space in
    front ([splitText_marks]).  But the text node " and reset your password"
    (a text that follows an inline element starts with a blank) is searched
    for "password": the index is found in the trimmed, lower-cased copy and
    used in the original, so the run that gets marked is " passwor" and the
    "d" is left outside.  The page shows it after the search: the paragraph
    holds the mark with the shifted text. *)
Theorem C4_mark_shifted_by_leading_space :
  Js.includes (normalizeText " and reset your password") "password" = true
  /\ splitText " and reset your password" "password"
     = Some [Plain " and reset your"; Marked " passwor"; Plain "d"]
  /\ childNodes 17 (tree (dom (Page.searchedPage Page.noLayout)))
     = [Text "Open "; Elem 18 [Text "Settings"];
        Text " and reset your"; Elem 21 [Text " passwor"]; Text "d"]
  /\ selMatches (dom (Page.searchedPage Page.noLayout)) (markSel "faq-search-highlight") 21
     = true.
Proof. vm_compute. repeat split. Qed.

(* ===================================================================== *)
(** ** Teardown *)
(* ===================================================================== *)

Lemma treeElems_flat_map (f : node -> list node) (l : list node) :
  treeElems (flat_map f l) = flat_map (fun k => treeElems (f k)) l.
Proof.
  unfold treeElems. induction l as [| k l IH]; simpl; [done |].
  by rewrite flat_map_app, IH.
Qed.

Lemma removeNode_gone e n : e ∉ treeElems (removeNode e n).
Proof.
  induction n as [s | e' ks IH] using node_ind_forall; simpl.
  - apply not_elem_of_nil.
  - case_decide; simpl; [apply not_elem_of_nil |].
    rewrite app_nil_r. rewrite not_elem_of_cons. split; [congruence |].
    change (e ∉ treeElems (flat_map (removeNode e) ks)).
    rewrite treeElems_flat_map, elem_of_flat_map. intros (k & Hk & He).
    rewrite Forall_forall in IH. by apply (IH k Hk).
Qed.

(** After [el.remove()] the element is not in the document. *)
Lemma removeElem_gone e d : e ∉ treeElems (tree (removeElem e d)).
Proof.
  unfold removeElem; simpl. rewrite treeElems_flat_map, elem_of_flat_map.
  intros (k & _ & He). by apply (removeNode_gone e k).
Qed.

Lemma clearItems_tree cls l d :
  treeElems (tree (foldl (fun d it => clearHighlights (item it) cls d) d l))
  ⊆ treeElems (tree d).
Proof.
  revert d. induction l as [| a l IH]; intros d; simpl; [done |].
  etransitivity; [apply IH |].
  rewrite clearHighlights_clearMarks. apply (clearMarks_tree _ d 0).
Qed.

Lemma clearAllHighlights_tree allItems cfg w :
  treeElems (tree (dom (clearAllHighlights allItems cfg w))) ⊆ treeElems (tree (dom w)).
Proof.
  unfold clearAllHighlights.
  cbn [setCurrentIndex setMarks setSearchState onDom dom].
  rewrite tree_removeClassEverywhere. apply clearItems_tree.
Qed.

Lemma resetItem_tree cfg d it : tree (resetItem cfg d it) = tree d.
Proof.
  unfold resetItem. destruct (trigger it), (content it); reflexivity.
Qed.

Lemma resetItems_tree cfg l d : tree (foldl (resetItem cfg) d l) = tree d.
Proof.
  revert d. induction l as [| a l IH]; intros d; simpl; [done |].
  by rewrite IH, resetItem_tree.
Qed.

Lemma unsetDurations_tree l d :
  tree (foldl (fun d g =>
                 if bool_decide (groupEl g = docBody d) then d
                 else setStyle (groupEl g) CSS_VARS.collapseDuration "" d) d l)
  = tree d.
Proof.
  revert d. induction l as [| g l IH]; intros d; simpl; [done |].
  rewrite IH. by destruct (bool_decide _).
Qed.

(** [resetItem] only removes attributes. *)
Lemma resetItem_none cfg d it x k :
  getAttribute d x k = None -> getAttribute (resetItem cfg d it) x k = None.
Proof.
  intros H. unfold resetItem.
  assert (H1 : getAttribute
                 (classRemove (item it) (activeClass (classes cfg))
                    (removeAttribute (item it) ATTR.dataOpenedBySearch
                       (removeAttribute (item it) ATTR.dataOpen d))) x k = None).
  { rewrite attr_classRemove. by do 2 apply attr_remove_none. }
  destruct (trigger it) as [t |], (content it) as [c |];
    rewrite ?attr_setStyle; repeat apply attr_remove_none; exact H1.
Qed.

Lemma resetItems_none cfg l d x k :
  getAttribute d x k = None -> getAttribute (foldl (resetItem cfg) d l) x k = None.
Proof.
  revert d. induction l as [| a l IH]; intros d H; simpl; [done |].
  by apply IH, resetItem_none.
Qed.

(** What [resetItem] removes from its own item. *)
Lemma resetItem_own cfg d it :
  let d' := resetItem cfg d it in
  getAttribute d' (item it) ATTR.dataOpen = None
  /\ getAttribute d' (item it) ATTR.dataOpenedBySearch = None
  /\ (forall t, trigger it = Some t ->
        getAttribute d' t "aria-expanded" = None /\ getAttribute d' t "aria-controls" = None)
  /\ (forall c, content it = Some c -> getAttribute d' c "hidden" = None).
Proof.
  unfold resetItem.
  set (d1 := classRemove (item it) (activeClass (classes cfg))
               (removeAttribute (item it) ATTR.dataOpenedBySearch
                  (removeAttribute (item it) ATTR.dataOpen d))).
  assert (Ho : getAttribute d1 (item it) ATTR.dataOpen = None).
  { unfold d1. rewrite attr_classRemove. apply attr_remove_none, attr_remove_same. }
  assert (Hs : getAttribute d1 (item it) ATTR.dataOpenedBySearch = None).
  { unfold d1. rewrite attr_classRemove. apply attr_remove_same. }
  clearbody d1.
  destruct (trigger it) as [t |], (content it) as [c |]; cbn zeta.
  - split; [rewrite attr_setStyle; by do 3 apply attr_remove_none |].
    split; [rewrite attr_setStyle; by do 3 apply attr_remove_none |].
    split.
    + intros t' [= <-]. rewrite !attr_setStyle. split.
      * apply attr_remove_none, attr_remove_none, attr_remove_same.
      * apply attr_remove_none, attr_remove_same.
    + intros c' [= <-]. rewrite attr_setStyle. apply attr_remove_same.
  - split; [by do 2 apply attr_remove_none |].
    split; [by do 2 apply attr_remove_none |].
    split; [| intros c' [=]].
    intros t' [= <-]. split.
    + apply attr_remove_none, attr_remove_same.
    + apply attr_remove_same.
  - split; [rewrite attr_setStyle; by apply attr_remove_none |].
    split; [rewrite attr_setStyle; by apply attr_remove_none |].
    split; [intros t' [=] |].
    intros c' [= <-]. rewrite attr_setStyle. apply attr_remove_same.
  - split; [done |]. split; [done |]. split; [intros t' [=] | intros c' [=]].
Qed.

Lemma resetItems_spec cfg l d it :
  it ∈ l ->
  let d' := foldl (resetItem cfg) d l in
  getAttribute d' (item it) ATTR.dataOpen = None
  /\ getAttribute d' (item it) ATTR.dataOpenedBySearch = None
  /\ (forall t, trigger it = Some t ->
        getAttribute d' t "aria-expanded" = None /\ getAttribute d' t "aria-controls" = None)
  /\ (forall c, content it = Some c -> getAttribute d' c "hidden" = None).
Proof.
  revert d. induction l as [| a l IH]; intros d Hin; [by apply elem_of_nil in Hin |].
  apply elem_of_cons in Hin as [-> | Hin]; [| by apply IH].
  destruct (resetItem_own cfg d a) as (H1 & H2 & H3 & H4). simpl.
  split; [by apply resetItems_none |]. split; [by apply resetItems_none |]. split.
  - intros t Ht. destruct (H3 t Ht). split; by apply resetItems_none.
  - intros c Hc. by apply resetItems_none, H4.
Qed.

(** The items of the instance are the parsed items of the page. *)
Lemma initFaq_items env w inst w1 :
  winInitialized w = false -> initFaq env w = (Some inst, w1) ->
  instItems inst = allItemsOf (parseFaqGroups (dom w))
  /\ instGroups inst = parseFaqGroups (dom w)
  /\ instConfig inst = resolveConfig (dom w).
Proof.
  intros Hflag. unfold initFaq. rewrite Hflag.
  repeat match goal with
         | |- context [let '(_, _) := ?x in _] => destruct x
         end.
  by intros [= <- <-].
Qed.




(* ===================================================================== *)
(** ** Initial state *)
(* ===================================================================== *)

Lemma attr_known d x k v : getAttribute d x k = Some v -> known d x.
Proof.
  unfold getAttribute, getEl, known. destruct (store d !! x); [eauto |].
  simpl. by rewrite lookup_empty.
Qed.

Lemma class_known d x c : classContains d x c = true -> known d x.
Proof.
  unfold classContains, getEl, known. destruct (store d !! x); [eauto |].
  simpl. rewrite bool_decide_eq_true. set_solver.
Qed.

Lemma foldr_max_le l x : x ∈ l -> (x <= foldr Nat.max 0 l)%nat.
Proof.
  induction l as [| a l IH]; intros H; [by apply elem_of_nil in H |].
  apply elem_of_cons in H as [-> | H]; simpl; [lia |]. apply IH in H. lia.
Qed.

(** [document.createElement] hands out a handle that no known element has. *)
Lemma freshElem_known d x : known d x -> freshElem d <> x.
Proof.
  intros [y Hy]. unfold freshElem.
  assert (Hin : x ∈ map fst (map_to_list (store d)) ++ treeElems (tree d)).
  { apply elem_of_app. left. apply list_elem_of_fmap. exists (x, y).
    split; [done |]. by apply elem_of_map_to_list. }
  apply foldr_max_le in Hin. lia.
Qed.

Lemma getEl_createElement tag d x :
  known d x -> getEl (createElement tag d).2 x = getEl d x.
Proof.
  intros H. unfold createElement, getEl. simpl.
  rewrite lookup_insert_ne; [done |]. by apply freshElem_known.
Qed.

Lemma known_createElement tag d x :
  known d x -> known (createElement tag d).2 x.
Proof.
  intros H. unfold createElement, known. simpl.
  rewrite lookup_insert_ne; [done |]. by apply freshElem_known.
Qed.

Lemma known_created tag d : known (createElement tag d).2 (createElement tag d).1.
Proof. unfold createElement, known. simpl. rewrite lookup_insert_eq. eauto. Qed.

Lemma created_ne tag d x : known d x -> (createElement tag d).1 <> x.
Proof. intros H. simpl. by apply freshElem_known. Qed.

(** *** Quiet steps *)

Lemma quiet_refl d : quiet d d.
Proof. intros x H. repeat split; done. Qed.

Lemma quiet_trans d1 d2 d3 : quiet d1 d2 -> quiet d2 d3 -> quiet d1 d3.
Proof.
  intros H12 H23 x Hx.
  destruct (H12 x Hx) as (K2 & C2 & A2 & B2 & E2).
  destruct (H23 x K2) as (K3 & C3 & A3 & B3 & E3).
  repeat split; [done | congruence ..].
Qed.

(** Elements that are not written to stay as they are. *)
Lemma quiet_getEl d d' :
  (forall x, known d x -> known d' x /\ getEl d' x = getEl d x) -> quiet d d'.
Proof.
  intros H x Hx. destruct (H x Hx) as [K E].
  unfold getAttribute. rewrite E. repeat split; done.
Qed.

Lemma quiet_setAttribute e k v d :
  k <> ATTR.dataOpen -> k <> "hidden" -> k <> "aria-expanded" ->
  quiet d (setAttribute e k v d).
Proof.
  intros H1 H2 H3 x Hx. split; [by apply known_updEl |].
  split.
  - unfold setAttribute. rewrite getEl_updEl. by case_decide; subst.
  - rewrite !attr_set_other by (right; done). done.
Qed.

Lemma quiet_setStyle e k v d : quiet d (setStyle e k v d).
Proof.
  intros x Hx. split; [by apply known_updEl |]. split.
  - unfold setStyle. rewrite getEl_updEl. by case_decide; subst.
  - by rewrite !attr_setStyle.
Qed.

Lemma quiet_updateEmptyState b d : quiet d (updateEmptyState b d).
Proof.
  unfold updateEmptyState. destruct (querySelector _ _); [| apply quiet_refl].
  apply quiet_setStyle.
Qed.

Lemma quiet_tree d t : quiet d (withTree d t).
Proof. apply quiet_getEl. intros x Hx. split; done. Qed.

(** *** The floating panel *)

Lemma above_refl d : above d d.
Proof. intros x Hx. split; done. Qed.

Lemma above_create d0 d tag e d' :
  above d0 d -> createElement tag d = (e, d') -> above d0 d' /\ ~ known d0 e.
Proof.
  intros Ha Hc.
  assert (He : e = (createElement tag d).1) by (by rewrite Hc).
  assert (Hd : d' = (createElement tag d).2) by (by rewrite Hc).
  subst e d'. split.
  - intros x Hx. destruct (Ha x Hx) as [K E]. split.
    + by apply known_createElement.
    + by rewrite getEl_createElement.
  - intros Hk. destruct (Ha _ Hk) as [K _]. by apply (created_ne tag) in K.
Qed.

Lemma above_updEl d0 d f e :
  above d0 d -> ~ known d0 e -> above d0 (updEl f e d).
Proof.
  intros Ha Hn x Hx. destruct (Ha x Hx) as [K E]. split.
  - by apply known_updEl.
  - rewrite getEl_updEl, decide_False; [done |]. by intros ->.
Qed.

Lemma above_withTree d0 d t : above d0 d -> above d0 (withTree d t).
Proof. intros Ha x Hx. by destruct (Ha x Hx). Qed.

(** [createFloatingPanel] writes to the elements it creates only. *)
Lemma createFloatingPanel_above w : above (dom w) (dom (createFloatingPanel w).2).
Proof.
  unfold createFloatingPanel.
  pose proof (above_refl (dom w)) as A0.
  destruct (createElement "DIV" (dom w)) as [panel d1] eqn:E1.
  destruct (above_create _ _ _ _ _ A0 E1) as [A1 Hpanel].
  cbn zeta.
  match goal with |- context [createElement "BUTTON" ?d] =>
    assert (A1' : above (dom w) d) by (repeat apply above_updEl; assumption);
    destruct (createElement "BUTTON" d) as [prevBtn d2] eqn:E2
  end.
  destruct (above_create _ _ _ _ _ A1' E2) as [A2 Hprev].
  match goal with |- context [createElement "BUTTON" ?d] =>
    assert (A2' : above (dom w) d) by (repeat apply above_updEl; assumption);
    destruct (createElement "BUTTON" d) as [nextBtn d3] eqn:E3
  end.
  destruct (above_create _ _ _ _ _ A2' E3) as [A3 Hnext].
  match goal with |- context [createElement "INPUT" ?d] =>
    assert (A3' : above (dom w) d) by (repeat apply above_updEl; assumption);
    destruct (createElement "INPUT" d) as [input d4] eqn:E4
  end.
  destruct (above_create _ _ _ _ _ A3' E4) as [A4 Hinput].
  match goal with |- context [createElement "SPAN" ?d] =>
    assert (A4' : above (dom w) d) by (repeat apply above_updEl; assumption);
    destruct (createElement "SPAN" d) as [counter d5] eqn:E5
  end.
  destruct (above_create _ _ _ _ _ A4' E5) as [A5 Hcounter].
  unfold bindSearchInput.
  cbn [fst snd dom onDom foldl addEventListener setListeners searchInputListeners
       updateMatchCounter setTextContent appendChild].
  apply above_withTree, above_withTree.
  by apply above_updEl.
Qed.

Lemma above_quiet d d' : above d d' -> quiet d d'.
Proof. intros H. by apply quiet_getEl. Qed.

(** *** Binding the listeners *)

Section Binding.

Variable env : Env.

Lemma quiet_ensureId el prefix w :
  quiet (dom w) (dom (ensureId env el prefix w).2).
Proof.
  unfold ensureId.
  destruct (getAttribute (dom w) el "id") as [i |]; [case_decide |]; simpl;
    try apply quiet_refl; apply quiet_setAttribute; str_ne.
Qed.

Lemma quiet_setupAria it w : quiet (dom w) (dom (setupAria env it w)).
Proof.
  unfold setupAria. destruct (trigger it) as [t |]; [| apply quiet_refl].
  destruct (content it) as [c |]; [| apply quiet_refl].
  pose proof (quiet_ensureId c "cur-faq" w) as Hid.
  destruct (ensureId env c "cur-faq" w) as [contentId w1]. simpl in Hid.
  eapply quiet_trans; [exact Hid |].
  assert (H1 : quiet (dom w1) (setAttribute t "aria-controls" contentId (dom w1)))
    by (apply quiet_setAttribute; str_ne).
  cbn [onDom dom]. destruct (bool_decide _); [exact H1 |].
  eapply quiet_trans; [exact H1 |].
  assert (H2 : quiet (setAttribute t "aria-controls" contentId (dom w1))
                 (setAttribute t "role" "button"
                    (setAttribute t "aria-controls" contentId (dom w1))))
    by (apply quiet_setAttribute; str_ne).
  destruct (hasAttribute _ t "tabindex"); [exact H2 |].
  eapply quiet_trans; [exact H2 |].
  cbn [onDom dom]. apply quiet_setAttribute; str_ne.
Qed.

Lemma dom_addListeners ls w :
  dom (foldl (fun w l => addEventListener l w) w ls) = dom w.
Proof. revert w. induction ls as [| l ls IH]; intros w; simpl; [done | by rewrite IH]. Qed.

Lemma quiet_bindItem g acc it : quiet (dom acc.2) (dom (bindItem env g acc it).2).
Proof.
  unfold bindItem. destruct (trigger it) as [t |]; [| apply quiet_refl].
  cbn [snd]. rewrite dom_addListeners. apply quiet_setupAria.
Qed.

Lemma quiet_bindItems g l acc :
  quiet (dom acc.2) (dom (foldl (bindItem env g) acc l).2).
Proof.
  revert acc. induction l as [| it l IH]; intros acc; simpl; [apply quiet_refl |].
  eapply quiet_trans; [apply quiet_bindItem | apply IH].
Qed.

Lemma quiet_bindGroups groups acc :
  quiet (dom acc.2)
        (dom (foldl (fun acc g => foldl (bindItem env g) acc (items g)) acc groups).2).
Proof.
  revert acc. induction groups as [| g l IH]; intros acc; simpl; [apply quiet_refl |].
  eapply quiet_trans; [apply quiet_bindItems | apply IH].
Qed.

Lemma quiet_bindAccordionListeners groups w :
  quiet (dom w) (dom (bindAccordionListeners env groups w).2).
Proof. apply (quiet_bindGroups groups ([], w)). Qed.

End Binding.

Lemma quiet_bindSearch cfg w : quiet (dom w) (dom (bindSearch cfg w).2).
Proof.
  unfold bindSearch.
  match goal with |- context [match ?m with Some _ => _ | None => _ end] =>
    destruct m as [input |] end; [| apply quiet_refl].
  destruct (floatingSearch cfg).
  - pose proof (createFloatingPanel_above w) as Ha.
    destruct (createFloatingPanel w) as [fp w1]. simpl in *.
    by apply above_quiet.
  - apply quiet_refl.
Qed.

(** *** Closed items *)

Lemma itemElems_spec i x :
  x ∈ itemElems i <->
  x = item i \/ trigger i = Some x \/ content i = Some x
  \/ iconOpen i = Some x \/ iconClose i = Some x.
Proof.
  unfold itemElems.
  destruct (trigger i), (content i), (iconOpen i), (iconClose i); simpl;
    rewrite ?elem_of_cons, ?elem_of_nil; unfold id; naive_solver.
Qed.

Lemma itemElems_distinct a :
  NoDup (itemElems a) ->
  (forall o, iconOpen a = Some o -> o <> item a)
  /\ (forall k, iconClose a = Some k -> k <> item a)
  /\ (forall o k, iconOpen a = Some o -> iconClose a = Some k -> o <> k).
Proof.
  unfold itemElems. intros H.
  destruct (trigger a), (content a), (iconOpen a), (iconClose a); simpl in H; unfold id in H;
    repeat match goal with
           | H : NoDup (_ :: _) |- _ => apply NoDup_cons in H as [? H]
           end;
    repeat split; intros; simplify_eq; set_solver.
Qed.

Lemma closedObs_ext cfg d d' i :
  (forall x, x ∈ itemElems i -> getEl d' x = getEl d x) ->
  closedObs cfg d i -> closedObs cfg d' i.
Proof.
  intros H (Hm & Ha & Hc & Ht & Ho & Hk).
  assert (Hi : getEl d' (item i) = getEl d (item i))
    by (apply H, itemElems_spec; by left).
  unfold closedObs, marker, getAttribute, classContains in *.
  rewrite Hi. split; [done |]. split; [done |]. split; [| split; [| split]].
  - intros c E. rewrite H; [by apply Hc | apply itemElems_spec; auto].
  - intros t E. rewrite H; [by apply Ht | apply itemElems_spec; auto].
  - intros o E. rewrite H; [by apply Ho | apply itemElems_spec; auto].
  - intros k E. rewrite H; [by apply Hk | apply itemElems_spec; auto].
Qed.

Lemma class_quiet d d' x c :
  quiet d d' -> known d x -> classContains d' x c = classContains d x c.
Proof.
  intros H K. destruct (H x K) as (_ & E & _). unfold classContains. by rewrite E.
Qed.

Lemma closedObs_quiet cfg d d' i :
  quiet d d' -> closedObs cfg d i -> closedObs cfg d' i.
Proof.
  intros H (Hm & Ha & Hc & Ht & Ho & Hk).
  assert (Ki : known d (item i)) by (by eapply attr_known).
  unfold closedObs, marker in *.
  split; [destruct (H _ Ki) as (_ & _ & -> & _); done |].
  split; [by rewrite (class_quiet d d') |].
  split; [| split; [| split]].
  - intros c E. specialize (Hc c E).
    destruct (H c (attr_known _ _ _ _ Hc)) as (_ & _ & _ & -> & _). done.
  - intros t E. specialize (Ht t E).
    destruct (H t (attr_known _ _ _ _ Ht)) as (_ & _ & _ & _ & ->). done.
  - intros o E. destruct (Ho o E) as [H1 H2].
    pose proof (class_known _ _ _ H1) as K. by rewrite !(class_quiet d d').
  - intros k E. destruct (Hk k E) as [H1 H2].
    pose proof (class_known _ _ _ H1) as K. by rewrite !(class_quiet d d').
Qed.

(** A closed item with a content element reads as closed, whatever the
    layout says: the content is hidden. *)
Lemma closedObs_not_open env cfg d i c :
  content i = Some c -> closedObs cfg d i -> isItemOpen env d i = false.
Proof.
  intros Ec (Hm & _ & Hc & Ht & _). unfold isItemOpen. unfold marker in Hm.
  rewrite Hm, Ec. unfold hasAttribute. rewrite (Hc c Ec).
  assert (E : bool_decide (trigger i ≫= (fun t => getAttribute d t "aria-expanded")
                           = Some "true") = false).
  { apply bool_decide_eq_false_2. destruct (trigger i) as [t |]; simpl; [| done].
    by rewrite (Ht t eq_refl). }
  rewrite E. rewrite bool_decide_eq_false_2 by done. simpl.
  apply andb_false_r.
Qed.

(** *** "Set initial state: all items closed" *)

Lemma closeInitially_frame cfg d a x :
  x ∉ itemElems a -> getEl (closeInitially cfg d a) x = getEl d x.
Proof.
  intros Hx. rewrite itemElems_spec in Hx.
  unfold closeInitially. destruct (content a) as [c |] eqn:Ec; [| done].
  rewrite !getEl_setIconVisibility_ne by (intros E; apply Hx; auto).
  unfold classRemove. rewrite getEl_updEl, decide_False by (intros E; apply Hx; auto).
  assert (Hc : c <> x) by (intros ->; apply Hx; auto).
  destruct (trigger a) as [t |] eqn:Et.
  - assert (Ht : t <> x) by (intros ->; apply Hx; auto).
    rewrite !getEl_setAttribute_ne; [done | done | | done].
    intros E; apply Hx; auto.
  - rewrite !getEl_setAttribute_ne; [done | done |]. intros E; apply Hx; auto.
Qed.

Lemma closeInitially_own cfg d a c :
  NoDup (itemElems a) -> content a = Some c ->
  closedObs cfg (closeInitially cfg d a) a.
Proof.
  intros Hnd Hc. destruct (itemElems_distinct a Hnd) as (Hoi & Hki & Hok).
  unfold closeInitially. rewrite Hc.
  pose (d1 := setAttribute (item a) ATTR.dataOpen "false" (setAttribute c "hidden" "" d)).
  pose (d2 := match trigger a with
              | Some t => setAttribute t "aria-expanded" "false" d1
              | None => d1
              end).
  pose (d3 := classRemove (item a) (activeClass (classes cfg)) d2).
  change (closedObs cfg (setIconVisibility (iconClose a) true
                           (setIconVisibility (iconOpen a) false d3)) a).
  unfold d3.
  assert (Hm2 : getAttribute d2 (item a) ATTR.dataOpen = Some "false").
  { unfold d2. destruct (trigger a).
    - rewrite attr_set_other by (right; apply dataOpen_ne_aria). apply attr_set_same.
    - apply attr_set_same. }
  assert (Hh2 : getAttribute d2 c "hidden" = Some "").
  { unfold d2, d1. destruct (trigger a).
    - rewrite !attr_set_other by (right; str_ne). apply attr_set_same.
    - rewrite attr_set_other by (right; str_ne). apply attr_set_same. }
  assert (Ht2 : forall t, trigger a = Some t ->
                          getAttribute d2 t "aria-expanded" = Some "false").
  { intros t E. unfold d2. rewrite E. apply attr_set_same. }
  split; [| split; [| split; [| split; [| split]]]].
  - unfold marker. by rewrite !attr_setIconVisibility, attr_classRemove.
  - rewrite !class_setIconVisibility_other.
    + apply class_remove_same.
    + left. intros E. by apply (Hoi _ E).
    + left. intros E. by apply (Hki _ E).
  - intros c' E. rewrite Hc in E. injection E as <-.
    by rewrite !attr_setIconVisibility, attr_classRemove.
  - intros t E. rewrite !attr_setIconVisibility, attr_classRemove. by apply Ht2.
  - intros o E. rewrite E.
    assert (Hne : iconClose a <> Some o) by (intros E'; by apply (Hok o o E E')).
    split; (rewrite class_setIconVisibility_other by (by left));
      [apply class_setIconVisibility_hidden | apply class_setIconVisibility_visible].
  - intros k E. rewrite E.
    split; [apply class_setIconVisibility_visible | apply class_setIconVisibility_hidden].
Qed.

Lemma closeAll_frame cfg l d x :
  x ∉ flat_map itemElems l -> getEl (foldl (closeInitially cfg) d l) x = getEl d x.
Proof.
  revert d. induction l as [| a l IH]; intros d Hx; [done |].
  change (x ∉ itemElems a ++ flat_map itemElems l) in Hx.
  rewrite elem_of_app in Hx. simpl.
  rewrite IH by tauto. apply closeInitially_frame. tauto.
Qed.

Lemma closeAll_spec cfg l d i c :
  NoDup (flat_map itemElems l) -> i ∈ l -> content i = Some c ->
  closedObs cfg (foldl (closeInitially cfg) d l) i.
Proof.
  revert d. induction l as [| a l IH]; intros d Hnd Hin Hc;
    [by apply elem_of_nil in Hin |].
  change (NoDup (itemElems a ++ flat_map itemElems l)) in Hnd.
  apply NoDup_app in Hnd as (Hnda & Hdis & Hndl).
  simpl. apply elem_of_cons in Hin as [-> | Hin].
  - apply (closedObs_ext cfg (closeInitially cfg d a)).
    + intros x Hx. apply closeAll_frame. by apply Hdis.
    + by eapply closeInitially_own.
  - by apply (IH _ Hndl Hin).
Qed.

(** *** "Default open item(s)" *)

(** Two item records of a page whose items share no element are the same
    record or have no element in common. *)
Lemma itemElems_apart l a b :
  NoDup (flat_map itemElems l) -> a ∈ l -> b ∈ l ->
  a = b \/ forall x, x ∈ itemElems a -> x ∉ itemElems b.
Proof.
  induction l as [| a0 l IH]; intros Hnd Ha Hb; [by apply elem_of_nil in Ha |].
  change (NoDup (itemElems a0 ++ flat_map itemElems l)) in Hnd.
  apply NoDup_app in Hnd as (_ & Hdis & Hndl).
  apply elem_of_cons in Ha as [-> | Ha]; apply elem_of_cons in Hb as [-> | Hb].
  - by left.
  - right. intros x Hx Hxb. apply (Hdis x Hx). apply elem_of_flat_map. eauto.
  - right. intros x Hx Hxb. apply (Hdis x Hxb). apply elem_of_flat_map. eauto.
  - by apply IH.
Qed.

Section DefaultOpen.
Variable env : Env.

Lemma openDefault_defaultTarget cfg w g :
  openDefault env cfg w g =
  match defaultTarget g with
  | Some target => setItemState env target true User cfg (Some g) w
  | None => w
  end.
Proof.
  unfold openDefault, defaultTarget.
  destruct (defaultOpen (config g)) as [n |]; [| done].
  destruct (n <? 0); [done |]. by destruct (items g !! Z.to_nat n).
Qed.

Lemma defaultTarget_item g target :
  defaultTarget g = Some target -> target ∈ items g.
Proof.
  unfold defaultTarget. destruct (defaultOpen (config g)) as [n |]; [| done].
  destruct (n <? 0); [done |]. intros H. by eapply list_elem_of_lookup_2.
Qed.

(** The forced closures of the accordion leave a closed item closed: the
    item itself reads as closed and is skipped, and the closure of another
    item writes to that item's elements only. *)
Lemma closedObs_closeSiblings X src cfg cfg' l w i c :
  content i = Some c ->
  (forall s, s ∈ l -> s = i \/ forall x, x ∈ itemElems i -> x ∉ itemElems s) ->
  closedObs cfg' (dom w) i ->
  closedObs cfg' (dom (foldl (closeSiblings env (setItemStateNoGroup env) X src cfg) w l)) i.
Proof.
  intros Hc. revert w. induction l as [| s l IH]; intros w Hl H; [done |].
  simpl. apply IH; [intros s' Hs'; apply Hl; by right |].
  unfold closeSiblings.
  destruct (Hl s) as [-> | Hdis]; [by left | |].
  - rewrite (closedObs_not_open env cfg' (dom w) i c Hc H).
    by rewrite andb_false_r.
  - destruct (_ && _); [| done].
    apply (closedObs_ext cfg' (dom w)); [| done].
    intros x Hx. apply getEl_closeNoGroup. by apply Hdis.
Qed.

Lemma closedObs_open_other cfg target g w all i c :
  NoDup (flat_map itemElems all) -> items g ⊆ all -> i ∈ all ->
  target ∈ items g -> target <> i -> content i = Some c ->
  closedObs cfg (dom w) i ->
  closedObs cfg (dom (setItemState env target true User cfg (Some g) w)) i.
Proof.
  intros Hnd Hsub Hi Ht Hne Hc H.
  unfold setItemState, setItemStateWith.
  destruct (content target) as [ct |] eqn:Ect; [| done].
  destruct (trigger target) as [tt |] eqn:Ett; [| done].
  apply (closedObs_ext cfg
           (dom (if true && accordion (config g)
                 then foldl (closeSiblings env (setItemStateNoGroup env) target User cfg)
                            w (items g)
                 else w))).
  - intros x Hx. apply getEl_apply; [done | done |].
    destruct (itemElems_apart all i target Hnd Hi (Hsub _ Ht)) as [E | Hdis];
      [congruence | by apply Hdis].
  - destruct (true && accordion (config g)); [| done].
    apply (closedObs_closeSiblings target User cfg cfg (items g) w i c Hc); [| done].
    intros s Hs.
    destruct (itemElems_apart all i s Hnd Hi (Hsub _ Hs)) as [E | Hdis]; auto.
Qed.

Lemma closedObs_openDefaults cfg groups gs w i c :
  NoDup (flat_map itemElems (allItemsOf groups)) ->
  gs ⊆ groups -> i ∈ allItemsOf groups -> content i = Some c ->
  i ∉ defaultTargets gs ->
  closedObs cfg (dom w) i ->
  closedObs cfg (dom (foldl (openDefault env cfg) w gs)) i.
Proof.
  intros Hnd. revert w. induction gs as [| g gs IH]; intros w Hsub Hi Hc Hnt H; [done |].
  simpl. apply IH; [set_solver | done | done | |].
  - intros Hin. apply Hnt. unfold defaultTargets in *. simpl.
    destruct (defaultTarget g); [by right | done].
  - rewrite openDefault_defaultTarget.
    destruct (defaultTarget g) as [target |] eqn:Et; [| done].
    apply (closedObs_open_other cfg target g w (allItemsOf groups) i c); try done.
    + intros x Hx. apply elem_of_flat_map. exists g. split; [| done].
      apply Hsub. by left.
    + by apply defaultTarget_item.
    + intros ->. apply Hnt. unfold defaultTargets. simpl. rewrite Et. by left.
Qed.

End DefaultOpen.

(** *** [initFaq], step by step *)

Lemma initFaq_dom env w inst w1 :
  winInitialized w = false -> initFaq env w = (Some inst, w1) ->
  exists (d0 : Dom) (wb : World),
    dom wb = foldl (closeInitially (instConfig inst)) d0 (instItems inst)
    /\ quiet (dom (foldl (openDefault env (instConfig inst)) wb (instGroups inst)))
             (dom w1).
Proof.
  intros Hflag. unfold initFaq. rewrite Hflag.
  destruct (injectStyles _ _) as [style d] eqn:Es.
  match goal with
  | |- context [bindAccordionListeners env ?gs ?x] =>
      pose proof (quiet_bindAccordionListeners env gs x) as Q1;
      destruct (bindAccordionListeners env gs x) as [accordionLs wa] eqn:Ea
  end.
  match goal with
  | |- context [bindSearch ?cfg ?x] =>
      pose proof (quiet_bindSearch cfg x) as Q3;
      destruct (bindSearch cfg x) as [[floating searchLs] ws] eqn:Eb
  end.
  intros [= <- <-]. cbn [instConfig instItems instGroups].
  cbn [snd] in Q1, Q3.
  eexists _, _. split; cycle 1.
  - eapply quiet_trans; [exact Q1 |].
    eapply quiet_trans; [| exact Q3].
    apply quiet_updateEmptyState.
  - reflexivity.
Qed.




(** *** The marker discipline

    Every parsed item with a content element satisfies [markerOk] after
    [initFaq], and the calls of the API keep it that way. *)

Lemma parseItems_parts d o els s :
  s ∈ parseItems d o els ->
  trigger s = querySelectorIn d (item s) (roleSel ROLES.trigger)
  /\ content s = querySelectorIn d (item s) (roleSel ROLES.content).
Proof.
  revert o. induction els as [| e els IH]; intros o H; simpl in H.
  - by apply elem_of_nil in H.
  - apply elem_of_cons in H as [-> | H]; [done | eauto].
Qed.

Lemma parseGroupEls_parts d o gs g s :
  g ∈ parseGroupEls d o gs -> s ∈ items g ->
  trigger s = querySelectorIn d (item s) (roleSel ROLES.trigger)
  /\ content s = querySelectorIn d (item s) (roleSel ROLES.content).
Proof.
  revert o. induction gs as [| e gs IH]; intros o H Hs; simpl in H.
  - by apply elem_of_nil in H.
  - apply elem_of_cons in H as [-> | H]; [| eauto].
    simpl in Hs. by eapply parseItems_parts.
Qed.

Lemma parseFaqGroups_parts d s :
  s ∈ allItemsOf (parseFaqGroups d) ->
  trigger s = querySelectorIn d (item s) (roleSel ROLES.trigger)
  /\ content s = querySelectorIn d (item s) (roleSel ROLES.content).
Proof.
  unfold allItemsOf. rewrite elem_of_flat_map. intros (g & Hg & Hs).
  unfold parseFaqGroups in Hg.
  match type of Hg with
  | context [match ?o with [] => _ | _ :: _ => _ end] =>
      pose proof (fun s => parseItems_parts d _ _ s : s ∈ o -> _) as Ho;
      destruct o as [| o1 os] eqn:Eo
  end.
  - by eapply parseGroupEls_parts.
  - apply elem_of_app in Hg as [Hg | Hg]; [by eapply parseGroupEls_parts |].
    apply list_elem_of_singleton in Hg as ->. simpl in Hs. by apply Ho.
Qed.

Lemma parse_coherent d : coherent (allItemsOf (parseFaqGroups d)).
Proof.
  intros a b Ha Hb E.
  destruct (parseFaqGroups_parts d a Ha) as [Hta Hca].
  destruct (parseFaqGroups_parts d b Hb) as [Htb Hcb].
  rewrite Hta, Hca, Htb, Hcb, E. done.
Qed.

Lemma coherent_complete all a b :
  coherent all -> a ∈ all -> b ∈ all -> item a = item b -> complete a -> complete b.
Proof.
  intros H Ha Hb E [Hc Ht]. destruct (H a b Ha Hb E) as [Et Ec].
  unfold complete. by rewrite <- Et, <- Ec.
Qed.

Lemma markerOk_step d d' s :
  marker d' s = marker d s \/ marker d' s = Some "false" ->
  markerOk d s -> markerOk d' s.
Proof.
  unfold markerOk. intros [-> | ->]; [done | by left].
Qed.

Lemma markerOk_quiet d d' s : quiet d d' -> markerOk d s -> markerOk d' s.
Proof.
  intros Q H. apply (markerOk_step d); [| done]. left.
  assert (K : known d (item s)).
  { destruct H as [H | [_ H]]; by eapply attr_known. }
  destruct (Q _ K) as (_ & _ & E & _). exact E.
Qed.

Section Markers.
Variable env : Env.

Lemma markerOk_closeSiblings X src cfg l w s :
  markerOk (dom w) s ->
  markerOk (dom (foldl (closeSiblings env (setItemStateNoGroup env) X src cfg) w l)) s.
Proof.
  revert w. induction l as [| s' l IH]; intros w H; [done |].
  simpl. apply IH. apply (markerOk_step (dom w)); [| done].
  apply marker_closeSiblings_step.
Qed.

(** [setItemState] on an item of the page keeps the discipline on every
    item of the page. *)
Lemma markerOk_setItemState all it open src cfg group w s :
  coherent all -> it ∈ all -> s ∈ all ->
  markerOk (dom w) s ->
  markerOk (dom (setItemState env it open src cfg group w)) s.
Proof.
  intros Hco Hit Hs H.
  destruct (content it) as [c |] eqn:Hc; [destruct (trigger it) as [t |] eqn:Ht |].
  - unfold setItemState, setItemStateWith. rewrite Hc, Ht.
    match goal with
    | |- markerOk (dom (applyItemState _ _ _ _ _ _ _ ?x)) _ => set (w1 := x)
    end.
    assert (H1 : markerOk (dom w1) s).
    { unfold w1. destruct group as [g |]; [| done].
      destruct (open && accordion (config g)); [| done].
      by apply markerOk_closeSiblings. }
    unfold markerOk, marker in *. rewrite marker_apply.
    case_decide as E; [| done].
    destruct open; [right | by left].
    split; [| done].
    apply (coherent_complete all it s); auto.
    split; eauto.
  - rewrite setItemState_incomplete; [done | by right].
  - rewrite setItemState_incomplete; [done | by left].
Qed.

Lemma markerOk_openDefaults cfg groups gs w s :
  gs ⊆ groups -> s ∈ allItemsOf groups -> coherent (allItemsOf groups) ->
  markerOk (dom w) s ->
  markerOk (dom (foldl (openDefault env cfg) w gs)) s.
Proof.
  intros Hsub Hs Hco. revert w Hsub.
  induction gs as [| g gs IH]; intros w Hsub H; [done |].
  simpl. apply IH; [set_solver |].
  rewrite openDefault_defaultTarget.
  destruct (defaultTarget g) as [target |] eqn:Et; [| done].
  apply (markerOk_setItemState (allItemsOf groups)); try done.
  apply elem_of_flat_map. exists g. split; [apply Hsub; by left |].
  by apply defaultTarget_item.
Qed.

End Markers.

Lemma marker_closeInitially cfg d a x :
  getAttribute (closeInitially cfg d a) x ATTR.dataOpen = getAttribute d x ATTR.dataOpen
  \/ getAttribute (closeInitially cfg d a) x ATTR.dataOpen = Some "false".
Proof.
  unfold closeInitially. destruct (content a) as [c |]; [| by left].
  rewrite !attr_setIconVisibility, attr_classRemove.
  assert (E : forall d0,
             getAttribute (match trigger a with
                           | Some t => setAttribute t "aria-expanded" "false" d0
                           | None => d0
                           end) x ATTR.dataOpen = getAttribute d0 x ATTR.dataOpen).
  { intros d0. destruct (trigger a); [| done].
    apply attr_set_other. right. apply dataOpen_ne_aria. }
  rewrite E. destruct (decide (item a = x)) as [<- | Hne].
  - right. apply attr_set_same.
  - left. rewrite attr_set_other by (by left).
    apply attr_set_other. right. str_ne.
Qed.

Lemma marker_closeInitially_own cfg d a c :
  content a = Some c -> marker (closeInitially cfg d a) a = Some "false".
Proof.
  intros Hc. unfold marker, closeInitially. rewrite Hc.
  rewrite !attr_setIconVisibility, attr_classRemove.
  destruct (trigger a).
  - rewrite attr_set_other by (right; apply dataOpen_ne_aria). apply attr_set_same.
  - apply attr_set_same.
Qed.

Lemma marker_closeAll_false cfg l d s :
  marker d s = Some "false" ->
  marker (foldl (closeInitially cfg) d l) s = Some "false".
Proof.
  revert d. induction l as [| a l IH]; intros d H; [done |].
  simpl. apply IH. unfold marker in *.
  destruct (marker_closeInitially cfg d a (item s)) as [-> | ->]; done.
Qed.

Lemma marker_closeAll cfg l d s c :
  s ∈ l -> content s = Some c ->
  marker (foldl (closeInitially cfg) d l) s = Some "false".
Proof.
  revert d. induction l as [| a l IH]; intros d Hs Hc; [by apply elem_of_nil in Hs |].
  simpl. apply elem_of_cons in Hs as [<- | Hs].
  - apply marker_closeAll_false. by eapply marker_closeInitially_own.
  - by apply IH.
Qed.

(** After [initFaq], every parsed item with a content element has the
    marker "false", or the marker "true" with content and trigger present. *)
Lemma markerOk_initFaq env w inst w1 s c :
  winInitialized w = false -> initFaq env w = (Some inst, w1) ->
  s ∈ instItems inst -> content s = Some c ->
  markerOk (dom w1) s.
Proof.
  intros Hflag Hinit Hs Hc.
  destruct (initFaq_items env w inst w1 Hflag Hinit) as (Hitems & Hgroups & _).
  destruct (initFaq_dom env w inst w1 Hflag Hinit) as (d0 & wb & Hwb & Q).
  apply (markerOk_quiet _ _ _ Q).
  assert (Hall : instItems inst = allItemsOf (instGroups inst)) by congruence.
  apply (markerOk_openDefaults env _ (instGroups inst)); [done | by rewrite <- Hall | |].
  - rewrite Hgroups. apply parse_coherent.
  - left. rewrite Hwb. by eapply marker_closeAll.
Qed.

(** The calls [open], [close] and [toggle] of the instance keep it so. *)
Lemma markerOk_api env w inst w1 it s w2 :
  winInitialized w = false -> initFaq env w = (Some inst, w1) ->
  it ∈ instItems inst -> s ∈ instItems inst ->
  markerOk (dom w2) s ->
  markerOk (dom (api_open env inst it w2)) s
  /\ markerOk (dom (api_close env inst it w2)) s
  /\ markerOk (dom (toggle env inst it w2)) s.
Proof.
  intros Hflag Hinit Hit Hs H.
  destruct (initFaq_items env w inst w1 Hflag Hinit) as (Hitems & _ & _).
  assert (Hco : coherent (instItems inst)) by (rewrite Hitems; apply parse_coherent).
  unfold api_open, api_close, toggle.
  repeat split; by apply (markerOk_setItemState env (instItems inst)).
Qed.

(* ===================================================================== *)
(** * Further properties of the module *)
(* ===================================================================== *)

(** ** [helpers.ts] and [config.ts] *)


(** *** Decimal numbers in attributes *)

Lemma append_assoc (a b c : string) : (a +:+ b) +:+ c = a +:+ (b +:+ c).
Proof. induction a as [| x a IH]; [done |]. rewrite !append_cons. by rewrite IH. Qed.

Lemma digitVal_char (x : N) :
  (x < 10)%N -> digitVal (pretty_N_char x) = Some (Z.of_N x).
Proof.
  intros H.
  do 10 (destruct x as [| x] using N.peano_ind; [reflexivity |]; try lia).
Qed.

Lemma digit_head c v r :
  digitVal c = Some v ->
  Js.isSpace c = false /\ parseInt10 (String c r) = parseDigits (String c r) None.
Proof.
  destruct c as [[] [] [] [] [] [] [] []]; try discriminate; intros _; by split.
Qed.

Lemma pretty_N_go_app (x : N) (s : string) :
  pretty_N_go x s = pretty_N_go x "" +:+ s.
Proof.
  revert s. induction x as [x IH] using (well_founded_ind N.lt_wf_0). intros s.
  destruct (decide (x = 0%N)) as [-> | Hx]; [by rewrite !pretty_N_go_0 |].
  rewrite !(pretty_N_go_step x) by lia.
  rewrite (IH (x / 10)%N) by (apply N.div_lt; lia).
  rewrite (IH (x / 10)%N ltac:(apply N.div_lt; lia) (String _ "")).
  by rewrite append_assoc.
Qed.

Lemma parseDigits_pretty_N_go (x : N) (s : string) :
  (0 < x)%N ->
  exists c r, pretty_N_go x s = String c r
    /\ is_Some (digitVal c)
    /\ parseDigits (String c r) None = parseDigits s (Some (Z.of_N x)).
Proof.
  revert s. induction x as [x IH] using (well_founded_ind N.lt_wf_0). intros s Hx.
  rewrite (pretty_N_go_step x) by lia.
  assert (Hc : digitVal (pretty_N_char (x mod 10)) = Some (Z.of_N (x mod 10))).
  { apply digitVal_char. apply N.mod_lt. lia. }
  destruct (decide (x / 10 = 0)%N) as [E | E].
  - rewrite E, pretty_N_go_0. eexists _, _. split; [reflexivity |]. split; [eauto |].
    cbn [parseDigits]. rewrite Hc. simpl default.
    do 2 f_equal. pose proof (N.div_mod x 10 ltac:(lia)). lia.
  - assert (Hlt : (x / 10 < x)%N) by (apply N.div_lt; lia).
    assert (Hpos : (0 < x / 10)%N) by (apply N.neq_0_lt_0; exact E).
    destruct (IH (x / 10)%N Hlt (String (pretty_N_char (x mod 10)) s) Hpos)
      as (c & r & E1 & E2 & E3).
    exists c, r. split; [done |]. split; [done |].
    rewrite E3. cbn [parseDigits]. rewrite Hc. simpl default.
    do 2 f_equal. pose proof (N.div_mod x 10 ltac:(lia)). lia.
Qed.

Lemma not_digit_stop rest acc :
  match rest with String c _ => digitVal c = None | EmptyString => True end ->
  parseDigits rest acc = acc.
Proof. destruct rest as [| c r]; [done |]. simpl. by intros ->. Qed.

Lemma parseInt10_pretty (n : Z) (rest : string) :
  0 <= n ->
  match rest with String c _ => digitVal c = None | EmptyString => True end ->
  parseInt10 (pretty n +:+ rest) = Some n.
Proof.
  intros Hn Hrest. destruct n as [| p | p]; [| | lia].
  - change (pretty 0) with "0". rewrite append_cons.
    unfold parseInt10. simpl. by rewrite not_digit_stop.
  - change (pretty (Z.pos p)) with (pretty_N_go (N.pos p) "").
    rewrite <- pretty_N_go_app.
    destruct (parseDigits_pretty_N_go (N.pos p) rest ltac:(lia))
      as (c & r & E1 & [v E2] & E3).
    rewrite E1. destruct (digit_head c v r E2) as [_ ->].
    rewrite E3. by rewrite not_digit_stop.
Qed.

(** A string that starts and ends with characters that are not white space
    is left alone by [trim]. *)
Lemma trimEnd_snoc a c :
  Js.isSpace c = false -> Js.trimEnd (a +:+ String c "") = a +:+ String c "".
Proof.
  intros Hc. induction a as [| x a IH].
  - simpl. by rewrite Hc.
  - rewrite append_cons, trimEnd_cons, IH.
    destruct a; by rewrite ?append_cons.
Qed.

Lemma pretty_N_go_last (x : N) :
  (0 < x)%N ->
  exists a c, pretty_N_go x "" = a +:+ String c "" /\ is_Some (digitVal c).
Proof.
  intros Hx. rewrite (pretty_N_go_step x) by lia. rewrite pretty_N_go_app.
  eexists _, _. split; [reflexivity |].
  rewrite digitVal_char; [eauto | apply N.mod_lt; lia].
Qed.

Lemma digit_not_space c : is_Some (digitVal c) -> Js.isSpace c = false.
Proof. intros [v H]. by destruct (digit_head c v "" H). Qed.

Lemma trim_pretty (n : Z) : 0 <= n -> Js.trim (pretty n) = pretty n.
Proof.
  intros Hn. destruct n as [| p | p]; [done | | lia].
  change (pretty (Z.pos p)) with (pretty_N_go (N.pos p) "").
  destruct (parseDigits_pretty_N_go (N.pos p) "" ltac:(lia)) as (c & r & E1 & E2 & _).
  destruct (pretty_N_go_last (N.pos p) ltac:(lia)) as (a & c' & E3 & E4).
  unfold Js.trim. rewrite E1. simpl Js.trimStart.
  rewrite (digit_not_space c E2). rewrite <- E1, E3.
  apply trimEnd_snoc. by apply digit_not_space.
Qed.

Lemma trim_ms (n : Z) : 0 <= n -> Js.trim (ms n) = ms n.
Proof.
  intros Hn. unfold ms, Js.trim.
  assert (Hs : Js.trimStart (pretty n +:+ "ms") = pretty n +:+ "ms").
  { destruct n as [| p | p]; [done | | lia].
    change (pretty (Z.pos p)) with (pretty_N_go (N.pos p) "").
    destruct (parseDigits_pretty_N_go (N.pos p) "" ltac:(lia)) as (c & r & E1 & E2 & _).
    rewrite E1, append_cons. simpl. by rewrite (digit_not_space c E2). }
  rewrite Hs. change "ms" with ("m" +:+ "s"). rewrite <- append_assoc.
  by apply trimEnd_snoc.
Qed.

Lemma pretty_nonempty (n : Z) : 0 <= n -> pretty n <> "".
Proof.
  intros Hn. destruct n as [| p | p]; [done | | lia].
  change (pretty (Z.pos p)) with (pretty_N_go (N.pos p) "").
  destruct (parseDigits_pretty_N_go (N.pos p) "" ltac:(lia)) as (c & r & -> & _). done.
Qed.

Lemma readIntAttr_pretty d e a (n : Z) :
  0 <= n ->
  getAttribute d e a = Some (pretty n) \/ getAttribute d e a = Some (ms n) ->
  readIntAttr d (Some e) a = Some n.
Proof.
  intros Hn H. unfold readIntAttr, readAttr.
  pose proof (pretty_nonempty n Hn) as Hne.
  destruct H as [-> | ->].
  - rewrite trim_pretty by done. rewrite !decide_False by done.
    rewrite <- (append_empty_r (pretty n)). by apply parseInt10_pretty.
  - rewrite trim_ms by done.
    assert (ms n <> "") by (unfold ms; destruct (pretty n); done).
    rewrite !decide_False by done. unfold ms. by apply parseInt10_pretty.
Qed.



Lemma readAttr_trimmed d el a v :
  readAttr d el a = Some v -> v <> "" /\ Js.trim v = v.
Proof.
  unfold readAttr. destruct el as [e |]; [| done].
  destruct (getAttribute d e a) as [raw |]; [| done].
  repeat case_decide; try done. intros [= <-]. split; [done | apply trim_idem].
Qed.


(** *** [ensureId] *)

Lemma append_dash_nonempty a b : a +:+ "-" +:+ b <> "".
Proof. destruct a; done. Qed.

Lemma ensureId_sets env el prefix w :
  let r := ensureId env el prefix w in
  getAttribute (dom r.2) el "id" = Some r.1
  /\ r.1 <> ""
  /\ (forall x, x <> el -> getEl (dom r.2) x = getEl (dom w) x).
Proof.
  unfold ensureId.
  destruct (getAttribute (dom w) el "id") as [i |] eqn:E; [case_decide as Hi |]; simpl.
  - rewrite attr_set_same. split; [done |]. split; [apply append_dash_nonempty |].
    intros x Hx. by apply getEl_setAttribute_ne.
  - done.
  - rewrite attr_set_same. split; [done |]. split; [apply append_dash_nonempty |].
    intros x Hx. by apply getEl_setAttribute_ne.
Qed.

(** X4.  After [ensureId] the element carries the returned id,
    which is not empty; an id that was there is kept and nothing is
    written; a second call, with whatever prefix, returns the same id and
    changes nothing; and no other element is touched. *)
Theorem ensureId_stable env el prefix prefix' w :
  let r := ensureId env el prefix w in
  getAttribute (dom r.2) el "id" = Some r.1
  /\ r.1 <> ""
  /\ (forall i, getAttribute (dom w) el "id" = Some i -> i <> "" -> r = (i, w))
  /\ ensureId env el prefix' r.2 = r
  /\ (forall x, x <> el -> getEl (dom r.2) x = getEl (dom w) x).
Proof.
  intros r. destruct (ensureId_sets env el prefix w) as (Hid & Hne & Hother).
  fold r in Hid, Hne, Hother.
  split; [exact Hid |]. split; [exact Hne |]. split; [| split; [| exact Hother]].
  - intros i E Hi. unfold r, ensureId. rewrite E. by rewrite decide_False.
  - unfold ensureId at 1. rewrite Hid. rewrite decide_False by exact Hne.
    by destruct r.
Qed.

(** *** [setupAria] *)

(** X5.  For an item with trigger and content, [setupAria] leaves
    the trigger pointing at the content: aria-controls of the trigger is
    the id of the content, and that id is not empty.  A trigger that is not
    a button gets role "button" and a tab index; a tab index it already had
    is kept.  A button trigger keeps role and tab index as they were. *)
Theorem setupAria_links env it t c w :
  trigger it = Some t -> content it = Some c ->
  let w' := setupAria env it w in
  (exists id, id <> ""
     /\ getAttribute (dom w') c "id" = Some id
     /\ getAttribute (dom w') t "aria-controls" = Some id)
  /\ (tagName (getEl (dom w) t) <> "BUTTON" ->
      getAttribute (dom w') t "role" = Some "button"
      /\ getAttribute (dom w') t "tabindex"
         = Some (default "0" (getAttribute (dom w) t "tabindex")))
  /\ (tagName (getEl (dom w) t) = "BUTTON" ->
      getAttribute (dom w') t "role" = getAttribute (dom w) t "role"
      /\ getAttribute (dom w') t "tabindex" = getAttribute (dom w) t "tabindex").
Proof.
  intros Ht Hc. unfold setupAria. rewrite Ht, Hc.
  destruct (ensureId_sets env c "cur-faq" w) as (Hid & Hne & Hother).
  assert (Hattr : forall k, k <> "id" ->
            getAttribute (dom (ensureId env c "cur-faq" w).2) t k = getAttribute (dom w) t k).
  { intros k Hk. unfold ensureId.
    destruct (getAttribute (dom w) c "id") as [i |]; [case_decide |]; simpl; try done;
      apply attr_set_other; right; congruence. }
  assert (Htag : tagName (getEl (dom (ensureId env c "cur-faq" w).2) t)
                 = tagName (getEl (dom w) t)).
  { unfold ensureId.
    destruct (getAttribute (dom w) c "id") as [i |]; [case_decide |]; simpl; try done;
      unfold setAttribute; rewrite getEl_updEl; by case_decide; subst. }
  destruct (ensureId env c "cur-faq" w) as [contentId w1]. simpl in *.
  assert (Htag' : tagName (getEl (setAttribute t "aria-controls" contentId (dom w1)) t)
                  = tagName (getEl (dom w) t)).
  { rewrite <- Htag. unfold setAttribute. rewrite getEl_updEl. by case_decide. }
  rewrite Htag'.
  destruct (decide (tagName (getEl (dom w) t) = "BUTTON")) as [Eb | Eb].
  - rewrite bool_decide_eq_true_2 by done. simpl.
    split; [| split; [done |]].
    + exists contentId. split; [done |]. split; [| apply attr_set_same].
      rewrite attr_set_other by (right; str_ne). done.
    + intros _. rewrite !attr_set_other by (right; str_ne).
      split; apply Hattr; str_ne.
  - rewrite bool_decide_eq_false_2 by done. simpl.
    unfold hasAttribute.
    rewrite !attr_set_other by (right; str_ne). rewrite (Hattr "tabindex") by str_ne.
    destruct (getAttribute (dom w) t "tabindex") as [v |] eqn:Etab; simpl.
    + rewrite ?bool_decide_eq_true_2 by eauto. simpl.
      split; [| split; [| done]].
      * exists contentId. split; [done |]. split.
        -- rewrite !attr_set_other by (right; str_ne). done.
        -- rewrite attr_set_other by (right; str_ne). apply attr_set_same.
      * intros _. split; [apply attr_set_same |].
        rewrite !attr_set_other by (right; str_ne). rewrite Hattr by str_ne. done.
    + rewrite ?bool_decide_eq_false_2 by (intros [? ?]; done). simpl.
      split; [| split; [| done]].
      * exists contentId. split; [done |]. split.
        -- rewrite !attr_set_other by (right; str_ne). done.
        -- rewrite !attr_set_other by (right; str_ne). apply attr_set_same.
      * intros _. split; [| apply attr_set_same].
        rewrite attr_set_other by (right; str_ne). apply attr_set_same.
Qed.

Lemma setupAria_links_witness :
  let w' := setupAria Page.noLayout Page.faqItem Page.fresh in
  getAttribute (dom w') 12 "aria-controls" = getAttribute (dom w') 16 "id"
  /\ getAttribute (dom w') 12 "role" = Some "button"
  /\ getAttribute (dom w') 12 "tabindex" = Some "0".
Proof.
  intros w'.
  destruct (setupAria_links Page.noLayout Page.faqItem 12 16 Page.fresh eq_refl eq_refl)
    as ((id & _ & Hid & Hctl) & Hdiv & _).
  unfold w'. split; [by rewrite Hid, Hctl |]. apply Hdiv. vm_compute. discriminate.
Defined.

(** ** Parsing *)

Lemma map_item_parseItems d o els : map item (parseItems d o els) = els.
Proof. revert o. induction els as [| e els IH]; intros o; simpl; [done | by rewrite IH]. Qed.

Lemma parseItems_parseItem d o els s :
  s ∈ parseItems d o els -> s = parseItem d (oid s) (item s).
Proof.
  revert o. induction els as [| e els IH]; intros o H; simpl in H.
  - by apply elem_of_nil in H.
  - apply elem_of_cons in H as [-> | H]; [done | eauto].
Qed.

Lemma parseGroupEls_spec d o gs g :
  g ∈ parseGroupEls d o gs ->
  groupEl g ∈ gs
  /\ map item (items g) = querySelectorAllIn d (groupEl g) (roleSel ROLES.item)
  /\ config g = resolveGroupConfig d (Some (groupEl g))
  /\ (forall s, s ∈ items g -> s = parseItem d (oid s) (item s)).
Proof.
  revert o. induction gs as [| e gs IH]; intros o H; simpl in H.
  - by apply elem_of_nil in H.
  - apply elem_of_cons in H as [-> | H].
    + simpl. split; [by left |]. split; [apply map_item_parseItems |].
      split; [done |]. intros s. apply parseItems_parseItem.
    + destruct (IH _ H) as (H1 & H2). split; [by right | done].
Qed.

Lemma map_groupEl_parseGroupEls d o gs : map groupEl (parseGroupEls d o gs) = gs.
Proof. revert o. induction gs as [| e gs IH]; intros o; simpl; [done | by rewrite IH]. Qed.

Lemma querySelectorAllIn_sub d r sel :
  querySelectorAllIn d r sel ⊆ querySelectorAll d sel.
Proof.
  intros e. unfold querySelectorAllIn, querySelectorAll.
  rewrite !list_elem_of_filter. intros [H1 H2]. split; [done |].
  by apply (descendants_sub r).
Qed.

Lemma elem_of_map_item (l : list FaqItemElements) e :
  e ∈ map item l <-> exists it, it ∈ l /\ item it = e.
Proof.
  rewrite list_elem_of_fmap. split; intros (it & H1 & H2); exists it; by split.
Qed.

(** X6.  The parsed groups cover the item elements of the
    document and nothing else: an element is the item of some parsed record
    exactly when it carries the item role.  Every record holds, for each
    part, the first descendant of its item element with that role.  A
    parsed group is either made from an element with the group role - its
    items are the item elements below it, its configuration is read from
    it - or it is the implicit group on the body, which has the default
    configuration (no accordion, no default-open item), is not empty, and
    holds exactly the item elements that lie below no group element. *)
Theorem parseFaqGroups_covers d :
  let groups := parseFaqGroups d in
  let sel := roleSel ROLES.item in
  (forall e, e ∈ querySelectorAll d sel <->
             exists it, it ∈ allItemsOf groups /\ item it = e)
  /\ (forall it, it ∈ allItemsOf groups -> it = parseItem d (oid it) (item it))
  /\ (forall g, g ∈ groups ->
        (groupEl g ∈ querySelectorAll d (roleSel ROLES.group)
         /\ map item (items g) = querySelectorAllIn d (groupEl g) sel
         /\ config g = resolveGroupConfig d (Some (groupEl g)))
        \/ (groupEl g = docBody d
            /\ config g = GROUP_DEFAULTS
            /\ items g <> []
            /\ forall e, e ∈ map item (items g) <->
                 e ∈ querySelectorAll d sel
                 /\ forall ge, ge ∈ querySelectorAll d (roleSel ROLES.group) ->
                               e ∉ querySelectorAllIn d ge sel)).
Proof.
  intros groups sel. subst sel. unfold groups, parseFaqGroups.
  set (groupEls := querySelectorAll d (roleSel ROLES.group)).
  set (explicit := parseGroupEls d 0 groupEls).
  set (grouped := map item (allItemsOf explicit)).
  set (els := filter (fun el => el ∉ grouped) (querySelectorAll d (roleSel ROLES.item))).
  set (orphans := parseItems d (length grouped) els).
  assert (Hgrouped : forall e, e ∈ grouped <->
            exists ge, ge ∈ groupEls /\ e ∈ querySelectorAllIn d ge (roleSel ROLES.item)).
  { intros e. unfold grouped. rewrite elem_of_map_item. split.
    - intros (it & Hit & <-). apply elem_of_flat_map in Hit as (g & Hg & Hit).
      destruct (parseGroupEls_spec d 0 groupEls g Hg) as (H1 & H2 & _).
      exists (groupEl g). split; [done |]. rewrite <- H2. apply elem_of_map_item. eauto.
    - intros (ge & Hge & He).
      assert (Hg : ge ∈ map groupEl explicit)
        by (unfold explicit; by rewrite map_groupEl_parseGroupEls).
      apply list_elem_of_fmap in Hg as (g & -> & Hg).
      destruct (parseGroupEls_spec d 0 groupEls g Hg) as (_ & H2 & _).
      rewrite <- H2 in He. apply elem_of_map_item in He as (it & Hit & <-).
      exists it. split; [| done]. apply elem_of_flat_map. eauto. }
  assert (Hels : forall e, e ∈ els <->
            e ∈ querySelectorAll d (roleSel ROLES.item)
            /\ forall ge, ge ∈ groupEls -> e ∉ querySelectorAllIn d ge (roleSel ROLES.item)).
  { intros e. unfold els. rewrite list_elem_of_filter, Hgrouped. split.
    - intros [H1 H2]. split; [done |]. intros ge Hge Hin. apply H1. eauto.
    - intros [H1 H2]. split; [| done]. intros (ge & Hge & Hin). by apply (H2 ge). }
  assert (Hexplicit : forall it, it ∈ allItemsOf explicit ->
            item it ∈ querySelectorAll d (roleSel ROLES.item) /\ it = parseItem d (oid it) (item it)).
  { intros it Hit. apply elem_of_flat_map in Hit as (g & Hg & Hit).
    destruct (parseGroupEls_spec d 0 groupEls g Hg) as (_ & H2 & _ & H4).
    split; [| by apply H4].
    apply (querySelectorAllIn_sub d (groupEl g)). rewrite <- H2.
    apply elem_of_map_item. eauto. }
  assert (Horph : forall it, it ∈ orphans ->
            item it ∈ els /\ it = parseItem d (oid it) (item it)).
  { intros it Hit. split; [| by eapply parseItems_parseItem].
    rewrite <- (map_item_parseItems d (length grouped) els).
    apply elem_of_map_item. eauto. }
  assert (Hall : forall it,
            it ∈ allItemsOf (match orphans with
                             | [] => explicit
                             | _ :: _ =>
                                 explicit ++ [mkGroup (docBody d) orphans
                                                (resolveGroupConfig d None)]
                             end)
            <-> it ∈ allItemsOf explicit \/ it ∈ orphans).
  { intros it. destruct orphans as [| o1 os] eqn:Eo.
    - split; [by left | intros [H | H]; [done | by apply elem_of_nil in H]].
    - unfold allItemsOf. rewrite flat_map_app. simpl. rewrite app_nil_r.
      by rewrite elem_of_app. }
  split; [| split].
  - intros e. split.
    + intros He. destruct (decide (e ∈ grouped)) as [Hg | Hg].
      * apply elem_of_map_item in Hg as (it & Hit & <-).
        exists it. split; [| done]. apply Hall. by left.
      * assert (Hin : e ∈ els) by (unfold els; by apply list_elem_of_filter).
        rewrite <- (map_item_parseItems d (length grouped) els) in Hin.
        apply elem_of_map_item in Hin as (it & Hit & <-).
        exists it. split; [| done]. apply Hall. by right.
    + intros (it & Hit & <-). apply Hall in Hit as [Hit | Hit].
      * by apply Hexplicit.
      * apply Horph in Hit as [Hit _]. by apply Hels in Hit as [Hit _].
  - intros it Hit. apply Hall in Hit as [Hit | Hit];
      [by apply Hexplicit | by apply Horph].
  - intros g Hg.
    assert (Hcase : g ∈ explicit
                    \/ (orphans <> []
                        /\ g = mkGroup (docBody d) orphans (resolveGroupConfig d None))).
    { destruct orphans as [| o1 os] eqn:Eo; [by left |].
      apply elem_of_app in Hg as [Hg | Hg]; [by left |].
      apply list_elem_of_singleton in Hg. right. by split. }
    destruct Hcase as [Hg' | [Hne ->]].
    + left. destruct (parseGroupEls_spec d 0 groupEls g Hg') as (H1 & H2 & H3 & _).
      done.
    + right. simpl. split; [done |]. split; [done |]. split; [done |].
      intros e. unfold orphans at 1. rewrite map_item_parseItems. apply Hels.
Qed.

(** ** [setItemState]: what it leaves behind *)

Section ItemStateMore.
Variable env : Env.

Lemma applyItemState_parts it c t open src cfg w :
  applyItemState env it c t open src cfg w =
  dispatchEvent
    (mkEvent (item it) (if open then "cur-faq:open" else "cur-faq:close")
             (DetailItem (item it)) true)
    (animateItem env it c open src (onDom (markItem it t open cfg) w)).
Proof. reflexivity. Qed.

Lemma class_animateItem it c open src w x cl :
  classContains (dom (animateItem env it c open src w)) x cl = classContains (dom w) x cl.
Proof.
  unfold animateItem.
  destruct open, src;
    unfold searchOpenedAdd, searchOpenedDelete, setSearchState, onDom; cbn [dom];
    rewrite ?class_setAttribute, ?class_removeAttribute, ?class_expand, ?class_collapse;
    reflexivity.
Qed.

Lemma attr_animateItem it c open src w x k :
  k <> "hidden" -> k <> ATTR.dataOpenedBySearch ->
  getAttribute (dom (animateItem env it c open src w)) x k = getAttribute (dom w) x k.
Proof.
  intros Hh Hs. unfold animateItem.
  destruct open, src;
    unfold searchOpenedAdd, searchOpenedDelete, setSearchState, onDom; cbn [dom];
    rewrite ?attr_set_other, ?attr_remove_other by (right; congruence);
    rewrite ?attr_collapse; try reflexivity;
    apply attr_expand; right; congruence.
Qed.

Lemma hidden_animateItem_open it c src w :
  getAttribute (dom (animateItem env it c true src w)) c "hidden" = None.
Proof.
  unfold animateItem.
  destruct src;
    unfold searchOpenedAdd, searchOpenedDelete, setSearchState, onDom; cbn [dom];
    rewrite ?attr_set_other, ?attr_remove_other by (right; str_ne);
    apply attr_expand_hidden.
Qed.

Lemma tree_collapse el w : tree (dom (collapseElement env el w)) = tree (dom w).
Proof. unfold collapseElement. cbn. by destruct (hasAttribute _ _ _). Qed.

Lemma tree_setIconVisibility icon b d : tree (setIconVisibility icon b d) = tree d.
Proof. destruct icon, b; reflexivity. Qed.

Lemma tree_animateItem it c open src w :
  tree (dom (animateItem env it c open src w)) = tree (dom w)
  /\ marks (searchState (animateItem env it c open src w)) = marks (searchState w)
  /\ currentIndex (searchState (animateItem env it c open src w))
     = currentIndex (searchState w).
Proof.
  unfold animateItem.
  destruct open, src;
    unfold searchOpenedAdd, searchOpenedDelete, setSearchState, onDom;
    cbn [dom searchState marks currentIndex];
    unfold setAttribute, removeAttribute;
    rewrite ?tree_updEl, ?tree_collapse, ?searchState_collapse;
    repeat split; reflexivity.
Qed.

Lemma tree_markItem it t open cfg d : tree (markItem it t open cfg d) = tree d.
Proof. unfold markItem. rewrite !tree_setIconVisibility. by destruct open. Qed.

Lemma tree_apply it c t open src cfg w :
  tree (dom (applyItemState env it c t open src cfg w)) = tree (dom w)
  /\ marks (searchState (applyItemState env it c t open src cfg w)) = marks (searchState w)
  /\ currentIndex (searchState (applyItemState env it c t open src cfg w))
     = currentIndex (searchState w).
Proof.
  rewrite applyItemState_parts. cbn [dispatchEvent dom searchState].
  destruct (tree_animateItem it c open src (onDom (markItem it t open cfg) w))
    as (-> & -> & ->).
  cbn [onDom dom searchState]. by rewrite tree_markItem.
Qed.

Lemma tree_setItemState it open src cfg group w :
  tree (dom (setItemState env it open src cfg group w)) = tree (dom w)
  /\ marks (searchState (setItemState env it open src cfg group w)) = marks (searchState w)
  /\ currentIndex (searchState (setItemState env it open src cfg group w))
     = currentIndex (searchState w).
Proof.
  assert (Hng : forall s o w0,
            tree (dom (setItemStateNoGroup env s o src cfg w0)) = tree (dom w0)
            /\ marks (searchState (setItemStateNoGroup env s o src cfg w0))
               = marks (searchState w0)
            /\ currentIndex (searchState (setItemStateNoGroup env s o src cfg w0))
               = currentIndex (searchState w0)).
  { intros s o w0. unfold setItemStateNoGroup, setItemStateWith.
    destruct (content s); [| done]. destruct (trigger s); [| done]. apply tree_apply. }
  assert (Hfold : forall l w0,
            tree (dom (foldl (closeSiblings env (setItemStateNoGroup env) it src cfg) w0 l))
              = tree (dom w0)
            /\ marks (searchState
                 (foldl (closeSiblings env (setItemStateNoGroup env) it src cfg) w0 l))
               = marks (searchState w0)
            /\ currentIndex (searchState
                 (foldl (closeSiblings env (setItemStateNoGroup env) it src cfg) w0 l))
               = currentIndex (searchState w0)).
  { induction l as [| s l IH]; intros w0; [done |]. simpl.
    destruct (IH (closeSiblings env (setItemStateNoGroup env) it src cfg w0 s))
      as (-> & -> & ->).
    unfold closeSiblings. destruct (_ && _); [apply Hng | done]. }
  unfold setItemState, setItemStateWith.
  destruct (content it) as [c |]; [| done]. destruct (trigger it) as [t |]; [| done].
  destruct (tree_apply it c t open src cfg
              match group with
              | Some g =>
                  if open && accordion (config g)
                  then foldl (closeSiblings env (setItemStateNoGroup env) it src cfg) w (items g)
                  else w
              | None => w
              end) as (-> & -> & ->).
  destruct group as [g |]; [| done]. destruct (open && accordion (config g)); [| done].
  apply Hfold.
Qed.


Lemma dispatched_closeSiblings_step X src cfg w s :
  dispatched (closeSiblings env (setItemStateNoGroup env) X src cfg w s) = dispatched w
  \/ (complete s /\ oid s <> oid X
      /\ dispatched (closeSiblings env (setItemStateNoGroup env) X src cfg w s)
         = dispatched w
           ++ [mkEvent (item s) "cur-faq:close" (DetailItem (item s)) true]).
Proof.
  unfold closeSiblings.
  destruct (decide (oid s = oid X)) as [Eo | Eo].
  { rewrite bool_decide_eq_true_2 by done. by left. }
  rewrite bool_decide_eq_false_2 by done. simpl.
  destruct (isItemOpen env (dom w) s); [| by left].
  destruct (content s) as [c |] eqn:Hc; [destruct (trigger s) as [t |] eqn:Ht |].
  - right. rewrite (setItemStateNoGroup_complete env s c t) by done.
    rewrite dispatched_apply. split; [split; eauto | done].
  - left. by rewrite setItemStateNoGroup_incomplete by (by right).
  - left. by rewrite setItemStateNoGroup_incomplete by (by left).
Qed.

Lemma dispatched_closeSiblings X src cfg l w :
  exists closes,
    dispatched (foldl (closeSiblings env (setItemStateNoGroup env) X src cfg) w l)
      = dispatched w ++ closes
    /\ Forall (fun ev => exists s, s ∈ l /\ complete s /\ oid s <> oid X
                 /\ ev = mkEvent (item s) "cur-faq:close" (DetailItem (item s)) true)
              closes.
Proof.
  revert w. induction l as [| s l IH]; intros w.
  - exists []. split; [by rewrite app_nil_r | constructor].
  - simpl.
    destruct (IH (closeSiblings env (setItemStateNoGroup env) X src cfg w s))
      as (closes & E & Hall).
    assert (Hall' : Forall (fun ev => exists s0, s0 ∈ s :: l /\ complete s0
                              /\ oid s0 <> oid X
                              /\ ev = mkEvent (item s0) "cur-faq:close"
                                        (DetailItem (item s0)) true) closes).
    { eapply Forall_impl; [exact Hall |]. intros ev (s0 & H1 & H2).
      exists s0. split; [by right | done]. }
    destruct (dispatched_closeSiblings_step X src cfg w s) as [Es | (Hs & Ho & Es)];
      rewrite Es in E.
    + eauto.
    + eexists (_ :: closes). split; [by rewrite E, <- app_assoc |].
      constructor; [| done]. exists s. split; [by left | done].
Qed.

(** X8.  A call of [setItemState] on an item with
    content and trigger dispatches the item's own bubbling event last -
    "cur-faq:open" or "cur-faq:close", on the item element, with the item
    element in the detail.  What comes before it are the close events of
    the siblings that the accordion closed, each on a sibling's item
    element; when the call closes, passes no group or the group is no
    accordion, there are none and exactly one event is dispatched. *)
Theorem setItemState_events it c t open src cfg group w :
  content it = Some c -> trigger it = Some t ->
  exists closes,
    dispatched (setItemState env it open src cfg group w)
    = dispatched w ++ closes
      ++ [mkEvent (item it) (if open then "cur-faq:open" else "cur-faq:close")
                  (DetailItem (item it)) true]
    /\ Forall (fun ev => exists g s, group = Some g /\ s ∈ items g /\ complete s
                 /\ oid s <> oid it
                 /\ ev = mkEvent (item s) "cur-faq:close" (DetailItem (item s)) true)
              closes
    /\ (open = false \/ group = None
        \/ (exists g, group = Some g /\ accordion (config g) = false) -> closes = []).
Proof.
  intros Hc Ht. unfold setItemState, setItemStateWith. rewrite Hc, Ht.
  rewrite dispatched_apply.
  destruct group as [g |].
  - destruct (open && accordion (config g)) eqn:Eacc.
    + destruct (dispatched_closeSiblings it src cfg (items g) w) as (closes & E & Hall).
      exists closes. split; [by rewrite E, <- app_assoc |]. split.
      * eapply Forall_impl; [exact Hall |]. intros ev (s & H1 & H2). eauto.
      * apply andb_true_iff in Eacc as [-> Eacc].
        intros [? | [? | (g' & [= <-] & ?)]]; congruence.
    + exists []. split; [done |]. split; [constructor | done].
  - exists []. split; [done |]. split; [constructor | done].
Qed.

(** X9.  [setItemState] never changes the document tree,
    the match list or the match cursor.  When it closes, is given no group,
    or the group is no accordion, it writes to no element but the item's
    own (item, trigger, content and the two icons). *)
Theorem setItemState_frame it open src cfg group w :
  let w' := setItemState env it open src cfg group w in
  tree (dom w') = tree (dom w)
  /\ marks (searchState w') = marks (searchState w)
  /\ currentIndex (searchState w') = currentIndex (searchState w)
  /\ (open = false \/ group = None
      \/ (exists g, group = Some g /\ accordion (config g) = false) ->
      forall x, x ∉ itemElems it -> getEl (dom w') x = getEl (dom w) x).
Proof.
  intros w'. destruct (tree_setItemState it open src cfg group w) as (H1 & H2 & H3).
  split; [done |]. split; [done |]. split; [done |].
  intros Hcase x Hx. unfold w', setItemState, setItemStateWith.
  destruct (content it) as [c |] eqn:Hc; [| done].
  destruct (trigger it) as [t |] eqn:Ht; [| done].
  rewrite getEl_apply by done.
  destruct group as [g |]; [| done].
  destruct (open && accordion (config g)) eqn:Eacc; [| done].
  apply andb_true_iff in Eacc as [-> Eacc].
  destruct Hcase as [? | [? | (g' & [= <-] & ?)]]; congruence.
Qed.

End ItemStateMore.


Lemma setItemState_events_witness :
  dispatched (setItemState Page.noLayout Page.faqItem true User DEFAULTS None
                (Page.ready Page.noLayout))
  = dispatched (Page.ready Page.noLayout)
    ++ [mkEvent 11 "cur-faq:open" (DetailItem 11) true].
Proof.
  destruct (setItemState_events Page.noLayout Page.faqItem 16 12 true User DEFAULTS None
              (Page.ready Page.noLayout) eq_refl eq_refl)
    as (closes & E & _ & Hnone).
  rewrite (Hnone (or_intror (or_introl eq_refl))) in E.
  vm_compute in E |- *. exact E.
Defined.
(** ** Expand, collapse and the end of a transition *)

Lemma removeFirst_snoc (l : listener) ls : removeFirst l (ls ++ [l]) ≡ₚ ls.
Proof.
  induction ls as [| x ls IH]; simpl.
  - by rewrite decide_True.
  - case_decide as E.
    + subst x. symmetry. apply Permutation_cons_append.
    + by rewrite IH.
Qed.

Lemma getStyle_clear e k d : getStyle (setStyle e k "" d) e k = "".
Proof.
  unfold getStyle, setStyle. rewrite getEl_updEl, decide_True by done.
  simpl. by rewrite lookup_delete_eq.
Qed.

Section Animation.
Variable env : Env.

Lemma stamp_expand el w :
  animationTimestamps (expandElement env el w) !! el = Some (now w).
Proof. unfold expandElement. cbn. apply lookup_insert_eq. Qed.

Lemma stamp_collapse el w :
  animationTimestamps (collapseElement env el w) !! el = Some (now w).
Proof.
  unfold collapseElement. destruct (hasAttribute _ _ _); cbn; apply lookup_insert_eq.
Qed.

(** X10.  The handler that a collapse leaves on the content
    acts only on the end of a height transition, and only while its
    collapse is the latest animation of the element.  Then it hides the
    content, clears the inline height and takes itself off the element.  A
    transition of another property is ignored; so is the end of a collapse
    once the element has been expanded again at another time stamp - the
    content of the re-opened item stays visible.  (When the expansion
    carries the same time stamp, the handler of the collapse still acts and
    hides the content.)  Collapsing an element that is hidden already
    starts no animation: no handler is registered. *)
Theorem collapse_transition_end el w :
  (hasAttribute (dom w) el "hidden" = false ->
   let w1 := collapseElement env el w in
   let h := CollapseEnd el (now w) in
   listeners w1 = listeners w ++ [mkListener el "transitionend" h]
   /\ getAttribute (dom w1) el "hidden" = None
   /\ getAttribute (dom (onTransitionEnd h "height" w1)) el "hidden" = Some ""
   /\ getStyle (dom (onTransitionEnd h "height" w1)) el "height" = ""
   /\ listeners (onTransitionEnd h "height" w1) ≡ₚ listeners w
   /\ (forall p, p <> "height" -> onTransitionEnd h p w1 = w1))
  /\ (forall stamp p w',
        now w' <> stamp ->
        onTransitionEnd (CollapseEnd el stamp) p (expandElement env el w')
        = expandElement env el w')
  /\ (forall w',
        getAttribute
          (dom (onTransitionEnd (CollapseEnd el (now w')) "height"
                  (expandElement env el w'))) el "hidden" = Some "")
  /\ (hasAttribute (dom w) el "hidden" = true ->
      listeners (collapseElement env el w) = listeners w
      /\ getStyle (dom (collapseElement env el w)) el "height" = ""
      /\ hasAttribute (dom (collapseElement env el w)) el "hidden" = true).
Proof.
  split; [| split; [| split]].
  - intros Hh w1 h.
    assert (Hst : animationTimestamps w1 !! el = Some (now w)) by apply stamp_collapse.
    assert (Hend : onTransitionEnd h "height" w1
                   = onDom (setStyle el "height" "")
                       (onDom (setAttribute el "hidden" "")
                          (removeEventListener (mkListener el "transitionend" h) w1))).
    { unfold onTransitionEnd, h. rewrite Hst.
      by rewrite !bool_decide_eq_true_2 by done. }
    assert (Hls : listeners w1 = listeners w ++ [mkListener el "transitionend" h]).
    { unfold w1, collapseElement. cbn [dom stampAnimation]. by rewrite Hh. }
    split; [exact Hls |]. split; [| split; [| split; [| split]]].
    + unfold w1. rewrite attr_collapse. unfold hasAttribute in Hh.
      apply bool_decide_eq_false in Hh.
      destruct (getAttribute (dom w) el "hidden"); [| done]. exfalso. eauto.
    + rewrite Hend. cbn [onDom dom]. rewrite attr_setStyle. apply attr_set_same.
    + rewrite Hend. cbn [onDom dom]. apply getStyle_clear.
    + rewrite Hend. cbn [onDom listeners removeEventListener setListeners].
      rewrite Hls. apply removeFirst_snoc.
    + intros p Hp. unfold onTransitionEnd, h.
      by rewrite (bool_decide_eq_false_2 (p = "height")) by done.
  - intros stamp p w' Hne. unfold onTransitionEnd.
    rewrite stamp_expand.
    rewrite (bool_decide_eq_false_2 (Some (now w') = Some stamp)) by congruence.
    by rewrite andb_false_r.
  - intros w'. unfold onTransitionEnd. rewrite stamp_expand.
    rewrite !bool_decide_eq_true_2 by done. cbn [andb onDom dom].
    rewrite attr_setStyle. apply attr_set_same.
  - intros Hh. unfold collapseElement. cbn [dom stampAnimation]. rewrite Hh.
    cbn [onDom dom listeners]. split; [done |]. split; [apply getStyle_clear |].
    unfold hasAttribute in *. by rewrite attr_setStyle.
Qed.

(** X11.  [expandElement] shows the content and animates it to its
    full height: the hidden attribute is gone, the inline height is the
    scroll height in pixels, and the handler it registers sets the height
    to "auto" at the end of the height transition and takes itself off,
    unless a later animation of the element has started at another time
    stamp. *)
Theorem expand_transition_end el w :
  let w1 := expandElement env el w in
  let h := ExpandEnd el (now w) in
  getAttribute (dom w1) el "hidden" = None
  /\ listeners w1 = listeners w ++ [mkListener el "transitionend" h]
  /\ getStyle (dom (onTransitionEnd h "height" w1)) el "height" = "auto"
  /\ listeners (onTransitionEnd h "height" w1) ≡ₚ listeners w
  /\ (forall p, p <> "height" -> onTransitionEnd h p w1 = w1)
  /\ (forall stamp p w',
        now w' <> stamp ->
        onTransitionEnd (ExpandEnd el stamp) p (collapseElement env el w')
        = collapseElement env el w').
Proof.
  intros w1 h.
  assert (Hst : animationTimestamps w1 !! el = Some (now w)) by apply stamp_expand.
  assert (Hend : onTransitionEnd h "height" w1
                 = onDom (setStyle el "height" "auto")
                     (removeEventListener (mkListener el "transitionend" h) w1)).
  { unfold onTransitionEnd, h. rewrite Hst. by rewrite !bool_decide_eq_true_2 by done. }
  split; [apply attr_expand_hidden |]. split; [done |].
  split; [| split; [| split]].
  - rewrite Hend. cbn [onDom dom]. by apply getStyle_setStyle.
  - rewrite Hend. cbn [onDom listeners removeEventListener setListeners].
    apply removeFirst_snoc.
  - intros p Hp. unfold onTransitionEnd, h.
    by rewrite (bool_decide_eq_false_2 (p = "height")) by done.
  - intros stamp p w' Hne. unfold onTransitionEnd. rewrite stamp_collapse.
    rewrite (bool_decide_eq_false_2 (Some (now w') = Some stamp)) by congruence.
    by rewrite andb_false_r.
Qed.

End Animation.

(** ** Listeners: registration and removal *)

Lemma listeners_addListeners ls w :
  listeners (foldl (fun w l => addEventListener l w) w ls) = listeners w ++ ls.
Proof.
  revert w. induction ls as [| l ls IH]; intros w; simpl; [by rewrite app_nil_r |].
  rewrite IH. cbn. by rewrite <- app_assoc.
Qed.

Lemma listeners_removeAll ls w :
  listeners (foldl (fun w l => removeEventListener l w) w ls)
  = foldl (fun xs l => removeFirst l xs) (listeners w) ls.
Proof. revert w. induction ls as [| l ls IH]; intros w; simpl; [done | by rewrite IH]. Qed.

Lemma removeFirst_perm (l : listener) xs : l ∈ xs -> l :: removeFirst l xs ≡ₚ xs.
Proof.
  induction xs as [| x xs IH]; intros H; [by apply elem_of_nil in H |].
  simpl. case_decide as E; [by subst |].
  apply elem_of_cons in H as [H | H]; [congruence |].
  rewrite Permutation_swap. by rewrite IH.
Qed.

(** Taking off, one by one, listeners that are all there leaves the
    others. *)
Lemma removeAll_perm (ls xs base : list listener) :
  xs ≡ₚ base ++ ls -> foldl (fun xs l => removeFirst l xs) xs ls ≡ₚ base.
Proof.
  revert xs base. induction ls as [| l ls IH]; intros xs base H; simpl.
  - by rewrite app_nil_r in H.
  - apply IH.
    assert (Hin : l ∈ xs) by (rewrite H; set_solver).
    apply (Permutation_cons_inv (a := l)).
    rewrite (removeFirst_perm l xs Hin), H.
    by rewrite Permutation_middle.
Qed.

Lemma dom_removeAll ls w :
  dom (foldl (fun w l => removeEventListener l w) w ls) = dom w.
Proof. revert w. induction ls as [| l ls IH]; intros w; simpl; [done | by rewrite IH]. Qed.

Section Registration.
Variable env : Env.

Lemma listeners_ensureId el prefix w :
  listeners (ensureId env el prefix w).2 = listeners w.
Proof.
  unfold ensureId. destruct (getAttribute (dom w) el "id"); [case_decide |]; done.
Qed.

Lemma listeners_setupAria it w : listeners (setupAria env it w) = listeners w.
Proof.
  unfold setupAria. destruct (trigger it) as [t |]; [| done].
  destruct (content it) as [c |]; [| done].
  pose proof (listeners_ensureId c "cur-faq" w) as H.
  destruct (ensureId env c "cur-faq" w) as [contentId w1]. simpl in H.
  cbn [onDom dom]. destruct (bool_decide _); [done |].
  cbn [onDom dom]. destruct (hasAttribute _ _ _); done.
Qed.

Lemma bindItem_spec g acc it :
  (bindItem env g acc it).1 = acc.1 ++ itemListeners g it
  /\ listeners (bindItem env g acc it).2 = listeners acc.2 ++ itemListeners g it.
Proof.
  unfold bindItem, itemListeners. destruct (trigger it) as [t |].
  - cbn [fst snd]. split; [done |].
    by rewrite listeners_addListeners, listeners_setupAria.
  - by rewrite !app_nil_r.
Qed.

Lemma bindItems_spec g l acc :
  (foldl (bindItem env g) acc l).1 = acc.1 ++ flat_map (itemListeners g) l
  /\ listeners (foldl (bindItem env g) acc l).2
     = listeners acc.2 ++ flat_map (itemListeners g) l.
Proof.
  revert acc. induction l as [| it l IH]; intros acc; simpl.
  - by rewrite !app_nil_r.
  - destruct (IH (bindItem env g acc it)) as [-> ->].
    destruct (bindItem_spec g acc it) as [-> ->].
    by rewrite <- !app_assoc.
Qed.

Lemma bindGroups_spec groups acc :
  (foldl (fun acc g => foldl (bindItem env g) acc (items g)) acc groups).1
    = acc.1 ++ groupListeners groups
  /\ listeners (foldl (fun acc g => foldl (bindItem env g) acc (items g)) acc groups).2
     = listeners acc.2 ++ groupListeners groups.
Proof.
  revert acc. induction groups as [| g l IH]; intros acc; simpl.
  - unfold groupListeners. simpl. by rewrite !app_nil_r.
  - destruct (IH (foldl (bindItem env g) acc (items g))) as [-> ->].
    destruct (bindItems_spec g (items g) acc) as [-> ->].
    unfold groupListeners. simpl. by rewrite <- !app_assoc.
Qed.

Lemma bindAccordionListeners_spec groups w :
  (bindAccordionListeners env groups w).1 = groupListeners groups
  /\ listeners (bindAccordionListeners env groups w).2
     = listeners w ++ groupListeners groups.
Proof. apply (bindGroups_spec groups ([], w)). Qed.

(** X12.  [bindAccordionListeners] registers, for
    every item that has a trigger, a click and a keydown listener on that
    trigger, in the order of the groups and their items, and nothing for an
    item without trigger; what it returns for the cleanup is exactly what
    it registered; and running the cleanup leaves the listeners that were
    there before. *)
Theorem bindAccordionListeners_registers groups w :
  let r := bindAccordionListeners env groups w in
  r.1 = groupListeners groups
  /\ listeners r.2 = listeners w ++ r.1
  /\ listeners (foldl (fun w l => removeEventListener l w) r.2 r.1) ≡ₚ listeners w
  /\ (forall g it, g ∈ groups -> it ∈ items g ->
        forall l, l ∈ itemListeners g it ->
          l ∈ r.1 /\ trigger it = Some (lsTarget l)
          /\ (lsType l = "click" /\ lsHandler l = HandleToggle it g
              \/ lsType l = "keydown" /\ lsHandler l = HandleKeydown it g)).
Proof.
  intros r. unfold r.
  destruct (bindAccordionListeners_spec groups w) as [E1 E2].
  split; [done |]. split; [by rewrite E2, E1 |]. split.
  - rewrite listeners_removeAll. apply removeAll_perm. by rewrite E2, E1.
  - intros g it Hg Hit l Hl. rewrite E1. split.
    + unfold groupListeners. apply elem_of_flat_map. exists g. split; [done |].
      apply elem_of_flat_map. eauto.
    + unfold itemListeners in Hl. destruct (trigger it) as [t |]; [| by apply elem_of_nil in Hl].
      unfold toggleListeners in Hl.
      apply elem_of_cons in Hl as [-> | Hl]; [split; [done | by left] |].
      apply list_elem_of_singleton in Hl as ->. split; [done | by right].
Qed.

Lemma listeners_animateItem it c open src w :
  exists anim, listeners (animateItem env it c open src w) = listeners w ++ anim
               /\ Forall isTransitionEnd anim.
Proof.
  unfold animateItem.
  destruct open; [| unfold collapseElement; destruct (hasAttribute _ _ _)];
    destruct src; cbn;
    first [ by (exists []; rewrite app_nil_r; split; [| constructor])
          | by (eexists [_]; split; [reflexivity |]; constructor; [| constructor]) ].
Qed.

Lemma listeners_apply it c t open src cfg w :
  exists anim, listeners (applyItemState env it c t open src cfg w) = listeners w ++ anim
               /\ Forall isTransitionEnd anim.
Proof.
  rewrite applyItemState_parts. cbn [dispatchEvent listeners].
  apply (listeners_animateItem it c open src (onDom (markItem it t open cfg) w)).
Qed.

Lemma listeners_closeSiblings X src cfg l w :
  exists anim,
    listeners (foldl (closeSiblings env (setItemStateNoGroup env) X src cfg) w l)
      = listeners w ++ anim
    /\ Forall isTransitionEnd anim.
Proof.
  revert w. induction l as [| s l IH]; intros w; simpl.
  - exists []. by rewrite app_nil_r.
  - destruct (IH (closeSiblings env (setItemStateNoGroup env) X src cfg w s))
      as (a2 & -> & H2).
    assert (H1 : exists a1,
               listeners (closeSiblings env (setItemStateNoGroup env) X src cfg w s)
                 = listeners w ++ a1 /\ Forall isTransitionEnd a1).
    { unfold closeSiblings. destruct (_ && _); [| exists []; by rewrite app_nil_r].
      unfold setItemStateNoGroup, setItemStateWith.
      destruct (content s); [| exists []; by rewrite app_nil_r].
      destruct (trigger s); [| exists []; by rewrite app_nil_r].
      apply listeners_apply. }
    destruct H1 as (a1 & -> & H1). exists (a1 ++ a2).
    split; [by rewrite app_assoc | by apply Forall_app].
Qed.

Lemma listeners_setItemState it open src cfg group w :
  exists anim, listeners (setItemState env it open src cfg group w) = listeners w ++ anim
               /\ Forall isTransitionEnd anim.
Proof.
  unfold setItemState, setItemStateWith.
  destruct (content it) as [c |]; [| exists []; by rewrite app_nil_r].
  destruct (trigger it) as [t |]; [| exists []; by rewrite app_nil_r].
  match goal with
  | |- context [applyItemState env it c t open src cfg ?x] =>
      destruct (listeners_apply it c t open src cfg x) as (a2 & -> & H2);
      assert (H1 : exists a1, listeners x = listeners w ++ a1 /\ Forall isTransitionEnd a1)
  end.
  { destruct group as [g |]; [| exists []; by rewrite app_nil_r].
    destruct (open && accordion (config g)); [| exists []; by rewrite app_nil_r].
    apply listeners_closeSiblings. }
  destruct H1 as (a1 & -> & H1). exists (a1 ++ a2).
  split; [by rewrite app_assoc | by apply Forall_app].
Qed.

Lemma listeners_openDefaults cfg groups w :
  exists anim, listeners (foldl (openDefault env cfg) w groups) = listeners w ++ anim
               /\ Forall isTransitionEnd anim
               /\ (defaultTargets groups = [] -> anim = []).
Proof.
  revert w. induction groups as [| g l IH]; intros w; simpl.
  - exists []. by rewrite app_nil_r.
  - destruct (IH (openDefault env cfg w g)) as (a2 & -> & H2 & N2).
    rewrite openDefault_defaultTarget. unfold defaultTargets. simpl.
    destruct (defaultTarget g) as [target |].
    + destruct (listeners_setItemState target true User cfg (Some g) w) as (a1 & -> & H1).
      exists (a1 ++ a2). split; [by rewrite app_assoc |]. split; [by apply Forall_app | done].
    + exists a2. split; [done |]. split; [done |]. exact N2.
Qed.

End Registration.

Lemma listeners_createFloatingPanel w :
  listeners (createFloatingPanel w).2 = listeners w ++ fpCleanup (createFloatingPanel w).1.
Proof.
  unfold createFloatingPanel.
  repeat match goal with
         | |- context [let '(_, _) := createElement ?tag ?d in _] =>
             destruct (createElement tag d)
         end.
  cbn. by rewrite <- !app_assoc.
Qed.

Lemma listeners_bindSearch cfg w :
  let r := bindSearch cfg w in
  listeners r.2 = listeners w ++ default [] (fpCleanup <$> r.1.1) ++ r.1.2.
Proof.
  unfold bindSearch.
  match goal with |- context [match ?m with Some _ => _ | None => _ end] =>
    destruct m as [input |] end; [| simpl; by rewrite app_nil_r].
  destruct (floatingSearch cfg).
  - pose proof (listeners_createFloatingPanel w) as H.
    destruct (createFloatingPanel w) as [fp w1]. simpl in *.
    rewrite H. by rewrite <- !app_assoc.
  - simpl. by rewrite <- !app_assoc.
Qed.

Lemma initFaq_listeners env w inst w1 :
  winInitialized w = false -> initFaq env w = (Some inst, w1) ->
  exists anim,
    listeners w1 = listeners w ++ anim ++ accordionListeners inst
                   ++ floatingListeners inst ++ searchCleanups inst
    /\ Forall isTransitionEnd anim
    /\ (defaultTargets (instGroups inst) = [] -> anim = [])
    /\ accordionListeners inst = groupListeners (instGroups inst).
Proof.
  intros Hflag. unfold initFaq. rewrite Hflag.
  destruct (injectStyles _ _) as [style d] eqn:Es.
  match goal with
  | |- context [bindAccordionListeners env ?gs (foldl (openDefault env ?cfg) ?x ?gs)] =>
      destruct (listeners_openDefaults env cfg gs x) as (anim & Ea & Ha & Hn);
      destruct (bindAccordionListeners_spec env gs (foldl (openDefault env cfg) x gs))
        as [E1 E2];
      destruct (bindAccordionListeners env gs (foldl (openDefault env cfg) x gs))
        as [accordionLs wa] eqn:Eacc
  end.
  cbn [fst snd] in E1, E2.
  match goal with
  | |- context [bindSearch ?cfg ?x] =>
      pose proof (listeners_bindSearch cfg x) as Hs;
      destruct (bindSearch cfg x) as [[floating searchLs] ws] eqn:Eb
  end.
  cbn [fst snd] in Hs. intros [= <- <-]. exists anim.
  cbn [listeners setWindow accordionListeners floatingListeners searchCleanups instGroups].
  rewrite Hs. cbn [onDom listeners]. rewrite E2, Ea.
  cbn [listeners onDom setSearchState setWindow]. rewrite E1.
  split; [by rewrite <- !app_assoc |]. split; [done |]. split; [done | done].
Qed.



(** ** [initFaq] *)



(** ** Highlighting keeps the text *)

Lemma concat_cons (x : string) l : String.concat "" (x :: l) = x +:+ String.concat "" l.
Proof. destruct l; simpl; [by rewrite append_empty_r | done]. Qed.

Lemma nodesText_cons n ns : nodesText (n :: ns) = nodeText n +:+ nodesText ns.
Proof. unfold nodesText. simpl map. apply concat_cons. Qed.

Lemma nodesText_app a b : nodesText (a ++ b) = nodesText a +:+ nodesText b.
Proof.
  induction a as [| n a IH]; [done |].
  rewrite <- app_comm_cons, !nodesText_cons, IH. by rewrite append_assoc.
Qed.

Lemma nodeText_Elem e ks : nodeText (Elem e ks) = nodesText ks.
Proof. reflexivity. Qed.

Lemma fragmentOf_spec rs next e :
  (e < next)%nat ->
  nodesText (fragmentOf rs next).1 = runsText rs
  /\ (next <= (fragmentOf rs next).2)%nat
  /\ flat_map (kidsNode e) (fragmentOf rs next).1 = []
  /\ (forall x, x ∈ treeElems (fragmentOf rs next).1 ->
                (next <= x < (fragmentOf rs next).2)%nat).
Proof.
  revert next. induction rs as [| r rs IH]; intros next He.
  - simpl. split; [done |]. split; [lia |]. split; [done |].
    intros x Hx. by apply elem_of_nil in Hx.
  - destruct r as [s | s]; simpl.
    + destruct (IH next He) as (H1 & H2 & H3 & H4).
      destruct (fragmentOf rs next) as [ns nx]. simpl in *.
      rewrite nodesText_cons. simpl. rewrite H1. done.
    + destruct (IH (S next) ltac:(lia)) as (H1 & H2 & H3 & H4).
      destruct (fragmentOf rs (S next)) as [ns nx]. simpl in *.
      rewrite nodesText_cons, H1. split.
      { f_equal. case_decide as Es; [by subst | by rewrite nodeText_Elem]. }
      split; [lia |]. split.
      { rewrite decide_False by lia. rewrite H3, app_nil_r.
        case_decide; done. }
      intros x Hx. unfold treeElems in *. simpl in Hx.
      apply elem_of_cons in Hx as [-> | Hx]; [lia |].
      apply elem_of_app in Hx as [Hx | Hx].
      * case_decide; simpl in Hx; by apply elem_of_nil in Hx.
      * apply H4 in Hx. lia.
Qed.

Lemma walkNodes_cons f k l nx :
  walkNodes f (k :: l) nx =
  a ← f k nx; b ← walkNodes f l a.2; Some (a.1 ++ b.1, b.2).
Proof. reflexivity. Qed.

Lemma walkForest_cons f k l nx :
  walkForest f (k :: l) nx =
  a ← f k nx; b ← walkForest f l a.2; Some (a.1 :: b.1, b.2).
Proof. reflexivity. Qed.

(** What a walk does to the text, to the children of an element that was
    there before, and to the elements. *)
Lemma walkNodes_spec (f : node -> elem -> option (list node * elem)) (e : elem) l :
  Forall (fun k => forall (nx : elem) r, (e < nx)%nat -> f k nx = Some r ->
            nodesText r.1 = nodeText k
            /\ (nx <= r.2)%nat
            /\ nodesText (flat_map (kidsNode e) r.1) = nodesText (kidsNode e k)
            /\ (forall x, x ∈ treeElems r.1 -> x ∈ nodeElems k \/ (nx <= x < r.2)%nat)
            /\ nodeElems k ⊆ treeElems r.1) l ->
  forall (nx : elem) r, (e < nx)%nat -> walkNodes f l nx = Some r ->
    nodesText r.1 = nodesText l
    /\ (nx <= r.2)%nat
    /\ nodesText (flat_map (kidsNode e) r.1) = nodesText (flat_map (kidsNode e) l)
    /\ (forall x, x ∈ treeElems r.1 -> x ∈ treeElems l \/ (nx <= x < r.2)%nat)
    /\ treeElems l ⊆ treeElems r.1.
Proof.
  induction 1 as [| k l Hk _ IH]; intros nx r He Hr.
  - injection Hr as <-. simpl. split; [done |]. split; [lia |]. split; [done |].
    split; [auto | done].
  - rewrite walkNodes_cons in Hr.
    destruct (f k nx) as [a |] eqn:Ea; [| done].
    cbn [mbind option_bind] in Hr.
    destruct (Hk nx a He Ea) as (A1 & A2 & A3 & A4 & A5).
    destruct (walkNodes f l a.2) as [b |] eqn:Eb; [| discriminate Hr]. simpl in Hr.
    injection Hr as <-. simpl.
    destruct (IH a.2 b ltac:(lia) Eb) as (B1 & B2 & B3 & B4 & B5).
    unfold treeElems in *. rewrite !flat_map_app, !nodesText_app, nodesText_cons.
    rewrite A1, B1, A3, B3. split; [done |]. split; [lia |]. split; [done |]. split.
    + intros x Hx. apply elem_of_app in Hx as [Hx | Hx].
      * destruct (A4 x Hx) as [? | ?]; [left; set_solver | right; lia].
      * destruct (B4 x Hx) as [? | ?]; [left; set_solver | right; lia].
    + simpl. set_solver.
Qed.

Lemma walkForest_spec (f : node -> elem -> option (node * elem)) (e : elem) l :
  Forall (fun k => forall (nx : elem) r, (e < nx)%nat -> f k nx = Some r ->
            nodeText r.1 = nodeText k
            /\ (nx <= r.2)%nat
            /\ nodesText (kidsNode e r.1) = nodesText (kidsNode e k)
            /\ (forall x, x ∈ nodeElems r.1 -> x ∈ nodeElems k \/ (nx <= x < r.2)%nat)
            /\ nodeElems k ⊆ nodeElems r.1) l ->
  forall (nx : elem) r, (e < nx)%nat -> walkForest f l nx = Some r ->
    nodesText r.1 = nodesText l
    /\ (nx <= r.2)%nat
    /\ nodesText (flat_map (kidsNode e) r.1) = nodesText (flat_map (kidsNode e) l)
    /\ (forall x, x ∈ treeElems r.1 -> x ∈ treeElems l \/ (nx <= x < r.2)%nat)
    /\ treeElems l ⊆ treeElems r.1.
Proof.
  induction 1 as [| k l Hk _ IH]; intros nx r He Hr.
  - injection Hr as <-. simpl. split; [done |]. split; [lia |]. split; [done |].
    split; [auto | done].
  - rewrite walkForest_cons in Hr.
    destruct (f k nx) as [a |] eqn:Ea; [| done].
    cbn [mbind option_bind] in Hr.
    destruct (Hk nx a He Ea) as (A1 & A2 & A3 & A4 & A5).
    destruct (walkForest f l a.2) as [b |] eqn:Eb; [| discriminate Hr]. simpl in Hr.
    injection Hr as <-. simpl.
    destruct (IH a.2 b ltac:(lia) Eb) as (B1 & B2 & B3 & B4 & B5).
    unfold treeElems in *. simpl.
    rewrite !nodesText_app, !nodesText_cons.
    rewrite A1, B1, A3, B3. split; [done |]. split; [lia |]. split; [done |]. split.
    + intros x Hx. apply elem_of_app in Hx as [Hx | Hx].
      * destruct (A4 x Hx) as [? | ?]; [left; set_solver | right; lia].
      * destruct (B4 x Hx) as [? | ?]; [left; set_solver | right; lia].
    + set_solver.
Qed.

Lemma hlNode_spec normalised e n :
  forall nx r, (e < nx)%nat -> hlNode normalised n nx = Some r ->
    nodesText r.1 = nodeText n
    /\ (nx <= r.2)%nat
    /\ nodesText (flat_map (kidsNode e) r.1) = nodesText (kidsNode e n)
    /\ (forall x, x ∈ treeElems r.1 -> x ∈ nodeElems n \/ (nx <= x < r.2)%nat)
    /\ nodeElems n ⊆ treeElems r.1.
Proof.
  induction n as [s | e' ks IH] using node_ind_forall; intros nx r He Hr.
  - simpl in Hr. destruct (Js.includes _ _).
    + destruct (splitText s normalised) as [rs |] eqn:Ers; [| done].
      simpl in Hr. injection Hr as <-.
      assert (Hn : normalised <> "").
      { intros ->. unfold splitText in Ers.
        by rewrite splitLoop_empty_needle in Ers. }
      destruct (fragmentOf_spec rs nx e He) as (H1 & H2 & H3 & H4).
      rewrite H1, H3. split; [by apply splitText_concat in Ers |].
      split; [done |]. split; [done |]. split; [| simpl; set_solver].
      intros x Hx. right. by apply H4.
    + injection Hr as <-. simpl. split; [by rewrite nodesText_cons, append_empty_r |].
      split; [lia |]. split; [done |]. split; [| simpl; set_solver].
      intros x Hx. by apply elem_of_nil in Hx.
  - simpl in Hr.
    destruct (walkNodes (hlNode normalised) ks nx) as [r' |] eqn:Er'; [| done].
    simpl in Hr. injection Hr as <-.
    destruct (walkNodes_spec (hlNode normalised) e ks IH nx r' He Er')
      as (H1 & H2 & H3 & H4 & H5).
    cbn [fst snd]. split; [by rewrite nodesText_cons, nodeText_Elem, H1, append_empty_r |].
    split; [done |]. split.
    + simpl. rewrite app_nil_r. case_decide; [done | exact H3].
    + unfold treeElems in *. simpl. rewrite app_nil_r. split.
      * intros x Hx. apply elem_of_cons in Hx as [-> | Hx]; [left; by left |].
        destruct (H4 x Hx) as [? | ?]; [left; by right | by right].
      * set_solver.
Qed.

Lemma hlAt_spec root normalised e n :
  forall nx r, (e < nx)%nat -> hlAt root normalised n nx = Some r ->
    nodeText r.1 = nodeText n
    /\ (nx <= r.2)%nat
    /\ nodesText (kidsNode e r.1) = nodesText (kidsNode e n)
    /\ (forall x, x ∈ nodeElems r.1 -> x ∈ nodeElems n \/ (nx <= x < r.2)%nat)
    /\ nodeElems n ⊆ nodeElems r.1.
Proof.
  induction n as [s | e' ks IH] using node_ind_forall; intros nx r He Hr.
  - injection Hr as <-. simpl. split; [done |]. split; [lia |]. split; [done |].
    split; [auto | done].
  - simpl in Hr. case_decide as Eroot.
    + unfold hlNodes in Hr.
      destruct (walkNodes (hlNode normalised) ks nx) as [r' |] eqn:Er'; [| done].
      simpl in Hr. injection Hr as <-.
      assert (Hks : Forall (fun k => forall nx r, (e < nx)%nat ->
                      hlNode normalised k nx = Some r ->
                      nodesText r.1 = nodeText k
                      /\ (nx <= r.2)%nat
                      /\ nodesText (flat_map (kidsNode e) r.1) = nodesText (kidsNode e k)
                      /\ (forall x, x ∈ treeElems r.1 ->
                                    x ∈ nodeElems k \/ (nx <= x < r.2)%nat)
                      /\ nodeElems k ⊆ treeElems r.1) ks).
      { apply Forall_forall. intros k _. apply hlNode_spec. }
      destruct (walkNodes_spec (hlNode normalised) e ks Hks nx r' He Er')
        as (H1 & H2 & H3 & H4 & H5).
      cbn [fst snd]. split; [by rewrite !nodeText_Elem |]. split; [done |]. split.
      * simpl. case_decide; [done | exact H3].
      * unfold treeElems in *. simpl. split.
        -- intros x Hx. apply elem_of_cons in Hx as [-> | Hx]; [left; by left |].
           destruct (H4 x Hx) as [? | ?]; [left; by right | by right].
        -- set_solver.
    + destruct (walkForest (hlAt root normalised) ks nx) as [r' |] eqn:Er'; [| done].
      simpl in Hr. injection Hr as <-.
      destruct (walkForest_spec (hlAt root normalised) e ks IH nx r' He Er')
        as (H1 & H2 & H3 & H4 & H5).
      cbn [fst snd]. split; [by rewrite !nodeText_Elem |]. split; [done |]. split.
      * simpl. case_decide; [done | exact H3].
      * unfold treeElems in *. simpl. split.
        -- intros x Hx. apply elem_of_cons in Hx as [-> | Hx]; [left; by left |].
           destruct (H4 x Hx) as [? | ?]; [left; by right | by right].
        -- set_solver.
Qed.

Lemma hlForest_spec root normalised e l nx r :
  (e < nx)%nat -> hlForest root normalised l nx = Some r ->
  nodesText r.1 = nodesText l
  /\ (nx <= r.2)%nat
  /\ nodesText (flat_map (kidsNode e) r.1) = nodesText (flat_map (kidsNode e) l)
  /\ (forall x, x ∈ treeElems r.1 -> x ∈ treeElems l \/ (nx <= x < r.2)%nat)
  /\ treeElems l ⊆ treeElems r.1.
Proof.
  apply walkForest_spec, Forall_forall. intros k _. apply hlAt_spec.
Qed.

Lemma registerMarks_lookup cls from n st x :
  registerMarks cls from n st !! x =
  if decide (from <= x < from + n)%nat
  then Some (mkElemData "MARK" ∅ {[cls]} ∅)
  else st !! x.
Proof.
  revert from st. induction n as [| n IH]; intros from st; simpl.
  - rewrite decide_False by lia. done.
  - rewrite IH. destruct (decide (x = from)) as [-> | Hne].
    + rewrite lookup_insert_eq. repeat case_decide; first [done | lia].
    + rewrite lookup_insert_ne by done.
      repeat case_decide; first [done | lia].
Qed.

Lemma in_tree_lt_fresh d x : x ∈ treeElems (tree d) \/ known d x -> (x < freshElem d)%nat.
Proof.
  intros H. unfold freshElem.
  assert (Hin : x ∈ map fst (map_to_list (store d)) ++ treeElems (tree d)).
  { apply elem_of_app. destruct H as [H | [y Hy]]; [by right |]. left.
    apply list_elem_of_fmap. exists (x, y). split; [done |]. by apply elem_of_map_to_list. }
  apply foldr_max_le in Hin. lia.
Qed.

Lemma highlightText_spec root query cls d d' :
  highlightText root query cls d = Some d' ->
  nodesText (tree d') = nodesText (tree d)
  /\ (forall e, e ∈ treeElems (tree d) \/ known d e -> textContent d' e = textContent d e)
  /\ (forall x, x ∈ treeElems (tree d) \/ known d x ->
        getEl d' x = getEl d x /\ (known d x -> known d' x))
  /\ treeElems (tree d) ⊆ treeElems (tree d')
  /\ (forall x, x ∈ treeElems (tree d') -> x ∉ treeElems (tree d) ->
        getEl d' x = mkElemData "MARK" ∅ {[cls]} ∅).
Proof.
  unfold highlightText. case_decide as Hq.
  { intros [= <-]. repeat split; try done. }
  destruct (hlForest root (normalizeText query) (tree d) (freshElem d)) as [r |] eqn:Er;
    [| done].
  simpl. intros [= <-]. cbn [tree].
  assert (Hsome : (0 < freshElem d)%nat) by (unfold freshElem; lia).
  destruct (hlForest_spec root (normalizeText query) 0 (tree d) (freshElem d) r
              Hsome Er) as (H1 & H2 & _ & H4 & H5).
  split; [done |]. split; [| split; [| split]].
  - intros e He. unfold textContent, childNodes. cbn [tree].
    assert (Hlt : (e < freshElem d)%nat) by (by apply in_tree_lt_fresh).
    by destruct (hlForest_spec root (normalizeText query) e (tree d) (freshElem d) r
                   Hlt Er) as (_ & _ & H3 & _).
  - intros x Hx. apply in_tree_lt_fresh in Hx. unfold getEl, known. cbn [store].
    rewrite registerMarks_lookup. unfold elem in *. case_decide; [lia | done].
  - done.
  - intros x Hx Hnew. unfold getEl. cbn [store].
    rewrite registerMarks_lookup.
    destruct (H4 x Hx) as [? | Hr]; [done |].
    unfold elem in *. case_decide; [done | lia].
Qed.

(** X15.  Whenever [highlightText] returns, it has only added
    marks.  The text content of the document and of every element that was
    in it is what it was; every element that was known keeps its tag,
    attributes, classes and style; no element has left the tree; and every
    element that has come into the tree is a [mark] with the highlight
    class as its only class and with no attribute. *)
Theorem highlightText_only_adds_marks root query cls d d' :
  highlightText root query cls d = Some d' ->
  nodesText (tree d') = nodesText (tree d)
  /\ (forall e, e ∈ treeElems (tree d) \/ known d e -> textContent d' e = textContent d e)
  /\ (forall x, x ∈ treeElems (tree d) \/ known d x ->
        getEl d' x = getEl d x /\ (known d x -> known d' x))
  /\ treeElems (tree d) ⊆ treeElems (tree d')
  /\ (forall x, x ∈ treeElems (tree d') -> x ∉ treeElems (tree d) ->
        getEl d' x = mkElemData "MARK" ∅ {[cls]} ∅).
Proof. apply highlightText_spec. Qed.

Lemma highlightText_only_adds_marks_witness :
  let d' := default Page.document
              (highlightText 16 "password" "faq-search-highlight" Page.document) in
  textContent d' 16 = textContent Page.document 16.
Proof.
  intros d'.
  assert (H : highlightText 16 "password" "faq-search-highlight" Page.document = Some d')
    by (vm_compute; reflexivity).
  destruct (highlightText_only_adds_marks 16 "password" "faq-search-highlight"
              Page.document d' H) as (_ & H2 & _).
  apply (H2 16%nat). left. apply (bool_decide_unpack _). vm_compute. exact I.
Defined.

(** ** Clearing the highlights keeps the text *)

Lemma nodesText_mergeText ns : nodesText (mergeText ns) = nodesText ns.
Proof.
  induction ns as [| [s | e ks] rest IH]; [done | |].
  - simpl mergeText. rewrite nodesText_cons. simpl nodeText. case_decide as Es.
    + subst s. by rewrite IH.
    + rewrite <- IH.
      destruct (mergeText rest) as [| [s' | e' ks'] rest'];
        rewrite ?nodesText_cons; simpl nodeText; try done.
      by rewrite append_assoc.
  - simpl mergeText. by rewrite !nodesText_cons, IH.
Qed.

Lemma nodesText_map_ext (f : node -> node) l :
  Forall (fun k => nodeText (f k) = nodeText k) l -> nodesText (map f l) = nodesText l.
Proof.
  induction 1 as [| k l Hk _ IH]; [done |].
  simpl map. by rewrite !nodesText_cons, Hk, IH.
Qed.

Lemma nodeText_normalizeNode n : nodeText (normalizeNode n) = nodeText n.
Proof.
  induction n as [s | e ks IH] using node_ind_forall; [done |].
  simpl normalizeNode. rewrite !nodeText_Elem, nodesText_mergeText.
  by apply nodesText_map_ext.
Qed.

Lemma nodesText_normalizeKids ks : nodesText (normalizeKids ks) = nodesText ks.
Proof.
  unfold normalizeKids. rewrite nodesText_mergeText. apply nodesText_map_ext.
  apply Forall_forall. intros k _. apply nodeText_normalizeNode.
Qed.

Lemma nodesText_flat_map_ext (g g' : node -> list node) l :
  Forall (fun k => nodesText (g k) = nodesText (g' k)) l ->
  nodesText (flat_map g l) = nodesText (flat_map g' l).
Proof.
  induction 1 as [| k l Hk _ IH]; [done |].
  simpl. by rewrite !nodesText_app, Hk, IH.
Qed.

Lemma flat_map_map {A B C} (g : B -> list C) (h : A -> B) l :
  flat_map g (map h l) = flat_map (fun x => g (h x)) l.
Proof. induction l as [| a l IH]; simpl; [done | by rewrite IH]. Qed.

Lemma kidsNode_normalizeNode e n :
  nodesText (kidsNode e (normalizeNode n)) = nodesText (kidsNode e n).
Proof.
  induction n as [s | e' ks IH] using node_ind_forall; [done |].
  simpl. case_decide.
  - apply nodesText_normalizeKids.
  - rewrite flat_map_mergeText by done. rewrite flat_map_map.
    by apply nodesText_flat_map_ext.
Qed.

Lemma kids_normalizeKids e ks :
  nodesText (flat_map (kidsNode e) (normalizeKids ks))
  = nodesText (flat_map (kidsNode e) ks).
Proof.
  unfold normalizeKids. rewrite flat_map_mergeText by done. rewrite flat_map_map.
  apply nodesText_flat_map_ext, Forall_forall. intros k _. apply kidsNode_normalizeNode.
Qed.

Lemma kidsNode_absent e n : e ∉ nodeElems n -> kidsNode e n = [].
Proof.
  induction n as [s | e' ks IH] using node_ind_forall; [done |].
  simpl. intros Hn. apply not_elem_of_cons in Hn as [Hne Hn].
  rewrite decide_False by done.
  induction IH as [| k l Hk _ IHl]; [done |].
  simpl in *. rewrite elem_of_app in Hn. rewrite Hk, IHl by tauto. done.
Qed.

Lemma nodeText_clearChild m n : nodeText (clearChild m n) = nodeText n.
Proof.
  induction n as [s | e ks IH] using node_ind_forall; [done |].
  unfold clearChild. simpl isElem. case_bool_decide; [done |].
  rewrite clearMarkNode_unfold, !nodeText_Elem, clearMark_unfold.
  destruct (existsb _ _); rewrite ?nodesText_normalizeKids; by apply nodesText_map_ext.
Qed.

Lemma nodesText_clearMark m ks : nodesText (clearMark m ks) = nodesText ks.
Proof.
  rewrite clearMark_unfold.
  destruct (existsb _ _); rewrite ?nodesText_normalizeKids; apply nodesText_map_ext;
    apply Forall_forall; intros k _; apply nodeText_clearChild.
Qed.

Lemma kids_clearMark_map e m ks :
  nodesText (flat_map (kidsNode e) (clearMark m ks))
  = nodesText (flat_map (kidsNode e) (map (clearChild m) ks)).
Proof.
  rewrite clearMark_unfold. destruct (existsb _ _); [| done]. apply kids_normalizeKids.
Qed.

Lemma kidsNode_clearChild e m n :
  e <> m -> e ∉ descNode m n ->
  nodesText (kidsNode e (clearChild m n)) = nodesText (kidsNode e n).
Proof.
  intros Hne. induction n as [s | e' ks IH] using node_ind_forall; [done |].
  intros Hdesc. unfold clearChild. simpl isElem. case_bool_decide as Em.
  - subst e'. simpl in *. rewrite decide_True in Hdesc by done.
    rewrite decide_False by done.
    assert (E : flat_map (kidsNode e) ks = []).
    { clear IH. induction ks as [| k l IHl]; [done |].
      simpl in *. rewrite elem_of_app in Hdesc.
      rewrite kidsNode_absent, IHl by tauto. done. }
    by rewrite E.
  - rewrite clearMarkNode_unfold. simpl in *. rewrite decide_False in Hdesc by done.
    case_decide.
    + apply nodesText_clearMark.
    + rewrite kids_clearMark_map, flat_map_map.
      apply nodesText_flat_map_ext.
      clear -IH Hdesc. induction IH as [| k l Hk _ IHl]; [constructor |].
      simpl in Hdesc. rewrite elem_of_app in Hdesc.
      constructor; [apply Hk; tauto | apply IHl; tauto].
Qed.

Lemma childNodes_clearMark e m t :
  e <> m -> e ∉ descendants m t ->
  nodesText (childNodes e (clearMark m t)) = nodesText (childNodes e t).
Proof.
  intros Hne Hdesc. unfold childNodes.
  rewrite kids_clearMark_map, flat_map_map.
  apply nodesText_flat_map_ext.
  unfold descendants in Hdesc. induction t as [| k l IHl]; [constructor |].
  simpl in Hdesc. rewrite elem_of_app in Hdesc.
  constructor; [apply kidsNode_clearChild; tauto | apply IHl; tauto].
Qed.

Lemma clearMarks_text ms d :
  nodesText (tree (clearMarks ms d)) = nodesText (tree d)
  /\ forall e, (forall m, m ∈ ms -> e <> m /\ e ∉ descendants m (tree d)) ->
               textContent (clearMarks ms d) e = textContent d e.
Proof.
  unfold clearMarks. revert d. induction ms as [| m ms IH]; intros d; simpl; [done |].
  destruct (IH (withTree d (clearMark m (tree d)))) as [H1 H2]. simpl in *.
  split; [by rewrite H1, nodesText_clearMark |].
  intros e He. rewrite H2.
  - unfold textContent. simpl. apply childNodes_clearMark; apply (He m); by left.
  - intros m' Hm'. destruct (He m') as [Hne Hd]; [by right |]. split; [done |].
    intros Hin. apply Hd. by apply (descendants_clearMark m' m (tree d)).
Qed.

(* ===================================================================== *)
(** ** The loops of a search *)
(* ===================================================================== *)

Lemma performSearch_parts env query allItems cfg counterEl w :
  performSearch env query allItems cfg counterEl w =
  let normalised := normalizeText query in
  let w := clearAllHighlights allItems cfg w in
  if decide (normalised = "") then Some (onDom (updateEmptyState true) w)
  else
    w ← foldl (openMatching env normalised cfg)
              (Some (foldl (closeStale env normalised cfg) w allItems)) allItems;
    Some (finishSearch query cfg counterEl w).
Proof. reflexivity. Qed.

Lemma closeStale_closeIf env normalised cfg :
  closeStale env normalised cfg =
  closeIf env (fun w it =>
                 bool_decide (item it ∈ searchOpenedItems (searchState w))
                 && negb (itemMatchesQuery (dom w) it normalised)
                 && isItemOpen env (dom w) it) cfg.
Proof. reflexivity. Qed.

Lemma closeSearchOpened_closeIf env cfg :
  closeSearchOpened env cfg =
  closeIf env (fun w it =>
                 bool_decide (item it ∈ searchOpenedItems (searchState w))
                 && isItemOpen env (dom w) it) cfg.
Proof. reflexivity. Qed.

Section SearchLoops.

Variable env : Env.

Lemma known_setIconVisibility icon b d x :
  known d x -> known (setIconVisibility icon b d) x.
Proof.
  intros H. unfold setIconVisibility, classToggle.
  destruct icon, b; simpl; try done; by do 2 apply known_updEl.
Qed.

Lemma known_markItem it t open cfg d x :
  known d x -> known (markItem it t open cfg d) x.
Proof.
  intros H. unfold markItem. do 2 apply known_setIconVisibility.
  unfold classToggle. destruct open; by do 3 apply known_updEl.
Qed.

Lemma known_expand el w x :
  known (dom w) x -> known (dom (expandElement env el w)) x.
Proof. intros H. unfold expandElement. simpl. by do 3 apply known_updEl. Qed.

Lemma known_collapse el w x :
  known (dom w) x -> known (dom (collapseElement env el w)) x.
Proof.
  intros H. unfold collapseElement. simpl.
  destruct (hasAttribute _ _ _); simpl; [by apply known_updEl |].
  by do 2 apply known_updEl.
Qed.

Lemma known_animateItem it c open src w x :
  known (dom w) x -> known (dom (animateItem env it c open src w)) x.
Proof.
  intros H. unfold animateItem.
  destruct open, src; simpl;
    try apply known_updEl; first [by apply known_expand | by apply known_collapse].
Qed.

Lemma known_apply it c t open src cfg w x :
  known (dom w) x -> known (dom (applyItemState env it c t open src cfg w)) x.
Proof.
  intros H. rewrite applyItemState_parts. cbn [dispatchEvent dom].
  apply known_animateItem. cbn [onDom dom]. by apply known_markItem.
Qed.

Lemma setItemState_search it open cfg w :
  setItemState env it open Search cfg None w =
  match content it, trigger it with
  | Some c, Some t => applyItemState env it c t open Search cfg w
  | _, _ => w
  end.
Proof. reflexivity. Qed.

Lemma known_setItemState it open cfg w x :
  known (dom w) x -> known (dom (setItemState env it open Search cfg None w)) x.
Proof.
  intros H. rewrite setItemState_search.
  destruct (content it), (trigger it); try done. by apply known_apply.
Qed.

Lemma present_setItemState it open cfg w e :
  present (dom w) e -> present (dom (setItemState env it open Search cfg None w)) e.
Proof.
  intros [H | H]; [left | right].
  - by rewrite (proj1 (tree_setItemState env it open Search cfg None w)).
  - by apply known_setItemState.
Qed.

Lemma textContent_setItemState it open cfg w e :
  textContent (dom (setItemState env it open Search cfg None w)) e = textContent (dom w) e.
Proof.
  unfold textContent. by rewrite (proj1 (tree_setItemState env it open Search cfg None w)).
Qed.

Lemma bySearch_apply_other it c t open src cfg w x :
  x <> item it ->
  getAttribute (dom (applyItemState env it c t open src cfg w)) x ATTR.dataOpenedBySearch
  = getAttribute (dom w) x ATTR.dataOpenedBySearch.
Proof.
  intros Hx. rewrite applyItemState_parts. cbn [dispatchEvent dom].
  transitivity (getAttribute (markItem it t open cfg (dom w)) x ATTR.dataOpenedBySearch).
  - unfold animateItem.
    destruct open, src;
      unfold searchOpenedAdd, searchOpenedDelete, setSearchState; cbn [dom onDom];
      rewrite ?attr_set_other, ?attr_remove_other by (left; congruence);
      rewrite ?attr_collapse; try reflexivity;
      rewrite attr_expand by (right; discriminate); reflexivity.
  - unfold markItem. rewrite !attr_setIconVisibility, attr_classToggle.
    rewrite !attr_set_other by (right; discriminate). reflexivity.
Qed.

Lemma searchObs_apply_other it c t open src cfg w x :
  x <> item it ->
  searchObs (applyItemState env it c t open src cfg w) x = searchObs w x.
Proof.
  intros Hx. unfold searchObs. f_equal; [f_equal |].
  - rewrite marker_apply. by rewrite decide_False.
  - by apply bySearch_apply_other.
  - rewrite searchOpened_apply. apply bool_decide_ext.
    destruct open, src; set_solver.
Qed.

Lemma searchObs_apply_same it c t open cfg w :
  searchObs (applyItemState env it c t open Search cfg w) (item it)
  = (Some (boolString open), if open then Some "true" else None, open).
Proof.
  unfold searchObs. rewrite marker_apply, decide_True by done.
  rewrite bySearch_apply, searchOpened_apply.
  destruct open; f_equal.
  - apply bool_decide_eq_true_2. set_solver.
  - apply bool_decide_eq_false_2. set_solver.
Qed.

Lemma searchObs_setItemState_other it open cfg w x :
  x <> item it ->
  searchObs (setItemState env it open Search cfg None w) x = searchObs w x.
Proof.
  intros Hx. rewrite setItemState_search.
  destruct (content it), (trigger it); try done. by apply searchObs_apply_other.
Qed.

Lemma searchObs_setItemState_same it open cfg w :
  complete it ->
  searchObs (setItemState env it open Search cfg None w) (item it)
  = (Some (boolString open), if open then Some "true" else None, open).
Proof.
  intros [[c Hc] [t Ht]]. rewrite setItemState_search, Hc, Ht.
  apply searchObs_apply_same.
Qed.

Lemma itemMatchesQuery_ext d d' it q :
  (forall e, e ∈ textParts it -> textContent d' e = textContent d e) ->
  itemMatchesQuery d' it q = itemMatchesQuery d it q.
Proof.
  intros H. unfold itemMatchesQuery, elementContainsText, textParts in *.
  destruct (title it) as [a |], (content it) as [b |]; simpl in *;
    rewrite ?(H a), ?(H b) by set_solver; reflexivity.
Qed.

(** *** The loops that close items *)

Lemma closeLoop_frame cond cfg l : forall w,
  let w' := foldl (closeIf env cond cfg) w l in
  tree (dom w') = tree (dom w)
  /\ (forall x, known (dom w) x -> known (dom w') x)
  /\ (forall x, x ∉ map item l -> searchObs w' x = searchObs w x).
Proof.
  induction l as [| j l IH]; intros w; simpl; [done |].
  destruct (IH (closeIf env cond cfg w j)) as (T & K & O).
  assert (T1 : tree (dom (closeIf env cond cfg w j)) = tree (dom w)).
  { unfold closeIf. destruct (cond w j); [| done].
    apply (tree_setItemState env j false Search cfg None w). }
  split; [by rewrite T |]. split.
  - intros x Hx. apply K. unfold closeIf. destruct (cond w j); [| done].
    by apply known_setItemState.
  - intros x Hx. apply not_elem_of_cons in Hx as [Hj Hl]. rewrite (O x Hl).
    unfold closeIf. destruct (cond w j); [| done].
    by apply searchObs_setItemState_other.
Qed.

Lemma closeLoop_at cond cfg l w it :
  NoDup (map item l) -> it ∈ l ->
  exists wi,
    tree (dom wi) = tree (dom w)
    /\ searchObs wi (item it) = searchObs w (item it)
    /\ searchObs (foldl (closeIf env cond cfg) w l) (item it)
       = searchObs (closeIf env cond cfg wi it) (item it).
Proof.
  intros ND Hin. apply list_elem_of_split in Hin as (l1 & l2 & ->).
  rewrite map_app in ND. simpl in ND.
  apply NoDup_app in ND as (_ & Hd & ND2). apply NoDup_cons in ND2 as [Hn2 _].
  assert (Hn1 : item it ∉ map item l1).
  { intros H. apply (Hd _ H). left. }
  rewrite foldl_app. simpl.
  destruct (closeLoop_frame cond cfg l1 w) as (T1 & _ & O1).
  exists (foldl (closeIf env cond cfg) w l1). split; [done |]. split; [by apply O1 |].
  destruct (closeLoop_frame cond cfg l2
              (closeIf env cond cfg (foldl (closeIf env cond cfg) w l1) it)) as (_ & _ & O2).
  by apply O2.
Qed.

(** *** The loop that opens the matching items *)

Lemma highlightPart_spec (o : option elem) normalised cls d :
  normalised <> "" -> normalizeText normalised = normalised ->
  exists d',
    match o with
    | Some t => highlightText t normalised cls d
    | None => Some d
    end = Some d'
    /\ forall e, present d e ->
         present d' e /\ textContent d' e = textContent d e /\ getEl d' e = getEl d e.
Proof.
  intros Hne Hn. destruct o as [t |]; [| by exists d].
  destruct (highlightText_total t normalised cls d) as [d' E]; [by rewrite Hn |].
  exists d'. split; [done |].
  destruct (highlightText_spec _ _ _ _ _ E) as (_ & Ht & Hg & Hs & _).
  intros e He. split; [| split].
  - destruct He as [He | He]; [left; by apply Hs | right].
    by apply (Hg e (or_intror He)).
  - by apply Ht.
  - by apply (Hg e He).
Qed.

Lemma openMatching_spec normalised cfg w j :
  normalised <> "" -> normalizeText normalised = normalised ->
  exists w',
    openMatching env normalised cfg (Some w) j = Some w'
    /\ (forall e, present (dom w) e ->
          present (dom w') e /\ textContent (dom w') e = textContent (dom w) e)
    /\ (forall x, present (dom w) x -> x <> item j -> searchObs w' x = searchObs w x)
    /\ (forall x, present (dom w) x ->
          searchObs w' x = searchObs w x
          \/ searchObs w' x = (Some "true", Some "true", true))
    /\ (itemMatchesQuery (dom w) j normalised = true -> complete j ->
          searchObs w' (item j) = (Some "true", Some "true", true)
          /\ known (dom w') (item j))
    /\ (itemMatchesQuery (dom w) j normalised = false -> w' = w).
Proof.
  intros Hne Hn. unfold openMatching. cbn [mbind option_bind].
  change (elementContainsText (dom w) (title j) normalised
          || elementContainsText (dom w) (content j) normalised)
    with (itemMatchesQuery (dom w) j normalised).
  destruct (itemMatchesQuery (dom w) j normalised) eqn:M.
  2:{ exists w. repeat split; try done. by left. }
  set (cls := highlightClass (classes cfg)).
  destruct (highlightPart_spec (title j) normalised cls (dom w) Hne Hn) as (d1 & E1 & H1).
  rewrite E1. cbn [mbind option_bind].
  destruct (highlightPart_spec (content j) normalised cls d1 Hne Hn) as (d2 & E2 & H2).
  rewrite E2. cbn [mbind option_bind].
  set (w2 := onDom (fun _ => d2) w).
  assert (H12 : forall e, present (dom w) e ->
            present (dom w2) e /\ textContent (dom w2) e = textContent (dom w) e
            /\ searchObs w2 e = searchObs w e).
  { intros e He. destruct (H1 e He) as (P1 & T1 & G1).
    destruct (H2 e P1) as (P2 & T2 & G2). split; [done |].
    split; [by rewrite <- T1 |].
    unfold searchObs, getAttribute. cbn [w2 onDom dom searchState].
    by rewrite G2, G1. }
  eexists. split; [reflexivity |]. split; [| split; [| split; [| split]]].
  - intros e He. destruct (H12 e He) as (P & T & _). split.
    + by apply present_setItemState.
    + by rewrite textContent_setItemState.
  - intros x Hx Hj. destruct (H12 x Hx) as (_ & _ & O).
    by rewrite searchObs_setItemState_other.
  - intros x Hx. destruct (H12 x Hx) as (_ & _ & O).
    destruct (decide (x = item j)) as [-> | Hj].
    + rewrite setItemState_search.
      destruct (content j) as [c |] eqn:Hc; [| by left].
      destruct (trigger j) as [t |] eqn:Ht; [| by left].
      right. apply searchObs_apply_same.
    + left. by rewrite searchObs_setItemState_other.
  - intros _ Hc. split.
    + by rewrite searchObs_setItemState_same.
    + destruct Hc as [[c Hc] [t Ht]]. rewrite setItemState_search, Hc, Ht.
      rewrite applyItemState_parts. cbn [dispatchEvent dom].
      apply known_animateItem. cbn [onDom dom]. unfold markItem.
      do 2 apply known_setIconVisibility.
      unfold classToggle. apply known_updEl. apply known_updEl_same.
  - discriminate.
Qed.

Lemma openLoop_spec normalised cfg l :
  normalised <> "" -> normalizeText normalised = normalised ->
  forall w, exists w',
    foldl (openMatching env normalised cfg) (Some w) l = Some w'
    /\ (forall e, present (dom w) e ->
          present (dom w') e /\ textContent (dom w') e = textContent (dom w) e)
    /\ (forall x, present (dom w) x -> x ∉ map item l -> searchObs w' x = searchObs w x)
    /\ (forall x, present (dom w) x ->
          searchObs w' x = searchObs w x
          \/ searchObs w' x = (Some "true", Some "true", true))
    /\ (forall it, it ∈ l -> complete it ->
          (forall e, e ∈ textParts it -> present (dom w) e) ->
          itemMatchesQuery (dom w) it normalised = true ->
          searchObs w' (item it) = (Some "true", Some "true", true))
    /\ (forall it, it ∈ l -> NoDup (map item l) ->
          (forall e, e ∈ item it :: textParts it -> present (dom w) e) ->
          itemMatchesQuery (dom w) it normalised = false ->
          searchObs w' (item it) = searchObs w (item it)).
Proof.
  intros Hne Hn. induction l as [| j l IH]; intros w.
  { exists w. simpl. repeat split; try done; try (intros it Hit; by apply elem_of_nil in Hit).
    by left. }
  destruct (openMatching_spec normalised cfg w j Hne Hn) as (w1 & E1 & P1 & O1 & A1 & M1 & N1).
  destruct (IH w1) as (w' & E & P & O & A & M & N).
  exists w'. split; [cbn [foldl]; rewrite E1; exact E |].
  split; [| split; [| split; [| split]]].
  - intros e He. destruct (P1 e He) as [Q1 T1]. destruct (P e Q1) as [Q T].
    split; [done | by rewrite T].
  - intros x Hx Hn'. simpl in Hn'. apply not_elem_of_cons in Hn' as [Hj Hl].
    destruct (P1 x Hx) as [Q1 _]. by rewrite (O x Q1 Hl), (O1 x Hx Hj).
  - intros x Hx. destruct (P1 x Hx) as [Q1 _].
    destruct (A x Q1) as [-> | ->]; [apply (A1 x Hx) | by right].
  - intros it Hit Hc Hp Hm. apply elem_of_cons in Hit as [-> | Hit].
    + destruct (M1 Hm Hc) as [Ob K].
      destruct (A (item j) (or_intror K)) as [-> | ->]; done.
    + apply (M it Hit Hc).
      * intros e He. by apply P1, Hp.
      * rewrite <- Hm. apply itemMatchesQuery_ext.
        intros e He. by apply P1, Hp.
  - intros it Hit ND Hp Hm. simpl in ND. apply NoDup_cons in ND as [Hj ND].
    assert (Hpi : present (dom w) (item it)) by (apply Hp; left).
    apply elem_of_cons in Hit as [-> | Hit].
    + rewrite (N1 Hm) in *. by apply O.
    + assert (Hne' : item it <> item j).
      { intros Heq. apply Hj. rewrite <- Heq. by apply (list_elem_of_fmap_2 item). }
      rewrite <- (O1 (item it) Hpi Hne'). apply (N it Hit ND).
      * intros e He. by apply P1, Hp.
      * rewrite <- Hm. apply itemMatchesQuery_ext.
        intros e He. apply P1, Hp. by right.
Qed.

End SearchLoops.
(* ===================================================================== *)
(** ** A search from end to end *)
(* ===================================================================== *)

Lemma nodeElems_clearChild_keep m n e :
  e ∈ nodeElems n -> e <> m -> e ∉ descNode m n -> e ∈ nodeElems (clearChild m n).
Proof.
  induction n as [s | e0 ks IH] using node_ind_forall; intros Hin Hne Hd.
  - by apply elem_of_nil in Hin.
  - unfold clearChild. simpl isElem. simpl in Hin, Hd. case_bool_decide as He.
    + subst e0. rewrite decide_True in Hd by done.
      apply elem_of_cons in Hin as [-> | Hin]; done.
    + rewrite decide_False in Hd by done.
      rewrite clearMarkNode_unfold. simpl.
      rewrite (flat_map_clearMark nodeElems) by (done || apply nodeElems_normalizeNode).
      rewrite flat_map_concat_map, map_map, <- flat_map_concat_map.
      apply elem_of_cons in Hin as [-> | Hin]; [left |]. right.
      apply elem_of_flat_map in Hin as (k & Hk & Hin).
      apply elem_of_flat_map. exists k. split; [done |].
      rewrite Forall_forall in IH. apply (IH k Hk Hin Hne).
      intros H. apply Hd. apply elem_of_flat_map. by exists k.
Qed.

Lemma treeElems_clearMark_keep m t e :
  e ∈ treeElems t -> e <> m -> e ∉ descendants m t -> e ∈ treeElems (clearMark m t).
Proof.
  unfold treeElems, descendants. intros Hin Hne Hd.
  rewrite (flat_map_clearMark nodeElems) by (done || apply nodeElems_normalizeNode).
  rewrite flat_map_concat_map, map_map, <- flat_map_concat_map.
  apply elem_of_flat_map in Hin as (k & Hk & Hin).
  apply elem_of_flat_map. exists k. split; [done |].
  apply nodeElems_clearChild_keep; try done.
  intros H. apply Hd. apply elem_of_flat_map. by exists k.
Qed.

Lemma clearMarks_keep ms : forall d e,
  e ∈ treeElems (tree d) ->
  (forall m, m ∈ ms -> e <> m /\ e ∉ descendants m (tree d)) ->
  e ∈ treeElems (tree (clearMarks ms d)).
Proof.
  induction ms as [| m ms IH]; intros d e Hin H; [done |].
  change (clearMarks (m :: ms) d)
    with (clearMarks ms (withTree d (clearMark m (tree d)))).
  destruct (H m) as [Hne Hd]; [left |].
  apply IH; simpl.
  - by apply treeElems_clearMark_keep.
  - intros m' Hm'. destruct (H m') as [Hne' Hd']; [by right |].
    split; [done |]. intros Hx. apply Hd'. by apply (descendants_clearMark m' m).
Qed.

Lemma clearHighlights_outside root cls d e :
  present d e -> outsideMarks cls d e ->
  present (clearHighlights root cls d) e
  /\ outsideMarks cls (clearHighlights root cls d) e
  /\ textContent (clearHighlights root cls d) e = textContent d e.
Proof.
  intros Hp Ho. rewrite clearHighlights_clearMarks.
  set (ms := querySelectorAllIn d root (markSel cls)).
  assert (H : forall m, m ∈ ms -> e <> m /\ e ∉ descendants m (tree d)).
  { intros m Hm. apply Ho. unfold ms, querySelectorAllIn in Hm.
    by apply list_elem_of_filter in Hm as [Hm _]. }
  split; [| split].
  - destruct Hp as [Hp | Hp]; [left; by apply clearMarks_keep | right].
    unfold known. by rewrite clearMarks_store.
  - intros m Hm. rewrite (selMatches_ext d) in Hm by apply clearMarks_getEl.
    destruct (Ho m Hm) as [Hne Hd]. split; [done |].
    intros Hx. apply Hd. by apply (clearMarks_tree ms d m).
  - by apply clearMarks_text.
Qed.

Lemma clearItems_outside cls l : forall d e,
  present d e -> outsideMarks cls d e ->
  let d' := foldl (fun d it => clearHighlights (item it) cls d) d l in
  present d' e /\ outsideMarks cls d' e /\ textContent d' e = textContent d e.
Proof.
  induction l as [| j l IH]; intros d e Hp Ho; simpl; [done |].
  destruct (clearHighlights_outside (item j) cls d e Hp Ho) as (P1 & O1 & T1).
  destruct (IH _ e P1 O1) as (P & O & T). by rewrite <- T1.
Qed.

Lemma known_removeAll cls l : forall d x,
  known d x -> known (foldl (fun d el => classRemove el cls d) d l) x.
Proof.
  induction l as [| e l IH]; intros d x H; simpl; [done |].
  apply IH. by apply known_updEl.
Qed.

Lemma clearAll_outside allItems cfg w e :
  present (dom w) e -> outsideMarks (highlightClass (classes cfg)) (dom w) e ->
  present (dom (clearAllHighlights allItems cfg w)) e
  /\ textContent (dom (clearAllHighlights allItems cfg w)) e = textContent (dom w) e.
Proof.
  intros Hp Ho.
  destruct (clearItems_outside (highlightClass (classes cfg)) allItems (dom w) e Hp Ho)
    as (P & _ & T).
  unfold clearAllHighlights. cbn [setCurrentIndex setMarks setSearchState onDom dom].
  split.
  - destruct P as [P | P]; [left | right].
    + by rewrite tree_removeClassEverywhere.
    + by apply known_removeAll.
  - unfold textContent in *. by rewrite tree_removeClassEverywhere.
Qed.

Lemma searchObs_clearAll allItems cfg w x :
  searchObs (clearAllHighlights allItems cfg w) x = searchObs w x.
Proof.
  destruct (clearAllHighlights_spec allItems cfg w) as (_ & _ & _ & Ha & _ & Hs & _).
  unfold searchObs. by rewrite !Ha, Hs.
Qed.

Lemma attr_updateMatchCounter c ss d x k :
  getAttribute (updateMatchCounter c ss d) x k = getAttribute d x k.
Proof. unfold getAttribute, getEl. by rewrite updateMatchCounter_store. Qed.

Lemma attr_navigateToMatch i cfg c w x k :
  getAttribute (dom (navigateToMatch i cfg c w)) x k = getAttribute (dom w) x k.
Proof.
  unfold navigateToMatch. destruct (marks (searchState w)).
  - cbn [onDom dom]. apply attr_updateMatchCounter.
  - match goal with |- context [?l !! ?j] => destruct (l !! j) end;
      cbn [onDom dom smoothScrollTo setCurrentIndex setSearchState];
      rewrite ?attr_updateMatchCounter, ?attr_classAdd, ?attr_removeClassEverywhere;
      reflexivity.
Qed.

Lemma searchOpened_navigateToMatch i cfg c w :
  searchOpenedItems (searchState (navigateToMatch i cfg c w))
  = searchOpenedItems (searchState w).
Proof.
  unfold navigateToMatch. destruct (marks (searchState w)); [reflexivity |].
  match goal with |- context [?l !! ?j] => destruct (l !! j) end; reflexivity.
Qed.

Lemma searchObs_finishSearch query cfg c w x :
  searchObs (finishSearch query cfg c w) x = searchObs w x.
Proof.
  unfold finishSearch, searchObs.
  match goal with |- context [querySelector ?d ?s] => destruct (querySelector d s) end;
    cbn [dispatchEvent dom searchState];
    match goal with |- context [bool_decide (marks ?s ≠ [])] =>
      destruct (bool_decide (marks s ≠ [])) end;
    rewrite ?attr_navigateToMatch, ?searchOpened_navigateToMatch;
    cbn [onDom dom searchState setCurrentIndex setMarks setSearchState searchOpenedItems];
    rewrite ?attr_updateEmptyState; reflexivity.
Qed.
Lemma searchObs_is w x a b (c : bool) :
  searchObs w x = (a, b, c)
  <-> getAttribute (dom w) x ATTR.dataOpen = a
      /\ getAttribute (dom w) x ATTR.dataOpenedBySearch = b
      /\ (if c then x ∈ searchOpenedItems (searchState w)
          else x ∉ searchOpenedItems (searchState w)).
Proof.
  unfold searchObs. split.
  - intros [= <- <- <-]. repeat split. case_bool_decide; done.
  - intros (<- & <- & H). f_equal.
    destruct c; [by apply bool_decide_eq_true_2 | by apply bool_decide_eq_false_2].
Qed.

Lemma searchObs_eq w' w x :
  searchObs w' x = searchObs w x
  <-> getAttribute (dom w') x ATTR.dataOpen = getAttribute (dom w) x ATTR.dataOpen
      /\ getAttribute (dom w') x ATTR.dataOpenedBySearch
         = getAttribute (dom w) x ATTR.dataOpenedBySearch
      /\ (x ∈ searchOpenedItems (searchState w') <-> x ∈ searchOpenedItems (searchState w)).
Proof.
  unfold searchObs at 2. rewrite searchObs_is.
  case_bool_decide as H; intuition.
Qed.

Lemma closeStale_present env normalised cfg l w e :
  present (dom w) e ->
  present (dom (foldl (closeStale env normalised cfg) w l)) e
  /\ textContent (dom (foldl (closeStale env normalised cfg) w l)) e = textContent (dom w) e.
Proof.
  intros Hp. rewrite closeStale_closeIf.
  match goal with |- context [closeIf env ?c cfg] =>
    destruct (closeLoop_frame env c cfg l w) as (T & K & _) end.
  split.
  - destruct Hp as [Hp | Hp]; [left; by rewrite T | right; by apply K].
  - unfold textContent. by rewrite T.
Qed.


Lemma outsideMarks_dec cls d e :
  map_Forall (fun m x => tagName x = "MARK" -> e <> m /\ e ∉ descendants m (tree d))
             (store d) ->
  outsideMarks cls d e.
Proof.
  intros H m Hm. unfold markSel in Hm. simpl in Hm.
  apply andb_true_iff in Hm as [Ht _]. apply bool_decide_eq_true_1 in Ht.
  unfold getEl in Ht. destruct (store d !! m) as [x |] eqn:E; simpl in Ht.
  - by apply (H m x E).
  - discriminate.
Qed.


(* ===================================================================== *)
(** ** [clearSearch] *)
(* ===================================================================== *)

Lemma closeLoop_marks env cond cfg l : forall w,
  marks (searchState (foldl (closeIf env cond cfg) w l)) = marks (searchState w)
  /\ currentIndex (searchState (foldl (closeIf env cond cfg) w l))
     = currentIndex (searchState w).
Proof.
  induction l as [| j l IH]; intros w; simpl; [done |].
  destruct (IH (closeIf env cond cfg w j)) as [-> ->].
  unfold closeIf. destruct (cond w j); [| done].
  destruct (tree_setItemState env j false Search cfg None w) as (_ & -> & ->). done.
Qed.

Lemma clearSearch_parts env inst w :
  clearSearch env inst w =
  onDom (updateEmptyState true)
    (onDom (updateMatchCounter (counterEl inst)
              (searchState
                 (foldl (closeSearchOpened env (instConfig inst))
                        (clearAllHighlights (instItems inst) (instConfig inst) w)
                        (instItems inst))))
       (foldl (closeSearchOpened env (instConfig inst))
              (clearAllHighlights (instItems inst) (instConfig inst) w)
              (instItems inst))).
Proof. reflexivity. Qed.


(* ===================================================================== *)
(** ** Steps through the matches *)
(* ===================================================================== *)

Lemma advanceMatch_index delta cfg counterEl w :
  marks (searchState w) <> [] ->
  let N := Z.of_nat (length (marks (searchState w))) in
  let base :=
    if currentIndex (searchState w) =? -1 then 0 else currentIndex (searchState w) in
  marks (searchState (advanceMatch delta cfg counterEl w)) = marks (searchState w)
  /\ currentIndex (searchState (advanceMatch delta cfg counterEl w)) = (base + delta) mod N.
Proof.
  intros Hne N base.
  assert (HN : 0 < N).
  { unfold N. destruct (marks (searchState w)); [done | simpl; lia]. }
  set (j := Z.rem (Z.rem (base + delta) N + N) N).
  assert (Hj : j = (base + delta) mod N) by (apply ring_index; exact HN).
  assert (Hjb : 0 <= j < N) by (rewrite Hj; apply Z.mod_pos_bound; exact HN).
  assert (Hlook : is_Some (marks (searchState w) !! Z.to_nat j)).
  { apply lookup_lt_is_Some. unfold N in Hjb. lia. }
  destruct Hlook as [target Htarget].
  unfold advanceMatch, navigateToMatch.
  destruct (marks (searchState w)) as [| m0 ms] eqn:Hm; [done |].
  cbn [setCurrentIndex setSearchState searchState marks onDom currentIndex].
  fold base. rewrite Hm. fold N. fold j. rewrite Htarget.
  cbn [smoothScrollTo onDom setCurrentIndex setSearchState searchState marks
       currentIndex searchOpenedItems].
  by rewrite Hm.
Qed.

(** X20.  Steps through the matches add up: advancing
    by [delta] and then by [delta'] leaves the match list as it was and the
    current index where a single advance by [delta + delta'] puts it.  From
    a valid index, steps that sum to a multiple of the number of matches come
    back to the same index; so [prevMatch] undoes [nextMatch]. *)
Theorem advanceMatch_composes delta delta' cfg counter w :
  let w2 := advanceMatch delta' cfg counter (advanceMatch delta cfg counter w) in
  let N := Z.of_nat (length (marks (searchState w))) in
  marks (searchState w2) = marks (searchState w)
  /\ currentIndex (searchState w2)
     = currentIndex (searchState (advanceMatch (delta + delta') cfg counter w))
  /\ (0 <= currentIndex (searchState w) < N -> (delta + delta') mod N = 0 ->
      currentIndex (searchState w2) = currentIndex (searchState w))
  /\ (forall inst, 0 <= currentIndex (searchState w) < N ->
        currentIndex (searchState (prevMatch inst (nextMatch inst w)))
        = currentIndex (searchState w)).
Proof.
  assert (H : forall d d' cfg c,
    let w2 := advanceMatch d' cfg c (advanceMatch d cfg c w) in
    let N := Z.of_nat (length (marks (searchState w))) in
    marks (searchState w2) = marks (searchState w)
    /\ currentIndex (searchState w2)
       = currentIndex (searchState (advanceMatch (d + d') cfg c w))
    /\ (0 <= currentIndex (searchState w) < N -> (d + d') mod N = 0 ->
        currentIndex (searchState w2) = currentIndex (searchState w))).
  { clear. intros d d' cfg c w2 N.
    destruct (decide (marks (searchState w) = [])) as [He | Hne].
    { assert (E : forall x, advanceMatch x cfg c w = w).
      { intros x. unfold advanceMatch. by rewrite He. }
      unfold w2. rewrite !E. repeat split; try done. }
    assert (HN : 0 < N).
    { unfold N. destruct (marks (searchState w)); [done | simpl; lia]. }
    destruct (advanceMatch_index d cfg c w Hne) as [M1 I1].
    destruct (advanceMatch_index (d + d') cfg c w Hne) as [M12 I12].
    assert (Hne1 : marks (searchState (advanceMatch d cfg c w)) <> [])
      by (by rewrite M1).
    destruct (advanceMatch_index d' cfg c _ Hne1) as [M2 I2].
    rewrite M1 in I2. fold N in I1, I2, I12.
    set (base := if currentIndex (searchState w) =? -1 then 0
                 else currentIndex (searchState w)) in *.
    assert (Hb : 0 <= (base + d) mod N < N) by (apply Z.mod_pos_bound; exact HN).
    rewrite I1 in I2.
    assert (E1 : ((base + d) mod N =? -1) = false) by (apply Z.eqb_neq; lia).
    rewrite E1 in I2.
    assert (I : currentIndex (searchState w2) = (base + (d + d')) mod N).
    { unfold w2. rewrite I2, Z.add_mod_idemp_l by lia. f_equal. lia. }
    split; [unfold w2; by rewrite M2, M1 |]. split; [by rewrite I, I12 |].
    intros Hv Hz. rewrite I.
    assert (Eb : base = currentIndex (searchState w)).
    { unfold base. destruct (Z.eqb_spec (currentIndex (searchState w)) (-1)); [lia | done]. }
    rewrite <- Z.add_mod_idemp_r, Hz, Z.add_0_r by lia.
    rewrite Eb. apply Z.mod_small. exact Hv. }
  intros w2 N. destruct (H delta delta' cfg counter) as (H1 & H2 & H3).
  split; [exact H1 |]. split; [exact H2 |]. split; [exact H3 |].
  intros inst Hv. unfold prevMatch, nextMatch.
  destruct (H 1 (-1) (instConfig inst) (counterEl inst)) as (_ & _ & H4).
  apply H4; [exact Hv |]. apply Z.mod_0_l. lia.
Qed.
(* ===================================================================== *)
(** ** [debounce] *)
(* ===================================================================== *)

Section Debounce.

Import Timers.

Context {A : Type}.

Implicit Types (s : state A) (cs : list (Z * A)).

(** A call of the debounced function leaves exactly its own timer in an
    otherwise empty queue. *)
Lemma callAt_single delay id due a s t b :
  pending s = [] \/ pending s = [mkTimer id due a] ->
  clock s <= t ->
  exists s',
    callAt delay (Some id, s) (t, b) = (Some (nextId s), s')
    /\ pending s' = [mkTimer (nextId s) (t + Z.max 0 delay) b]
    /\ clock s' = t
    /\ calls s' = calls s ++ map tmArgs (filter (fun tm => tmDue tm <= t) (pending s)).
Proof.
  intros Hp Hc. unfold callAt, debounce, setTimeout, clearTimeout, advance.
  cbn [fst snd pending clock nextId calls].
  eexists. split; [reflexivity |]. cbn [pending clock calls].
  rewrite Z.max_r by lia. split; [| done].
  destruct Hp as [-> | ->]; [done |].
  rewrite !filter_cons, !filter_nil. cbn [tmDue tmId].
  destruct (decide (~ due <= t)); [| done].
  rewrite filter_cons, filter_nil. cbn [tmId]. by rewrite decide_False by (intros H; by apply H).
Qed.

Lemma runCalls_pending delay cs : forall T id due a s,
  pending s = [mkTimer id due a] ->
  ascending (clock s) (map fst cs) ->
  calls (advance T (foldl (callAt delay) (Some id, s) cs).2)
  = calls s
    ++ (if decide (due <= match cs with [] => T | c :: _ => c.1 end) then [a] else [])
    ++ trailing (Z.max 0 delay) cs T.
Proof.
  induction cs as [| [t b] rest IH]; intros T id due a s Hp Ha.
  - simpl. rewrite Hp, filter_cons, filter_nil. cbn [tmDue].
    rewrite app_nil_r. by destruct (decide (due <= T)).
  - simpl in Ha. destruct Ha as [Hc Ha].
    destruct (callAt_single delay id due a s t b (or_intror Hp) Hc)
      as (s' & E & P' & C' & K').
    cbn [foldl]. rewrite E.
    rewrite (IH T (nextId s) (t + Z.max 0 delay) b s' P') by (by rewrite C').
    rewrite K', Hp, filter_cons, filter_nil. cbn [tmDue trailing fst snd].
    rewrite <- !app_assoc. f_equal.
    destruct (decide (due <= t)); by rewrite ?app_nil_r.
Qed.

End Debounce.



Lemma advanceMatch_composes_witness :
  let w := Page.searchedPage Page.noLayout in
  let inst := Page.inst Page.noLayout in
  currentIndex (searchState (prevMatch inst (nextMatch inst w)))
  = currentIndex (searchState w).
Proof.
  intros w inst.
  destruct (advanceMatch_composes 1 (-1) (instConfig inst) (counterEl inst) w)
    as (_ & _ & _ & H).
  apply H. vm_compute. split; [discriminate | reflexivity].
Defined.
(* ===================================================================== *)
(** ** [injectStyles] *)
(* ===================================================================== *)

Lemma removeNode_sublist e n : treeElems (removeNode e n) `sublist_of` nodeElems n.
Proof.
  induction n as [s | e' ks IH] using node_ind_forall; simpl; [done |].
  case_decide; simpl; [apply sublist_nil_l |].
  rewrite app_nil_r. apply sublist_skip.
  change (treeElems (flat_map (removeNode e) ks) `sublist_of` flat_map nodeElems ks).
  rewrite treeElems_flat_map.
  induction IH as [| k l Hk _ IHl]; simpl; [done |]. by apply sublist_app.
Qed.

Lemma removeElem_sublist e t :
  treeElems (flat_map (removeNode e) t) `sublist_of` treeElems t.
Proof.
  rewrite treeElems_flat_map. unfold treeElems at 2.
  induction t as [| k l IHl]; simpl; [done |].
  apply sublist_app; [apply removeNode_sublist | exact IHl].
Qed.

Lemma removeNode_keep e n p :
  p ∈ nodeElems n -> p <> e -> p ∉ descNode e n -> p ∈ treeElems (removeNode e n).
Proof.
  induction n as [s | e' ks IH] using node_ind_forall; intros Hin Hne Hd.
  - by apply elem_of_nil in Hin.
  - simpl in *. case_decide as He.
    + subst e'. apply elem_of_cons in Hin as [-> | Hin]; done.
    + simpl. rewrite app_nil_r.
      apply elem_of_cons in Hin as [-> | Hin]; [left |]. right.
      change (p ∈ treeElems (flat_map (removeNode e) ks)).
      rewrite treeElems_flat_map. apply elem_of_flat_map in Hin as (k & Hk & Hin).
      apply elem_of_flat_map. exists k. split; [done |].
      rewrite Forall_forall in IH. apply (IH k Hk Hin Hne).
      intros H. apply Hd. apply elem_of_flat_map. by exists k.
Qed.

Lemma removeElem_keep e t p :
  p ∈ treeElems t -> p <> e -> p ∉ descendants e t ->
  p ∈ treeElems (flat_map (removeNode e) t).
Proof.
  intros Hin Hne Hd. rewrite treeElems_flat_map.
  apply elem_of_flat_map in Hin as (k & Hk & Hin).
  apply elem_of_flat_map. exists k. split; [done |].
  apply removeNode_keep; try done.
  intros H. apply Hd. apply elem_of_flat_map. by exists k.
Qed.

Section Append.

Variables (p : elem) (child : node).

Lemma nodeElems_append n x :
  x ∈ nodeElems (mapAt p (fun ks => ks ++ [child]) n) -> x ∈ nodeElems n \/ x ∈ nodeElems child.
Proof.
  induction n as [s | e ks IH] using node_ind_forall; simpl; [by left |].
  case_decide; simpl.
  - rewrite flat_map_app. simpl. rewrite app_nil_r.
    rewrite !elem_of_cons, elem_of_app. tauto.
  - rewrite !elem_of_cons. intros [-> | Hx]; [by left; left |].
    rewrite flat_map_map in Hx.
    apply elem_of_flat_map in Hx as (k & Hk & Hx).
    rewrite Forall_forall in IH. destruct (IH k Hk Hx) as [H' | H']; [| by right].
    left. right. apply elem_of_flat_map. by exists k.
Qed.

Lemma treeElems_append t x :
  x ∈ treeElems (map (mapAt p (fun ks => ks ++ [child])) t) -> x ∈ treeElems t \/ x ∈ nodeElems child.
Proof.
  unfold treeElems. rewrite flat_map_map.
  intros Hx. apply elem_of_flat_map in Hx as (k & Hk & Hx).
  destruct (nodeElems_append k x Hx) as [H | H]; [| by right].
  left. apply elem_of_flat_map. by exists k.
Qed.

Lemma nodeElems_appended n x :
  p ∈ nodeElems n -> x ∈ nodeElems child -> x ∈ nodeElems (mapAt p (fun ks => ks ++ [child]) n).
Proof.
  induction n as [s | e ks IH] using node_ind_forall; simpl; intros Hp Hx.
  - by apply elem_of_nil in Hp.
  - case_decide as He; simpl.
    + right. rewrite flat_map_app. simpl. rewrite app_nil_r.
      apply elem_of_app. by right.
    + apply elem_of_cons in Hp as [-> | Hp]; [done |]. right.
      rewrite flat_map_map.
      apply elem_of_flat_map in Hp as (k & Hk & Hp).
      apply elem_of_flat_map. exists k. split; [done |].
      rewrite Forall_forall in IH. by apply IH.
Qed.

Lemma treeElems_appended t x :
  p ∈ treeElems t -> x ∈ nodeElems child -> x ∈ treeElems (map (mapAt p (fun ks => ks ++ [child])) t).
Proof.
  unfold treeElems. rewrite flat_map_map.
  intros Hp Hx. apply elem_of_flat_map in Hp as (k & Hk & Hp).
  apply elem_of_flat_map. exists k. split; [done |]. by apply nodeElems_appended.
Qed.

End Append.

Section AppendText.

Variables (p s : elem) (c : list node).

Lemma kids_once (g : node -> list elem) ks :
  NoDup (flat_map g ks) ->
  flat_map (fun k => if bool_decide (p ∈ g k) then c else []) ks
  = if bool_decide (p ∈ flat_map g ks) then c else [].
Proof.
  induction ks as [| k l IH]; cbn [flat_map]; intros ND.
  - case_bool_decide as H; [by apply elem_of_nil in H | done].
  - apply NoDup_app in ND as (_ & Hd & ND). rewrite (IH ND).
    destruct (decide (p ∈ g k)) as [Hk | Hk].
    + rewrite (bool_decide_eq_true_2 (p ∈ g k)) by done.
      rewrite (bool_decide_eq_false_2 (p ∈ flat_map g l)) by (by apply Hd).
      rewrite app_nil_r.
      by rewrite bool_decide_eq_true_2 by (apply elem_of_app; by left).
    + rewrite (bool_decide_eq_false_2 (p ∈ g k)) by done. cbn [app].
      apply (f_equal (fun b : bool => if b then c else [])).
      apply bool_decide_ext. rewrite elem_of_app. tauto.
Qed.

Lemma kidsNode_appended n :
  s ∉ nodeElems n -> NoDup (nodeElems n) ->
  kidsNode s (mapAt p (fun ks => ks ++ [Elem s c]) n) = if bool_decide (p ∈ nodeElems n) then c else [].
Proof.
  induction n as [t | e ks IH] using node_ind_forall; intros Hs ND.
  - cbn [mapAt kidsNode nodeElems].
    case_bool_decide as H; [by apply elem_of_nil in H | done].
  - cbn [nodeElems] in Hs, ND. apply not_elem_of_cons in Hs as [Hse Hs].
    apply NoDup_cons in ND as [He ND].
    assert (Habs : flat_map (kidsNode s) ks = []).
    { clear -Hs. induction ks as [| k l IHl]; simpl in *; [done |].
      rewrite elem_of_app in Hs.
      rewrite kidsNode_absent, IHl by tauto. done. }
    cbn [mapAt nodeElems]. case_decide as Hp.
    + subst e. cbn [kidsNode]. rewrite decide_False by done.
      rewrite flat_map_app, Habs. cbn [flat_map kidsNode app].
      rewrite decide_True by done. rewrite app_nil_r.
      by rewrite bool_decide_eq_true_2 by left.
    + cbn [kidsNode]. rewrite decide_False by done.
      rewrite flat_map_map.
      transitivity (flat_map (fun k => if bool_decide (p ∈ nodeElems k) then c else []) ks).
      * clear Habs He. induction IH as [| k l Hk _ IHl]; cbn [flat_map] in *; [done |].
        rewrite elem_of_app in Hs. apply NoDup_app in ND as (ND1 & _ & ND2).
        rewrite Hk by tauto. rewrite IHl by tauto. done.
      * rewrite (kids_once nodeElems ks ND).
        apply (f_equal (fun b : bool => if b then c else [])).
        apply bool_decide_ext. rewrite elem_of_cons. intuition congruence.
Qed.

Lemma childNodes_appended t :
  s ∉ treeElems t -> NoDup (treeElems t) ->
  childNodes s (map (mapAt p (fun ks => ks ++ [Elem s c])) t) = if bool_decide (p ∈ treeElems t) then c else [].
Proof.
  intros Hs ND. unfold childNodes.
  rewrite flat_map_map.
  transitivity (flat_map (fun k => if bool_decide (p ∈ nodeElems k) then c else []) t).
  - unfold treeElems in *. induction t as [| k l IHl]; cbn [flat_map] in *; [done |].
    rewrite elem_of_app in Hs. apply NoDup_app in ND as (ND1 & _ & ND2).
    rewrite kidsNode_appended by tauto. rewrite IHl by tauto. done.
  - apply (kids_once nodeElems t ND).
Qed.

End AppendText.

Lemma getElementById_head d id e :
  getElementById d id = Some e ->
  getAttribute d e "id" = Some id /\ e ∈ treeElems (tree d)
  /\ forall x, (length (filter (fun e => getAttribute d e "id" = Some id)
                               (treeElems (tree d))) <= 1)%nat ->
               x ∈ treeElems (tree d) -> getAttribute d x "id" = Some id -> x = e.
Proof.
  unfold getElementById. intros H.
  destruct (filter _ _) as [| a l] eqn:E; [done |]. simpl in H. injection H as ->.
  assert (Hin : e ∈ filter (fun e => getAttribute d e "id" = Some id) (treeElems (tree d))).
  { rewrite E. left. }
  apply list_elem_of_filter in Hin as [Ha Ht]. split; [done |]. split; [done |].
  intros x Hl Hx Hxa. destruct l; [| simpl in Hl; lia].
  assert (Hxin : x ∈ filter (fun e => getAttribute d e "id" = Some id) (treeElems (tree d))).
  { apply list_elem_of_filter. done. }
  rewrite E in Hxin. by apply list_elem_of_singleton in Hxin.
Qed.

Lemma getElementById_none d id x :
  getElementById d id = None ->
  x ∈ treeElems (tree d) -> getAttribute d x "id" <> Some id.
Proof.
  unfold getElementById. intros H Hx Ha.
  destruct (filter _ _) as [| a l] eqn:E; [| done].
  assert (Hxin : x ∈ filter (fun e => getAttribute d e "id" = Some id) (treeElems (tree d))).
  { apply list_elem_of_filter. done. }
  rewrite E in Hxin. by apply elem_of_nil in Hxin.
Qed.

Lemma getEl_created tag d x :
  getEl (createElement tag d).2 x =
  if decide (freshElem d = x) then mkElemData tag ∅ ∅ ∅ else getEl d x.
Proof.
  unfold createElement, getEl. cbn [snd store withStore].
  case_decide as H; [subst; by rewrite lookup_insert_eq | by rewrite lookup_insert_ne].
Qed.

(** X22.  [injectStyles] makes a new [style] element: it was not
    known before, it carries the id "cur-faq-styles" and nothing else, and
    the data of every other element is left alone.  The element that was
    found under that id before is no longer in the document, and nothing
    but the new element has come into it.  When the head is in the document
    (and is not removed with the old element) the new element is in the
    document as well, and in a document where no element occurs twice its
    text is the list of rules of the configuration, joined by line breaks.
    When at most one element of the document carried the id before, the new
    element is the only one that carries it afterwards. *)
Theorem injectStyles_single cfg d :
  let style := (injectStyles cfg d).1 in
  let d' := (injectStyles cfg d).2 in
  let old := getElementById d STYLE_ID in
  ~ known d style
  /\ getEl d' style = mkElemData "STYLE" {[ "id" := STYLE_ID ]} ∅ ∅
  /\ (forall x, x <> style -> getEl d' x = getEl d x)
  /\ (forall e, old = Some e -> e ∉ treeElems (tree d'))
  /\ (forall x, x ∈ treeElems (tree d') -> x = style \/ x ∈ treeElems (tree d))
  /\ (docHead d ∈ treeElems (tree d) ->
      (forall e, old = Some e ->
                 docHead d <> e /\ docHead d ∉ descendants e (tree d)) ->
      style ∈ treeElems (tree d')
      /\ (NoDup (treeElems (tree d)) ->
          textContent d' style = String.concat nl (styleRules cfg)))
  /\ ((length (filter (fun e => getAttribute d e "id" = Some STYLE_ID)
                      (treeElems (tree d))) <= 1)%nat ->
      forall x, x ∈ treeElems (tree d') ->
                getAttribute d' x "id" = Some STYLE_ID -> x = style).
Proof.
  intros style d' old.
  set (d1 := match old with Some existing => removeElem existing d | None => d end).
  assert (Hstore : store d1 = store d) by (unfold d1; by destruct old).
  assert (Hhead : docHead d1 = docHead d) by (unfold d1; by destruct old).
  assert (Hsub : treeElems (tree d1) `sublist_of` treeElems (tree d)).
  { unfold d1. destruct old; [apply removeElem_sublist | done]. }
  assert (Hstyle : style = freshElem d1) by reflexivity.
  assert (Hd' : d' =
            appendChild (docHead d1)
              (Elem style [Text (String.concat nl (styleRules cfg))])
              (setAttribute style "id" STYLE_ID (createElement "STYLE" d1).2))
    by reflexivity.
  assert (Htree : tree d' =
            map (mapAt (docHead d)
                   (fun ks => ks ++ [Elem style [Text (String.concat nl (styleRules cfg))]]))
                (tree d1)).
  { rewrite Hd', Hhead. reflexivity. }
  assert (Hget : forall x, getEl d' x =
            if decide (style = x) then mkElemData "STYLE" {[ "id" := STYLE_ID ]} ∅ ∅
            else getEl d x).
  { intros x. rewrite Hd'.
    change (getEl (setAttribute style "id" STYLE_ID (createElement "STYLE" d1).2) x
            = if decide (style = x) then mkElemData "STYLE" {[ "id" := STYLE_ID ]} ∅ ∅
              else getEl d x).
    unfold setAttribute. rewrite getEl_updEl, getEl_created, <- Hstyle.
    destruct (decide (style = x)) as [Hx | Hx]; [reflexivity |].
    unfold getEl. by rewrite Hstore. }
  assert (Hfresh : ~ known d style).
  { intros K. assert (K1 : known d1 style) by (unfold known; by rewrite Hstore).
    apply (freshElem_known d1 style K1). done. }
  assert (Hnew : style ∉ treeElems (tree d1)).
  { intros H. apply (or_introl (B := known d1 style)) in H.
    apply in_tree_lt_fresh in H. rewrite Hstyle in H. lia. }
  assert (Hin : forall x, x ∈ treeElems (tree d') -> x = style \/ x ∈ treeElems (tree d1)).
  { intros x Hx. rewrite Htree in Hx. apply treeElems_append in Hx as [Hx | Hx]; [by right |].
    simpl in Hx. apply list_elem_of_singleton in Hx. by left. }
  split; [exact Hfresh |]. split; [| split; [| split; [| split; [| split]]]].
  - rewrite Hget. by rewrite decide_True.
  - intros x Hx. rewrite Hget. by rewrite decide_False.
  - intros e He Hin'. destruct (getElementById_head d STYLE_ID e He) as (Ha & _ & _).
    destruct (Hin e Hin') as [-> | H1].
    + apply Hfresh. by apply attr_known in Ha.
    + unfold d1 in H1. fold old in He. rewrite He in H1.
      by apply removeElem_gone in H1.
  - intros x Hx. destruct (Hin x Hx) as [-> | H1]; [by left | right].
    by apply (sublist_subseteq _ _ Hsub).
  - intros Hh Hkeep.
    assert (Hh1 : docHead d ∈ treeElems (tree d1)).
    { unfold d1. destruct old as [e |] eqn:Eo; [| done].
      destruct (Hkeep e eq_refl) as [Hne Hd]. by apply removeElem_keep. }
    split.
    + rewrite Htree. apply treeElems_appended; [done |]. simpl. left.
    + intros ND. unfold textContent. rewrite Htree.
      rewrite childNodes_appended; [| done | by eapply sublist_NoDup].
      rewrite bool_decide_eq_true_2 by done. reflexivity.
  - intros Hl x Hx Ha. destruct (Hin x Hx) as [-> | H1]; [done |]. exfalso.
    destruct (decide (style = x)) as [-> | Hne]; [done |].
    assert (Hax : getAttribute d x "id" = Some STYLE_ID).
    { unfold getAttribute in *. rewrite Hget, decide_False in Ha by done. exact Ha. }
    assert (Hxd : x ∈ treeElems (tree d)) by (by apply (sublist_subseteq _ _ Hsub)).
    destruct old as [e |] eqn:Eo.
    + destruct (getElementById_head d STYLE_ID e Eo) as (_ & _ & Hu).
      rewrite (Hu x Hl Hxd Hax) in H1. unfold d1 in H1.
      by apply removeElem_gone in H1.
    + by apply (getElementById_none d STYLE_ID x Eo Hxd).
Qed.

Lemma injectStyles_single_witness :
  let r := injectStyles DEFAULTS (injectStyles DEFAULTS Page.document).2 in
  textContent r.2 r.1 = String.concat nl (styleRules DEFAULTS)
  /\ filter (fun e => getAttribute r.2 e "id" = Some STYLE_ID) (treeElems (tree r.2))
     = [r.1].
Proof.
  intros r. set (d := (injectStyles DEFAULTS Page.document).2).
  destruct (injectStyles_single DEFAULTS d) as (_ & _ & _ & _ & _ & H & _).
  split.
  - apply H.
    + apply (bool_decide_unpack _). vm_compute. exact I.
    + intros e He. vm_compute in He. injection He as <-. split; [discriminate |].
      apply (bool_decide_unpack _). vm_compute. exact I.
    + apply (bool_decide_unpack _). vm_compute. exact I.
  - vm_compute. reflexivity.
Defined.
(* ===================================================================== *)
(** ** The first click *)
(* ===================================================================== *)

Lemma initFaq_closed env w inst w1 i c :
  winInitialized w = false -> initFaq env w = (Some inst, w1) ->
  NoDup (flat_map itemElems (instItems inst)) ->
  i ∈ instItems inst -> content i = Some c ->
  i ∉ defaultTargets (instGroups inst) ->
  closedObs (instConfig inst) (dom w1) i.
Proof.
  intros Hflag Hinit Hnd Hi Hc Hnt.
  destruct (initFaq_items env w inst w1 Hflag Hinit) as (Hitems & Hgroups & _).
  destruct (initFaq_dom env w inst w1 Hflag Hinit) as (d0 & wb & Hwb & Q).
  apply (closedObs_quiet _ _ _ _ Q).
  assert (Hall : instItems inst = allItemsOf (instGroups inst)) by congruence.
  rewrite Hall in Hnd, Hi.
  apply (closedObs_openDefaults env _ (instGroups inst) (instGroups inst) wb i c);
    try done.
  rewrite Hwb, Hall. by apply (closeAll_spec _ _ _ i c).
Qed.


(* ===================================================================== *)
(** ** The outcome of a search *)
(* ===================================================================== *)

Lemma scrolled_setItemState env it open cfg w :
  scrolledTo (setItemState env it open Search cfg None w) = scrolledTo w.
Proof.
  rewrite setItemState_search. destruct (content it), (trigger it); try done.
  rewrite applyItemState_parts. unfold animateItem, expandElement, collapseElement.
  destruct open; cbn; [done |].
  by destruct (hasAttribute _ _ _).
Qed.

Lemma closeLoop_scrolled env cond cfg l : forall w,
  scrolledTo (foldl (closeIf env cond cfg) w l) = scrolledTo w.
Proof.
  induction l as [| j l IH]; intros w; simpl; [done |].
  rewrite IH. unfold closeIf. destruct (cond w j); [| done].
  apply scrolled_setItemState.
Qed.

Lemma openMatching_scrolled env normalised cfg w j w1 :
  openMatching env normalised cfg (Some w) j = Some w1 ->
  scrolledTo w1 = scrolledTo w
  /\ currentIndex (searchState w1) = currentIndex (searchState w).
Proof.
  unfold openMatching. cbn [mbind option_bind].
  destruct (_ || _); [| by intros [= <-]].
  destruct (match title j with Some _ => _ | None => _ end) as [d1 |];
    cbn [mbind option_bind]; [| done].
  destruct (match content j with Some _ => _ | None => _ end) as [d2 |];
    cbn [mbind option_bind]; [| done].
  intros [= <-]. rewrite scrolled_setItemState.
  by rewrite (proj2 (proj2 (tree_setItemState env j true Search cfg None _))).
Qed.

Lemma openLoop_none env normalised cfg l :
  foldl (openMatching env normalised cfg) None l = None.
Proof. induction l as [| j l IH]; [done | exact IH]. Qed.

Lemma openLoop_scrolled env normalised cfg l : forall w w',
  foldl (openMatching env normalised cfg) (Some w) l = Some w' ->
  scrolledTo w' = scrolledTo w
  /\ currentIndex (searchState w') = currentIndex (searchState w).
Proof.
  induction l as [| j l IH]; intros w w' H.
  - by injection H as ->.
  - cbn [foldl] in H.
    destruct (openMatching env normalised cfg (Some w) j) as [w1 |] eqn:E.
    + destruct (openMatching_scrolled _ _ _ _ _ _ E) as [<- <-]. by apply IH.
    + by rewrite openLoop_none in H.
Qed.

Lemma updateEmptyState_shows d e :
  querySelector (updateEmptyState false d) (roleSel ROLES.emptyState) = Some e ->
  getStyle (updateEmptyState false d) e "display" = "".
Proof.
  unfold updateEmptyState.
  destruct (querySelector d (roleSel ROLES.emptyState)) as [e0 |] eqn:E.
  - unfold querySelector in *. rewrite querySelectorAll_setStyle, E.
    intros [= <-]. apply getStyle_clear.
  - by rewrite E.
Qed.

Lemma querySelectorAll_attr d d' n v :
  tree d' = tree d -> (forall x, getAttribute d' x n = getAttribute d x n) ->
  querySelectorAll d' (SelAttr n v) = querySelectorAll d (SelAttr n v).
Proof.
  intros Ht Ha. unfold querySelectorAll. rewrite Ht. apply list_filter_iff.
  intros x. simpl. by rewrite Ha.
Qed.

Lemma getStyle_removeAll cls l : forall d x k,
  getStyle (foldl (fun d el => classRemove el cls d) d l) x k = getStyle d x k.
Proof.
  induction l as [| e l IH]; intros d x k; simpl; [done |].
  rewrite IH. unfold getStyle, classRemove. rewrite getEl_updEl. by case_decide; subst.
Qed.

Lemma getStyle_classAdd e c d x k : getStyle (classAdd e c d) x k = getStyle d x k.
Proof. unfold getStyle, classAdd. rewrite getEl_updEl. by case_decide; subst. Qed.

Lemma finishSearch_nomatch query cfg counter w3 :
  querySelectorAll (dom w3) (markSel (highlightClass (classes cfg))) = [] ->
  let w' := finishSearch query cfg counter w3 in
  marks (searchState w') = []
  /\ currentIndex (searchState w') = currentIndex (searchState w3)
  /\ scrolledTo w' = scrolledTo w3
  /\ dom w' = updateEmptyState false (dom w3).
Proof.
  intros E. unfold finishSearch. rewrite E.
  cbn [setMarks setSearchState searchState marks].
  rewrite bool_decide_eq_false_2 by (intros H; by apply H).
  cbn [onDom dom].
  match goal with |- context [querySelector ?d ?s] => destruct (querySelector d s) end; done.
Qed.

Lemma navigateToMatch_at index cfg counter w j target :
  marks (searchState w) <> [] ->
  j = Z.rem (Z.rem index (Z.of_nat (length (marks (searchState w))))
             + Z.of_nat (length (marks (searchState w))))
            (Z.of_nat (length (marks (searchState w)))) ->
  marks (searchState w) !! Z.to_nat j = Some target ->
  navigateToMatch index cfg counter w =
  onDom (updateMatchCounter counter
           (mkSearchState (marks (searchState w)) j (searchOpenedItems (searchState w))))
    (smoothScrollTo target
       (onDom (classAdd target (currentHighlightClass (classes cfg)))
          (onDom (removeClassEverywhere (currentHighlightClass (classes cfg)))
             (setCurrentIndex j w)))).
Proof.
  intros Hne Hj Htarget. unfold navigateToMatch.
  set (N := Z.of_nat (length (marks (searchState w)))) in *.
  destruct (marks (searchState w)) as [| m0 ms] eqn:Hm; [done |].
  cbn [setCurrentIndex setSearchState searchState marks onDom currentIndex].
  rewrite Hm. fold N. rewrite <- Hj. rewrite Htarget.
  cbn [smoothScrollTo onDom setCurrentIndex setSearchState searchState marks
       currentIndex searchOpenedItems].
  rewrite Hm. reflexivity.
Qed.

Lemma finishSearch_match query cfg counter w3 first rest :
  querySelectorAll (dom w3) (markSel (highlightClass (classes cfg))) = first :: rest ->
  let w' := finishSearch query cfg counter w3 in
  let cur := currentHighlightClass (classes cfg) in
  marks (searchState w') = first :: rest
  /\ currentIndex (searchState w') = 0
  /\ classContains (dom w') first cur = true
  /\ scrolledTo w' = scrolledTo w3 ++ [first]
  /\ (counter = None ->
      dom w' = classAdd first cur
                 (removeClassEverywhere cur (updateEmptyState true (dom w3)))).
Proof.
  intros E w' cur.
  set (w5 := setCurrentIndex 0 (onDom (updateEmptyState true) (setMarks (first :: rest) w3))).
  assert (Hnav : navigateToMatch 0 cfg counter w5 =
    onDom (updateMatchCounter counter
             (mkSearchState (first :: rest) 0 (searchOpenedItems (searchState w3))))
      (smoothScrollTo first
         (onDom (classAdd first cur) (onDom (removeClassEverywhere cur) w5)))).
  { apply (navigateToMatch_at 0 cfg counter w5 0 first); [done | | done].
    change (marks (searchState w5)) with (first :: rest).
    rewrite Z.rem_0_l by (simpl; lia). rewrite Z.add_0_l.
    symmetry. apply Z.rem_same. simpl. lia. }
  assert (Hw' : w' =
    match querySelector (dom (navigateToMatch 0 cfg counter w5)) (roleSel ROLES.group) with
    | Some g =>
        dispatchEvent
          (mkEvent g "cur-faq:search"
             (DetailSearch query
                (Z.of_nat (length (marks (searchState (navigateToMatch 0 cfg counter w5))))))
             true) (navigateToMatch 0 cfg counter w5)
    | None => navigateToMatch 0 cfg counter w5
    end).
  { unfold w', finishSearch. rewrite E.
    cbn [setMarks setSearchState searchState marks].
    rewrite bool_decide_eq_true_2 by done. reflexivity. }
  rewrite Hw', Hnav.
  match goal with |- context [querySelector ?d ?s] => destruct (querySelector d s) end;
    cbn [dispatchEvent onDom smoothScrollTo setCurrentIndex setSearchState setMarks
         searchState marks currentIndex dom scrolledTo w5];
    (split; [reflexivity |]); (split; [reflexivity |]);
    (split; [rewrite class_updateMatchCounter; apply class_add_same |]);
    (split; [reflexivity |]); by intros ->.
Qed.


(* ===================================================================== *)
(** ** The provenance record *)
(* ===================================================================== *)

Lemma provenanceOk_ext w w' :
  (forall x, searchObs w' x = searchObs w x) -> provenanceOk w -> provenanceOk w'.
Proof.
  intros H Hw x Hx. destruct (proj1 (searchObs_eq w' w x) (H x)) as (_ & -> & Hs).
  apply Hw. by apply Hs.
Qed.

Section Provenance.

Variable env : Env.

Lemma provenanceOk_apply it c t open src cfg w :
  provenanceOk w -> provenanceOk (applyItemState env it c t open src cfg w).
Proof.
  intros Hw x Hx. destruct (decide (x = item it)) as [-> | Hne].
  - rewrite bySearch_apply. rewrite searchOpened_apply in Hx.
    destruct open, src; try done; try (exfalso; set_solver).
    by apply Hw.
  - destruct (proj1 (searchObs_eq _ _ _)
                (searchObs_apply_other env it c t open src cfg w x Hne)) as (_ & -> & Hs).
    apply Hw. by apply Hs.
Qed.

Lemma provenanceOk_noGroup it open src cfg w :
  provenanceOk w -> provenanceOk (setItemStateNoGroup env it open src cfg w).
Proof.
  intros Hw. unfold setItemStateNoGroup, setItemStateWith.
  destruct (content it), (trigger it); try done. by apply provenanceOk_apply.
Qed.

Lemma provenanceOk_closeSiblings X src cfg l : forall w,
  provenanceOk w ->
  provenanceOk (foldl (closeSiblings env (setItemStateNoGroup env) X src cfg) w l).
Proof.
  induction l as [| s l IH]; intros w Hw; simpl; [done |].
  apply IH. unfold closeSiblings. destruct (_ && _); [| done].
  by apply provenanceOk_noGroup.
Qed.

Lemma provenanceOk_setItemState it open src cfg group w :
  provenanceOk w -> provenanceOk (setItemState env it open src cfg group w).
Proof.
  intros Hw. unfold setItemState, setItemStateWith.
  destruct (content it) as [c |]; [| done]. destruct (trigger it) as [t |]; [| done].
  apply provenanceOk_apply.
  destruct group as [g |]; [| done].
  destruct (open && accordion (config g)); [| done].
  by apply provenanceOk_closeSiblings.
Qed.

Lemma provenanceOk_closeLoop cond cfg l : forall w,
  provenanceOk w -> provenanceOk (foldl (closeIf env cond cfg) w l).
Proof.
  induction l as [| j l IH]; intros w Hw; simpl; [done |].
  apply IH. unfold closeIf. destruct (cond w j); [| done].
  by apply provenanceOk_setItemState.
Qed.

Lemma provenanceOk_openMatching normalised cfg w j w1 :
  normalised <> "" -> normalizeText normalised = normalised ->
  provenanceOk w -> openMatching env normalised cfg (Some w) j = Some w1 ->
  provenanceOk w1.
Proof.
  intros Hne Hn Hw. unfold openMatching. cbn [mbind option_bind].
  destruct (_ || _); [| by intros [= <-]].
  set (cls := highlightClass (classes cfg)).
  destruct (highlightPart_spec (title j) normalised cls (dom w) Hne Hn) as (d1 & E1 & H1).
  rewrite E1. cbn [mbind option_bind].
  destruct (highlightPart_spec (content j) normalised cls d1 Hne Hn) as (d2 & E2 & H2).
  rewrite E2. cbn [mbind option_bind].
  intros [= <-]. apply provenanceOk_setItemState.
  intros x Hx. cbn [onDom dom searchState] in *.
  pose proof (Hw x Hx) as Ha.
  assert (Hp : present (dom w) x) by (right; by apply attr_known in Ha).
  destruct (H1 x Hp) as (P1 & _ & G1). destruct (H2 x P1) as (_ & _ & G2).
  unfold getAttribute in *. by rewrite G2, G1.
Qed.

Lemma provenanceOk_openLoop normalised cfg l :
  normalised <> "" -> normalizeText normalised = normalised ->
  forall w w', provenanceOk w ->
    foldl (openMatching env normalised cfg) (Some w) l = Some w' -> provenanceOk w'.
Proof.
  intros Hne Hn. induction l as [| j l IH]; intros w w' Hw H.
  - by injection H as <-.
  - cbn [foldl] in H.
    destruct (openMatching env normalised cfg (Some w) j) as [w1 |] eqn:E.
    + apply (IH w1 w'); [| done]. by apply (provenanceOk_openMatching normalised cfg w j).
    + by rewrite openLoop_none in H.
Qed.

Lemma searchState_ensureId el prefix w :
  searchState (ensureId env el prefix w).2 = searchState w.
Proof. unfold ensureId. by repeat case_match. Qed.

Lemma searchState_setupAria it w : searchState (setupAria env it w) = searchState w.
Proof.
  unfold setupAria. destruct (trigger it) as [t |]; [| done].
  destruct (content it) as [c |]; [| done].
  pose proof (searchState_ensureId c "cur-faq" w) as H.
  destruct (ensureId env c "cur-faq" w) as [i w0]. simpl in H.
  by repeat case_match.
Qed.

Lemma searchState_addListeners ls : forall w,
  searchState (foldl (fun w l => addEventListener l w) w ls) = searchState w.
Proof. induction ls as [| l ls IH]; intros w; simpl; [done | by rewrite IH]. Qed.

Lemma searchState_bindItems g l : forall acc,
  searchState (foldl (bindItem env g) acc l).2 = searchState acc.2.
Proof.
  induction l as [| i l IH]; intros acc; simpl; [done |].
  rewrite IH. unfold bindItem. destruct (trigger i); [| done].
  cbn [snd]. by rewrite searchState_addListeners, searchState_setupAria.
Qed.

Lemma searchState_bindAccordionListeners groups w :
  searchState (bindAccordionListeners env groups w).2 = searchState w.
Proof.
  unfold bindAccordionListeners.
  change (searchState w) with (searchState ([] : list listener, w).2).
  generalize (([] : list listener), w).
  induction groups as [| g l IH]; intros acc; simpl; [done |].
  by rewrite IH, searchState_bindItems.
Qed.

Lemma searchOpened_user it open cfg group w :
  searchOpenedItems (searchState w) = ∅ ->
  searchOpenedItems (searchState (setItemState env it open User cfg group w)) = ∅.
Proof.
  intros Hw. unfold setItemState, setItemStateWith.
  destruct (content it) as [c |]; [| done]. destruct (trigger it) as [t |]; [| done].
  assert (He : forall l w0, searchOpenedItems (searchState w0) = ∅ ->
            searchOpenedItems
              (searchState (foldl (closeSiblings env (setItemStateNoGroup env) it User cfg)
                                  w0 l)) = ∅).
  { clear. induction l as [| s l IH]; intros w0 H0; simpl; [done |].
    apply IH. unfold closeSiblings. destruct (_ && _); [| done].
    unfold setItemStateNoGroup, setItemStateWith.
    destruct (content s), (trigger s); try done.
    by rewrite searchOpened_apply. }
  rewrite searchOpened_apply.
  assert (H0 : searchOpenedItems
                 (searchState
                    match group with
                    | Some g =>
                        if open && accordion (config g)
                        then foldl (closeSiblings env (setItemStateNoGroup env) it User cfg)
                                   w (items g)
                        else w
                    | None => w
                    end) = ∅).
  { destruct group as [g |]; [| done]. destruct (open && accordion (config g)); [| done].
    by apply He. }
  rewrite H0. destruct open; set_solver.
Qed.

Lemma searchOpened_openDefaults cfg groups : forall w,
  searchOpenedItems (searchState w) = ∅ ->
  searchOpenedItems (searchState (foldl (openDefault env cfg) w groups)) = ∅.
Proof.
  induction groups as [| g l IH]; intros w Hw; simpl; [done |].
  apply IH. unfold openDefault. repeat case_match; try done.
  by apply searchOpened_user.
Qed.

End Provenance.

Lemma searchState_createFloatingPanel w :
  searchState (createFloatingPanel w).2 = searchState w.
Proof.
  unfold createFloatingPanel.
  repeat match goal with
         | |- context [let '(_, _) := createElement ?tag ?d in _] =>
             destruct (createElement tag d)
         end.
  reflexivity.
Qed.

Lemma searchState_bindSearch cfg w : searchState (bindSearch cfg w).2 = searchState w.
Proof.
  unfold bindSearch.
  match goal with |- context [match ?m with Some _ => _ | None => _ end] =>
    destruct m as [input |] end; [| done].
  destruct (floatingSearch cfg).
  - pose proof (searchState_createFloatingPanel w) as H.
    destruct (createFloatingPanel w) as [fp w1]. simpl in *. exact H.
  - reflexivity.
Qed.

Lemma initFaq_searchOpened env w inst w1 :
  winInitialized w = false -> initFaq env w = (Some inst, w1) ->
  searchOpenedItems (searchState w1) = ∅.
Proof.
  intros Hflag. unfold initFaq. rewrite Hflag.
  destruct (injectStyles _ _) as [style d] eqn:Es.
  match goal with
  | |- context [bindAccordionListeners env ?gs (foldl (openDefault env ?cfg) ?x ?gs)] =>
      pose proof (searchOpened_openDefaults env cfg gs x eq_refl) as Ho;
      pose proof (searchState_bindAccordionListeners env gs (foldl (openDefault env cfg) x gs))
        as Hb;
      destruct (bindAccordionListeners env gs (foldl (openDefault env cfg) x gs))
        as [accordionLs wa] eqn:Eacc
  end.
  cbn [snd] in Hb.
  match goal with
  | |- context [bindSearch ?cfg ?x] =>
      pose proof (searchState_bindSearch cfg x) as Hs;
      destruct (bindSearch cfg x) as [[floating searchLs] ws] eqn:Eb
  end.
  cbn [snd] in Hs. intros [= <- <-].
  cbn [setWindow searchState]. rewrite Hs. cbn [onDom searchState]. by rewrite Hb.
Qed.

(** X25.  The record of what search has opened is kept
    consistent: every element in the set of search-opened items carries
    the opened-by-search marker "true".  That holds after [initFaq], where
    the set is empty, and every operation of the module keeps it:
    [setItemState] with any arguments - so [open], [close] and [toggle] -,
    a search, [clearSearch], and the steps through the matches. *)
Theorem provenance_kept env :
  (forall w inst w1,
     winInitialized w = false -> initFaq env w = (Some inst, w1) ->
     searchOpenedItems (searchState w1) = ∅ /\ provenanceOk w1)
  /\ (forall it open src cfg group w,
        provenanceOk w -> provenanceOk (setItemState env it open src cfg group w))
  /\ (forall inst it w,
        provenanceOk w ->
        provenanceOk (api_open env inst it w)
        /\ provenanceOk (api_close env inst it w)
        /\ provenanceOk (toggle env inst it w))
  /\ (forall query allItems cfg counter w w',
        provenanceOk w -> performSearch env query allItems cfg counter w = Some w' ->
        provenanceOk w')
  /\ (forall inst w, provenanceOk w -> provenanceOk (clearSearch env inst w))
  /\ (forall delta cfg counter w,
        provenanceOk w -> provenanceOk (advanceMatch delta cfg counter w)).
Proof.
  split; [| split; [| split; [| split; [| split]]]].
  - intros w inst w1 Hflag Hinit.
    pose proof (initFaq_searchOpened env w inst w1 Hflag Hinit) as He.
    split; [exact He |]. intros x Hx. rewrite He in Hx. set_solver.
  - intros. by apply provenanceOk_setItemState.
  - intros inst it w Hw. unfold api_open, api_close, toggle.
    repeat split; by apply provenanceOk_setItemState.
  - intros query allItems cfg counter w w' Hw. rewrite performSearch_parts. cbn zeta.
    assert (H1 : provenanceOk (clearAllHighlights allItems cfg w)).
    { apply (provenanceOk_ext w); [| done]. intros x. apply searchObs_clearAll. }
    destruct (decide (normalizeText query = "")) as [He | Hne].
    + intros [= <-]. apply (provenanceOk_ext (clearAllHighlights allItems cfg w)); [| done].
      intros x. unfold searchObs. cbn [onDom dom searchState].
      by rewrite !attr_updateEmptyState.
    + destruct (foldl (openMatching env (normalizeText query) cfg) _ allItems)
        as [w3 |] eqn:E; cbn [mbind option_bind]; [| done].
      intros [= <-].
      apply (provenanceOk_ext w3); [intros x; apply searchObs_finishSearch |].
      eapply (provenanceOk_openLoop env (normalizeText query) cfg allItems Hne
                (normalizeText_idem query)); [| exact E].
      rewrite closeStale_closeIf. by apply provenanceOk_closeLoop.
  - intros inst w Hw. rewrite clearSearch_parts.
    match goal with |- provenanceOk (onDom _ (onDom _ ?w2)) =>
      apply (provenanceOk_ext w2) end.
    + intros x. unfold searchObs. cbn [onDom dom searchState].
      by rewrite !attr_updateEmptyState, !attr_updateMatchCounter.
    + rewrite closeSearchOpened_closeIf. apply provenanceOk_closeLoop.
      apply (provenanceOk_ext w); [| done]. intros x. apply searchObs_clearAll.
  - intros delta cfg counter w Hw. unfold advanceMatch.
    destruct (marks (searchState w)); [done |].
    match goal with |- provenanceOk (navigateToMatch ?i cfg counter w) =>
      apply (provenanceOk_ext w); [| done] end.
    intros x. unfold searchObs.
    by rewrite !attr_navigateToMatch, searchOpened_navigateToMatch.
Qed.

Lemma provenance_kept_witness :
  let w := Page.searchedPage Page.browser in
  searchOpenedItems (searchState w) <> ∅ /\ provenanceOk w.
Proof.
  intros w. split; [apply (bool_decide_unpack _); vm_compute; exact I |].
  destruct (provenance_kept Page.browser) as (Hi & _ & _ & Hs & _).
  destruct (Hi Page.fresh (Page.inst Page.browser) (Page.ready Page.browser)) as [_ Hr].
  - reflexivity.
  - vm_compute. reflexivity.
  - apply (Hs "password" (instItems (Page.inst Page.browser))
              (instConfig (Page.inst Page.browser)) (counterEl (Page.inst Page.browser))
              (Page.ready Page.browser) w Hr).
    vm_compute. reflexivity.
Defined.
(* ===================================================================== *)
(** ** A search and its clearing *)
(* ===================================================================== *)

Lemma performSearch_match env query allItems cfg counter w it :
  normalizeText query <> "" ->
  it ∈ allItems -> complete it ->
  (forall e, e ∈ textParts it ->
     present (dom w) e /\ outsideMarks (highlightClass (classes cfg)) (dom w) e) ->
  itemMatchesQuery (dom w) it (normalizeText query) = true ->
  exists w',
    performSearch env query allItems cfg counter w = Some w'
    /\ searchObs w' (item it) = (Some "true", Some "true", true).
Proof.
  intros Hne Hin Hc Hp Hm. rewrite performSearch_parts. cbn zeta.
  rewrite decide_False by done.
  set (normalised := normalizeText query) in *.
  set (w1 := clearAllHighlights allItems cfg w).
  set (w2 := foldl (closeStale env normalised cfg) w1 allItems).
  assert (Hidem : normalizeText normalised = normalised) by apply normalizeText_idem.
  assert (H2 : forall e, e ∈ textParts it ->
             present (dom w2) e /\ textContent (dom w2) e = textContent (dom w) e).
  { intros e He. destruct (Hp e He) as [P O].
    destruct (clearAll_outside allItems cfg w e P O) as [P1 T1].
    destruct (closeStale_present env normalised cfg allItems w1 e P1) as [P2 T2].
    split; [done |]. exact (eq_trans T2 T1). }
  destruct (openLoop_spec env normalised cfg allItems Hne Hidem w2)
    as (w3 & E & _ & _ & _ & M & _).
  rewrite E. cbn [mbind option_bind]. eexists. split; [reflexivity |].
  rewrite searchObs_finishSearch. apply (M it Hin Hc).
  - intros e He. by apply H2.
  - rewrite <- Hm. apply itemMatchesQuery_ext. intros e He. by apply H2.
Qed.


(* ===================================================================== *)
(** ** Highlighting and clearing *)
(* ===================================================================== *)

Lemma walkNodes_origin (f : node -> elem -> option (list node * elem))
    (g : node -> list elem) l :
  Forall (fun k => forall (nx : elem) r, (0 < nx)%nat -> f k nx = Some r ->
            (nx <= r.2)%nat
            /\ (forall x, x ∈ flat_map g r.1 -> x ∈ g k \/ (nx <= x < r.2)%nat)) l ->
  forall (nx : elem) r, (0 < nx)%nat -> walkNodes f l nx = Some r ->
    (nx <= r.2)%nat
    /\ (forall x, x ∈ flat_map g r.1 -> x ∈ flat_map g l \/ (nx <= x < r.2)%nat).
Proof.
  induction 1 as [| k l Hk _ IH]; intros nx r Hpos Hr.
  - injection Hr as <-. simpl. split; [lia |]. intros x Hx. by apply elem_of_nil in Hx.
  - rewrite walkNodes_cons in Hr.
    destruct (f k nx) as [a |] eqn:Ea; [| done].
    cbn [mbind option_bind] in Hr.
    destruct (Hk nx a Hpos Ea) as (A1 & A2).
    destruct (walkNodes f l a.2) as [b |] eqn:Eb; [| discriminate Hr]. simpl in Hr.
    injection Hr as <-. simpl.
    destruct (IH a.2 b ltac:(lia) Eb) as (B1 & B2).
    split; [lia |]. intros x Hx. rewrite flat_map_app in Hx.
    apply elem_of_app in Hx as [Hx | Hx].
    + destruct (A2 x Hx) as [? | ?]; [left; apply elem_of_app; by left | right; lia].
    + destruct (B2 x Hx) as [? | ?]; [left; apply elem_of_app; by right | right; lia].
Qed.

Lemma walkForest_origin (f : node -> elem -> option (node * elem))
    (g : node -> list elem) l :
  Forall (fun k => forall (nx : elem) r, (0 < nx)%nat -> f k nx = Some r ->
            (nx <= r.2)%nat
            /\ (forall x, x ∈ g r.1 -> x ∈ g k \/ (nx <= x < r.2)%nat)) l ->
  forall (nx : elem) r, (0 < nx)%nat -> walkForest f l nx = Some r ->
    (nx <= r.2)%nat
    /\ (forall x, x ∈ flat_map g r.1 -> x ∈ flat_map g l \/ (nx <= x < r.2)%nat).
Proof.
  induction 1 as [| k l Hk _ IH]; intros nx r Hpos Hr.
  - injection Hr as <-. simpl. split; [lia |]. intros x Hx. by apply elem_of_nil in Hx.
  - rewrite walkForest_cons in Hr.
    destruct (f k nx) as [a |] eqn:Ea; [| done].
    cbn [mbind option_bind] in Hr.
    destruct (Hk nx a Hpos Ea) as (A1 & A2).
    destruct (walkForest f l a.2) as [b |] eqn:Eb; [| discriminate Hr]. simpl in Hr.
    injection Hr as <-. simpl.
    destruct (IH a.2 b ltac:(lia) Eb) as (B1 & B2).
    split; [lia |]. intros x Hx.
    apply elem_of_app in Hx as [Hx | Hx].
    + destruct (A2 x Hx) as [? | ?]; [left; apply elem_of_app; by left | right; lia].
    + destruct (B2 x Hx) as [? | ?]; [left; apply elem_of_app; by right | right; lia].
Qed.

Lemma fragmentOf_desc m rs : forall next,
  flat_map (descNode m) (fragmentOf rs next).1 = [].
Proof.
  induction rs as [| r rs IH]; intros next; [done |].
  destruct r as [s | s]; simpl.
  - specialize (IH next). destruct (fragmentOf rs next) as [ns nx]. simpl in *. exact IH.
  - specialize (IH (S next)). destruct (fragmentOf rs (S next)) as [ns nx]. simpl in *.
    rewrite IH. by repeat case_decide.
Qed.

Lemma hlNodes_elems normalised ks (nx : elem) r :
  (0 < nx)%nat -> walkNodes (hlNode normalised) ks nx = Some r ->
  (nx <= r.2)%nat
  /\ (forall x, x ∈ treeElems r.1 -> x ∈ treeElems ks \/ (nx <= x < r.2)%nat).
Proof.
  intros Hpos Hr.
  assert (Hks : Forall (fun k => forall nx r, (0 < nx)%nat ->
                  hlNode normalised k nx = Some r ->
                  nodesText r.1 = nodeText k
                  /\ (nx <= r.2)%nat
                  /\ nodesText (flat_map (kidsNode 0%nat) r.1) = nodesText (kidsNode 0%nat k)
                  /\ (forall x, x ∈ treeElems r.1 ->
                                x ∈ nodeElems k \/ (nx <= x < r.2)%nat)
                  /\ nodeElems k ⊆ treeElems r.1) ks).
  { apply Forall_forall. intros k _. apply hlNode_spec. }
  by destruct (walkNodes_spec (hlNode normalised) 0%nat ks Hks nx r Hpos Hr)
    as (_ & H2 & _ & H4 & _).
Qed.

Lemma hlNode_desc normalised m n :
  forall (nx : elem) r, (0 < nx)%nat -> hlNode normalised n nx = Some r ->
    (nx <= r.2)%nat
    /\ (forall x, x ∈ flat_map (descNode m) r.1 ->
                  x ∈ descNode m n \/ (nx <= x < r.2)%nat).
Proof.
  induction n as [s | e ks IH] using node_ind_forall; intros nx r Hpos Hr.
  - split; [by destruct (hlNode_spec normalised 0%nat (Text s) nx r Hpos Hr) as (_ & ? & _) |].
    simpl in Hr. destruct (Js.includes _ _).
    + destruct (splitText s normalised) as [rs |] eqn:Ers; [| done].
      simpl in Hr. injection Hr as <-. rewrite fragmentOf_desc.
      intros x Hx. by apply elem_of_nil in Hx.
    + injection Hr as <-. intros x Hx. by apply elem_of_nil in Hx.
  - simpl in Hr.
    destruct (walkNodes (hlNode normalised) ks nx) as [r' |] eqn:Er'; [| done].
    simpl in Hr. injection Hr as <-. cbn [fst snd].
    destruct (hlNodes_elems normalised ks nx r' Hpos Er') as [H2 H4].
    split; [done |]. intros x Hx. simpl in Hx. rewrite app_nil_r in Hx. simpl.
    case_decide.
    + by apply H4.
    + by apply (walkNodes_origin (hlNode normalised) (descNode m) ks IH nx r' Hpos Er').
Qed.

Lemma hlForest_elems root normalised ks (nx : elem) r :
  (0 < nx)%nat -> walkForest (hlAt root normalised) ks nx = Some r ->
  (nx <= r.2)%nat
  /\ (forall x, x ∈ treeElems r.1 -> x ∈ treeElems ks \/ (nx <= x < r.2)%nat).
Proof.
  intros Hpos Hr.
  by destruct (hlForest_spec root normalised 0%nat ks nx r Hpos Hr) as (_ & H2 & _ & H4 & _).
Qed.

Lemma hlAt_desc root normalised m n :
  forall (nx : elem) r, (0 < nx)%nat -> hlAt root normalised n nx = Some r ->
    (nx <= r.2)%nat
    /\ (forall x, x ∈ descNode m r.1 -> x ∈ descNode m n \/ (nx <= x < r.2)%nat).
Proof.
  induction n as [s | e ks IH] using node_ind_forall; intros nx r Hpos Hr.
  - injection Hr as <-. simpl. split; [lia |]. intros x Hx. by apply elem_of_nil in Hx.
  - simpl in Hr. case_decide as Eroot.
    + unfold hlNodes in Hr.
      destruct (walkNodes (hlNode normalised) ks nx) as [r' |] eqn:Er'; [| done].
      simpl in Hr. injection Hr as <-. cbn [fst snd].
      destruct (hlNodes_elems normalised ks nx r' Hpos Er') as [H2 H4].
      split; [done |]. intros x Hx. simpl in *. case_decide.
      * by apply H4.
      * apply (walkNodes_origin (hlNode normalised) (descNode m) ks); try done.
        apply Forall_forall. intros k _. apply hlNode_desc.
    + destruct (walkForest (hlAt root normalised) ks nx) as [r' |] eqn:Er'; [| done].
      simpl in Hr. injection Hr as <-. cbn [fst snd].
      destruct (hlForest_elems root normalised ks nx r' Hpos Er') as [H2 H4].
      split; [done |]. intros x Hx. simpl in *. case_decide.
      * by apply H4.
      * by apply (walkForest_origin (hlAt root normalised) (descNode m) ks IH nx r' Hpos Er').
Qed.

Lemma hlForest_desc root normalised m l (nx : elem) r :
  (0 < nx)%nat -> hlForest root normalised l nx = Some r ->
  forall x, x ∈ descendants m r.1 -> x ∈ descendants m l \/ (nx <= x < r.2)%nat.
Proof.
  intros Hpos Hr.
  apply (walkForest_origin (hlAt root normalised) (descNode m) l); try done.
  apply Forall_forall. intros k _. apply hlAt_desc.
Qed.

(** The marks that a walk creates hang below the root. *)
Lemma walkForest_under (f : node -> elem -> option (node * elem)) root l :
  Forall (fun k => forall (nx : elem) r, (0 < nx)%nat ->
            (forall y, y ∈ nodeElems k -> (y < nx)%nat) -> f k nx = Some r ->
            (nx <= r.2)%nat
            /\ (forall x, x ∈ nodeElems r.1 -> x ∈ nodeElems k \/ (nx <= x < r.2)%nat)
            /\ (forall x, x ∈ nodeElems r.1 -> (nx <= x)%nat -> x ∈ descNode root r.1)) l ->
  forall (nx : elem) r, (0 < nx)%nat ->
    (forall y, y ∈ treeElems l -> (y < nx)%nat) -> walkForest f l nx = Some r ->
    (nx <= r.2)%nat
    /\ (forall x, x ∈ treeElems r.1 -> x ∈ treeElems l \/ (nx <= x < r.2)%nat)
    /\ (forall x, x ∈ treeElems r.1 -> (nx <= x)%nat -> x ∈ flat_map (descNode root) r.1).
Proof.
  induction 1 as [| k l Hk _ IH]; intros nx r Hpos Hold Hr.
  - injection Hr as <-. simpl. split; [lia |].
    split; intros x Hx; by apply elem_of_nil in Hx.
  - rewrite walkForest_cons in Hr.
    destruct (f k nx) as [a |] eqn:Ea; [| done].
    cbn [mbind option_bind] in Hr.
    unfold treeElems in Hold. simpl in Hold.
    assert (Hk' : forall y, y ∈ nodeElems k -> (y < nx)%nat).
    { intros y Hy. apply Hold. apply elem_of_app. by left. }
    assert (Hl' : forall y, y ∈ treeElems l -> (y < nx)%nat).
    { intros y Hy. apply Hold. apply elem_of_app. by right. }
    destruct (Hk nx a Hpos Hk' Ea) as (A1 & A2 & A3).
    destruct (walkForest f l a.2) as [b |] eqn:Eb; [| discriminate Hr]. simpl in Hr.
    injection Hr as <-.
    assert (Hl'' : forall y, y ∈ treeElems l -> (y < a.2)%nat).
    { intros y Hy. specialize (Hl' y Hy). lia. }
    destruct (IH a.2 b ltac:(lia) Hl'' Eb) as (B1 & B2 & B3).
    unfold treeElems in *. simpl.
    split; [lia |]. split.
    + intros x Hx. apply elem_of_app in Hx as [Hx | Hx].
      * destruct (A2 x Hx) as [? | ?]; [left; apply elem_of_app; by left | right; lia].
      * destruct (B2 x Hx) as [? | ?]; [left; apply elem_of_app; by right | right; lia].
    + intros x Hx Hge. apply elem_of_app in Hx as [Hx | Hx]; apply elem_of_app.
      * left. by apply A3.
      * right. apply B3; [done |].
        destruct (B2 x Hx) as [Ho | ?]; [| lia]. specialize (Hl' x Ho). lia.
Qed.

Lemma hlAt_under root normalised n :
  forall (nx : elem) r, (0 < nx)%nat ->
    (forall y, y ∈ nodeElems n -> (y < nx)%nat) -> hlAt root normalised n nx = Some r ->
    (nx <= r.2)%nat
    /\ (forall x, x ∈ nodeElems r.1 -> x ∈ nodeElems n \/ (nx <= x < r.2)%nat)
    /\ (forall x, x ∈ nodeElems r.1 -> (nx <= x)%nat -> x ∈ descNode root r.1).
Proof.
  induction n as [s | e ks IH] using node_ind_forall; intros nx r Hpos Hold Hr.
  - injection Hr as <-. simpl. split; [lia |].
    split; intros x Hx; by apply elem_of_nil in Hx.
  - destruct (hlAt_spec root normalised 0%nat (Elem e ks) nx r Hpos Hr)
      as (_ & H2 & _ & H4 & _).
    split; [done |]. split; [done |].
    assert (He : (e < nx)%nat) by (apply Hold; left).
    simpl in Hr. case_decide as Eroot.
    + unfold hlNodes in Hr.
      destruct (walkNodes (hlNode normalised) ks nx) as [r' |] eqn:Er'; [| done].
      simpl in Hr. injection Hr as <-. cbn [fst snd].
      intros x Hx Hge. simpl in *. rewrite decide_True by done.
      apply elem_of_cons in Hx as [-> | Hx]; [lia | done].
    + destruct (walkForest (hlAt root normalised) ks nx) as [r' |] eqn:Er'; [| done].
      simpl in Hr. injection Hr as <-. cbn [fst snd].
      intros x Hx Hge. simpl in *. rewrite decide_False by done.
      apply elem_of_cons in Hx as [-> | Hx]; [lia |].
      assert (Hks : forall y, y ∈ treeElems ks -> (y < nx)%nat).
      { intros y Hy. apply Hold. by right. }
      by apply (walkForest_under (hlAt root normalised) root ks IH nx r' Hpos Hks Er').
Qed.

Lemma hlForest_under root normalised l (nx : elem) r :
  (0 < nx)%nat -> (forall y, y ∈ treeElems l -> (y < nx)%nat) ->
  hlForest root normalised l nx = Some r ->
  forall x, x ∈ treeElems r.1 -> (nx <= x)%nat -> x ∈ descendants root r.1.
Proof.
  intros Hpos Hold Hr.
  apply (walkForest_under (hlAt root normalised) root l); try done.
  apply Forall_forall. intros k _. apply hlAt_under.
Qed.

(** Where the elements of the highlighted document come from. *)
Lemma highlightText_origin root query cls d d' :
  highlightText root query cls d = Some d' ->
  (forall m x, x ∈ descendants m (tree d') ->
      x ∈ descendants m (tree d) \/ (freshElem d <= x)%nat)
  /\ (forall x, x ∈ treeElems (tree d') -> (freshElem d <= x)%nat ->
        x ∈ descendants root (tree d') /\ selMatches d' (markSel cls) x = true)
  /\ (forall x, x ∈ treeElems (tree d') ->
        x ∈ treeElems (tree d) \/ (freshElem d <= x)%nat).
Proof.
  unfold highlightText. case_decide as Hq.
  { intros [= <-]. split; [by left |]. split; [| by left].
    intros x Hx Hge. apply (or_introl (B := known d x)) in Hx.
    apply in_tree_lt_fresh in Hx. lia. }
  destruct (hlForest root (normalizeText query) (tree d) (freshElem d)) as [r |] eqn:Er;
    [| done].
  simpl. intros [= <-]. cbn [tree].
  assert (Hpos : (0 < freshElem d)%nat) by (unfold freshElem; lia).
  assert (Hold : forall y, y ∈ treeElems (tree d) -> (y < freshElem d)%nat).
  { intros y Hy. apply in_tree_lt_fresh. by left. }
  destruct (hlForest_elems root (normalizeText query) (tree d) (freshElem d) r Hpos Er)
    as [H2 H4].
  split; [| split].
  - intros m x Hx.
    destruct (hlForest_desc root (normalizeText query) m (tree d) (freshElem d) r Hpos Er
                x Hx) as [? | ?]; [by left | right; lia].
  - intros x Hx Hge. split.
    + by apply (hlForest_under root (normalizeText query) (tree d) (freshElem d) r).
    + unfold markSel. simpl. unfold classContains, getEl. cbn [store].
      rewrite registerMarks_lookup.
      destruct (H4 x Hx) as [Ho | Hr]; [specialize (Hold x Ho); lia |].
      unfold elem in *. rewrite decide_True by lia. simpl.
      apply bool_decide_eq_true_2. set_solver.
  - intros x Hx. destruct (H4 x Hx) as [? | ?]; [by left | right; lia].
Qed.


